(** * Tool-call conversion (endpoints/OAI/utils/tools.py)

    A shallow embedding of [ToolCallProcessor]: the JSON and XML decoders
    ([from_json], [from_xml]), [dump], and the JSON and XML encoders
    ([to_json], [to_xml]), together with the parts of the Python runtime
    they call: [json.loads], [json.dumps], [re.findall] and [str.strip].

    Python text is a sequence of code points, Python values are the values
    [json.loads] builds, exceptions are an explicit error result. *)

From Stdlib Require Import String Ascii.
From Stdlib Require Import List NArith ZArith Lia Bool.
From Stdlib Require DecimalN DecimalPos DecimalFacts.
Import ListNotations.

Set Warnings "-register-all".

(** ** Text *)

(** A Python [str]: its code points, in order. *)
Definition char := N.
Definition str := list char.

Definition ch (a : ascii) : char := N_of_ascii a.

(** A literal of the source, as code points. *)
Fixpoint lit (s : string) : str :=
  match s with
  | EmptyString => []
  | String a s' => ch a :: lit s'
  end.

Definition DQUOTE : char := 34%N.
Definition SQUOTE : char := 39%N.
Definition BSLASH : char := 92%N.
Definition SLASH : char := 47%N.
Definition LBRACE : char := 123%N.
Definition RBRACE : char := 125%N.
Definition LBRACK : char := 91%N.
Definition RBRACK : char := 93%N.
Definition COMMA : char := 44%N.
Definition COLON : char := 58%N.
Definition MINUS : char := 45%N.
Definition PLUS : char := 43%N.
Definition DOT : char := 46%N.
Definition LT : char := 60%N.
Definition GT : char := 62%N.
Definition NL : char := 10%N.

(** A literal with double quotes, written with the single quote standing for
    the double quote: [qlit "{'a': 1}"] is the text [{"a": 1}]. *)
Definition qlit (s : string) : str :=
  map (fun c => if N.eqb c SQUOTE then DQUOTE else c) (lit s).

Fixpoint str_eqb (a b : str) : bool :=
  match a, b with
  | [], [] => true
  | x :: a', y :: b' => N.eqb x y && str_eqb a' b'
  | _, _ => false
  end.

(** [s.startswith(p)], returning what follows the prefix. *)
Fixpoint strip_prefix (p s : str) : option str :=
  match p with
  | [] => Some s
  | x :: p' =>
      match s with
      | y :: s' => if N.eqb x y then strip_prefix p' s' else None
      | [] => None
      end
  end.

(** [sep.join(parts)] *)
Fixpoint join (sep : str) (parts : list str) : str :=
  match parts with
  | [] => []
  | [p] => p
  | p :: rest => p ++ sep ++ join sep rest
  end.

(** [Py_UNICODE_ISSPACE]: the characters [str.strip()] removes and the
    regular-expression class [\s] matches on [str] patterns. *)
Definition is_space (c : char) : bool :=
  ((9 <=? c) && (c <=? 13) || (28 <=? c) && (c <=? 32)
   || (c =? 133) || (c =? 160) || (c =? 5760)
   || (8192 <=? c) && (c <=? 8202)
   || (c =? 8232) || (c =? 8233) || (c =? 8239) || (c =? 8287)
   || (c =? 12288))%N.

Fixpoint lstrip (s : str) : str :=
  match s with
  | c :: s' => if is_space c then lstrip s' else s
  | [] => []
  end.

Definition rstrip (s : str) : str := rev (lstrip (rev s)).

(** [s.strip()] *)
Definition strip (s : str) : str := rstrip (lstrip s).

(** ** Python values

    The values [json.loads] builds.  A dict keeps its keys in insertion
    order, so it is an association list whose keys are kept distinct by
    [dict_set].  An [int] is unbounded.  A [float] is kept as the decimal
    token it was read from: binary floating point is outside this embedding,
    and no operation of the module computes with a float; [json.dumps] writes
    the token back (Python writes [repr] of the float, another token of the
    same float). *)
Inductive value : Type :=
| VNone
| VBool (b : bool)
| VInt (z : Z)
| VFloat (token : str)
| VStr (s : str)
| VList (l : list value)
| VDict (d : list (str * value)).

Definition dict := list (str * value).

(** [d.get(k)] *)
Fixpoint dict_get (k : str) (d : dict) : option value :=
  match d with
  | [] => None
  | (k', v) :: d' => if str_eqb k k' then Some v else dict_get k d'
  end.

(** [k in d] *)
Definition dict_mem (k : str) (d : dict) : bool :=
  match dict_get k d with Some _ => true | None => false end.

(** [d[k] = v]: an existing key keeps its place, a new key goes last. *)
Fixpoint dict_set (k : str) (v : value) (d : dict) : dict :=
  match d with
  | [] => [(k, v)]
  | (k', v') :: d' =>
      if str_eqb k k' then (k', v) :: d' else (k', v') :: dict_set k v d'
  end.

(** ** [json.loads]

    The scanner of the [json] module: [scanstring] for string bodies,
    [scan_number] for numbers, [scan_atom] for the constants, and the
    recursive [parse_value] / [parse_elems] / [parse_members] for the values
    of [scan_once], [_parse_array] and [_parse_object]. *)

(** JSON whitespace: space, tab, line feed, carriage return. *)
Definition is_ws (c : char) : bool :=
  ((c =? 32) || (c =? 9) || (c =? 10) || (c =? 13))%N.

Fixpoint skip_ws (s : str) : str :=
  match s with
  | c :: s' => if is_ws c then skip_ws s' else s
  | [] => []
  end.

Definition is_digit (c : char) : bool := ((48 <=? c) && (c <=? 57))%N.

(** The value of a hexadecimal digit, either case. *)
Definition hexval (c : char) : option N :=
  (if is_digit c then Some (c - 48)
   else if (97 <=? c) && (c <=? 102) then Some (c - 87)
   else if (65 <=? c) && (c <=? 70) then Some (c - 55)
   else None)%N.

Definition hex4 (a b c d : char) : option N :=
  match hexval a, hexval b, hexval c, hexval d with
  | Some x, Some y, Some z, Some w => Some (((x * 16 + y) * 16 + z) * 16 + w)%N
  | _, _, _, _ => None
  end.

Definition is_high_surrogate (c : N) : bool := ((55296 <=? c) && (c <=? 56319))%N.
Definition is_low_surrogate (c : N) : bool := ((56320 <=? c) && (c <=? 57343))%N.

(** [Py_UNICODE_JOIN_SURROGATES] *)
Definition join_surrogates (hi lo : N) : N :=
  (65536 + ((hi - 55296) * 1024 + (lo - 56320)))%N.

(** The character a one-letter escape stands for. *)
Definition unescape (e : char) : option char :=
  (if e =? DQUOTE then Some DQUOTE
   else if e =? BSLASH then Some BSLASH
   else if e =? SLASH then Some SLASH
   else if e =? 98 then Some 8
   else if e =? 102 then Some 12
   else if e =? 110 then Some 10
   else if e =? 114 then Some 13
   else if e =? 116 then Some 9
   else None)%N.

Definition cons_fst (c : char) (r : option (str * str)) : option (str * str) :=
  match r with
  | Some (t, rest) => Some (c :: t, rest)
  | None => None
  end.

(** [scanstring] (strict): the body of a string after its opening quote, up
    to and including the closing quote.  A raw control character, an unknown
    escape, a bad [\uXXXX] or a missing closing quote is an error.  A high
    surrogate escape followed by a low surrogate escape is one character. *)
Fixpoint scanstring (s : str) : option (str * str) :=
  match s with
  | [] => None
  | c :: s1 =>
      if (c =? DQUOTE)%N then Some ([], s1)
      else if (c =? BSLASH)%N then
        match s1 with
        | [] => None
        | e :: s2 =>
            if (e =? 117)%N then
              match s2 with
              | h1 :: h2 :: h3 :: h4 :: s3 =>
                  match hex4 h1 h2 h3 h4 with
                  | None => None
                  | Some u =>
                      if is_high_surrogate u then
                        match s3 with
                        | b :: u' :: g1 :: g2 :: g3 :: g4 :: s4 =>
                            if (b =? BSLASH)%N && (u' =? 117)%N then
                              match hex4 g1 g2 g3 g4 with
                              | None => None
                              | Some u2 =>
                                  if is_low_surrogate u2
                                  then cons_fst (join_surrogates u u2) (scanstring s4)
                                  else cons_fst u (scanstring s3)
                              end
                            else cons_fst u (scanstring s3)
                        | _ => cons_fst u (scanstring s3)
                        end
                      else cons_fst u (scanstring s3)
                  end
              | _ => None
              end
            else
              match unescape e with
              | Some x => cons_fst x (scanstring s2)
              | None => None
              end
        end
      else if (c <? 32)%N then None
      else cons_fst c (scanstring s1)
  end.

(** The longest run of decimal digits at the front. *)
Fixpoint span_digits (s : str) : str * str :=
  match s with
  | c :: s' =>
      if is_digit c then let (ds, r) := span_digits s' in (c :: ds, r)
      else ([], s)
  | [] => ([], [])
  end.

Definition digit_of_char (c : char) (u : Decimal.uint) : Decimal.uint :=
  (if c =? 48 then Decimal.D0 u else if c =? 49 then Decimal.D1 u
   else if c =? 50 then Decimal.D2 u else if c =? 51 then Decimal.D3 u
   else if c =? 52 then Decimal.D4 u else if c =? 53 then Decimal.D5 u
   else if c =? 54 then Decimal.D6 u else if c =? 55 then Decimal.D7 u
   else if c =? 56 then Decimal.D8 u else Decimal.D9 u)%N.

Fixpoint uint_of_digits (ds : str) : Decimal.uint :=
  match ds with
  | [] => Decimal.Nil
  | c :: ds' => digit_of_char c (uint_of_digits ds')
  end.

Fixpoint digits_of_uint (u : Decimal.uint) : str :=
  match u with
  | Decimal.Nil => []
  | Decimal.D0 u' => 48%N :: digits_of_uint u'
  | Decimal.D1 u' => 49%N :: digits_of_uint u'
  | Decimal.D2 u' => 50%N :: digits_of_uint u'
  | Decimal.D3 u' => 51%N :: digits_of_uint u'
  | Decimal.D4 u' => 52%N :: digits_of_uint u'
  | Decimal.D5 u' => 53%N :: digits_of_uint u'
  | Decimal.D6 u' => 54%N :: digits_of_uint u'
  | Decimal.D7 u' => 55%N :: digits_of_uint u'
  | Decimal.D8 u' => 56%N :: digits_of_uint u'
  | Decimal.D9 u' => 57%N :: digits_of_uint u'
  end.

(** [int(digits)] for a run of decimal digits. *)
Definition nat_of_digits (ds : str) : N := N.of_uint (uint_of_digits ds).

(** The integer part of a number: [0], or a non-zero digit and the digits
    after it. *)
Definition scan_int_part (s : str) : option (str * str) :=
  match s with
  | c :: r =>
      if ((49 <=? c) && (c <=? 57))%N
      then let (ds, r') := span_digits r in Some (c :: ds, r')
      else if (c =? 48)%N then Some ([c], r)
      else None
  | [] => None
  end.

(** The fraction: a dot and at least one digit, or nothing. *)
Definition scan_frac (s : str) : str * str :=
  match s with
  | d :: f :: r =>
      if (d =? DOT)%N && is_digit f
      then let (ds, r') := span_digits r in (d :: f :: ds, r')
      else ([], s)
  | _ => ([], s)
  end.

(** The exponent: [e] or [E], an optional sign and at least one digit, or
    nothing (the scanner backtracks when no digit follows). *)
Definition scan_exp (s : str) : str * str :=
  match s with
  | e :: r =>
      if ((e =? 101) || (e =? 69))%N then
        let (sg, r1) :=
          match r with
          | g :: r' => if ((g =? MINUS) || (g =? PLUS))%N then ([g], r') else ([], r)
          | [] => ([], r)
          end in
        match span_digits r1 with
        | ([], _) => ([], s)
        | (ds, r2) => (e :: sg ++ ds, r2)
        end
      else ([], s)
  | [] => ([], s)
  end.

(** [_match_number]: an [int] when there is neither fraction nor exponent,
    a [float] otherwise. *)
Definition scan_number (s : str) : option (value * str) :=
  let (sign, s1) :=
    match s with
    | c :: r => if (c =? MINUS)%N then ([c], r) else ([], s)
    | [] => ([], s)
    end in
  match scan_int_part s1 with
  | None => None
  | Some (ip, r1) =>
      let (fr, r2) := scan_frac r1 in
      let (ex, r3) := scan_exp r2 in
      match fr, ex with
      | [], [] =>
          Some (VInt (match sign with
                      | [] => Z.of_N (nat_of_digits ip)
                      | _ => Z.opp (Z.of_N (nat_of_digits ip))
                      end), r3)
      | _, _ => Some (VFloat (sign ++ ip ++ fr ++ ex), r3)
      end
  end.

Definition try_const (w : str) (v : value) (s : str)
    (otherwise : option (value * str)) : option (value * str) :=
  match strip_prefix w s with
  | Some r => Some (v, r)
  | None => otherwise
  end.

(** The values of [scan_once] that are neither string, object nor array:
    [null], [true], [false], [NaN], [Infinity], [-Infinity], or a number. *)
Definition scan_atom (s : str) : option (value * str) :=
  try_const (lit "null") VNone s
  (try_const (lit "true") (VBool true) s
  (try_const (lit "false") (VBool false) s
  (try_const (lit "NaN") (VFloat (lit "NaN")) s
  (try_const (lit "Infinity") (VFloat (lit "Infinity")) s
  (try_const (lit "-Infinity") (VFloat (lit "-Infinity")) s
  (scan_number s)))))).

(** The result of a scanner that recurses on a fuel: a value and the text
    after it, a syntax error, or fuel exhausted. *)
Inductive res : Type :=
| Ok (v : value) (rest : str)
| Bad
| NoFuel.

Definition of_option (r : option (value * str)) : res :=
  match r with
  | Some (v, rest) => Ok v rest
  | None => Bad
  end.

Fixpoint parse_value (fuel : nat) (s : str) {struct fuel} : res :=
  match fuel with
  | O => NoFuel
  | S n =>
      match s with
      | [] => Bad
      | c :: s' =>
          if (c =? DQUOTE)%N then
            match scanstring s' with
            | Some (t, r) => Ok (VStr t) r
            | None => Bad
            end
          else if (c =? LBRACE)%N then
            match skip_ws s' with
            | c2 :: r =>
                if (c2 =? RBRACE)%N then Ok (VDict []) r
                else parse_members n [] (c2 :: r)
            | [] => Bad
            end
          else if (c =? LBRACK)%N then
            match skip_ws s' with
            | c2 :: r =>
                if (c2 =? RBRACK)%N then Ok (VList []) r
                else parse_elems n [] (c2 :: r)
            | [] => Bad
            end
          else of_option (scan_atom s)
      end
  end

with parse_elems (fuel : nat) (acc : list value) (s : str) {struct fuel} : res :=
  match fuel with
  | O => NoFuel
  | S n =>
      match parse_value n s with
      | Ok v r =>
          match skip_ws r with
          | c :: r' =>
              if (c =? RBRACK)%N then Ok (VList (acc ++ [v])) r'
              else if (c =? COMMA)%N then parse_elems n (acc ++ [v]) (skip_ws r')
              else Bad
          | [] => Bad
          end
      | Bad => Bad
      | NoFuel => NoFuel
      end
  end

with parse_members (fuel : nat) (acc : dict) (s : str) {struct fuel} : res :=
  match fuel with
  | O => NoFuel
  | S n =>
      match s with
      | c :: s' =>
          if (c =? DQUOTE)%N then
            match scanstring s' with
            | Some (k, r) =>
                match skip_ws r with
                | c2 :: r2 =>
                    if (c2 =? COLON)%N then
                      match parse_value n (skip_ws r2) with
                      | Ok v r3 =>
                          match skip_ws r3 with
                          | c3 :: r4 =>
                              if (c3 =? RBRACE)%N then Ok (VDict (dict_set k v acc)) r4
                              else if (c3 =? COMMA)%N
                              then parse_members n (dict_set k v acc) (skip_ws r4)
                              else Bad
                          | [] => Bad
                          end
                      | Bad => Bad
                      | NoFuel => NoFuel
                      end
                    else Bad
                | [] => Bad
                end
            | None => Bad
            end
          else Bad
      | [] => Bad
      end
  end.

(** Fuel that is always enough (see [parse_value_fuel]). *)
Definition fuel_for (s : str) : nat := 2 * length s + 2.

(** [json.loads(s)]: skip leading whitespace, read one value, and accept only
    whitespace after it.  [None] is [JSONDecodeError]. *)
Definition loads (s : str) : option value :=
  match parse_value (fuel_for s) (skip_ws s) with
  | Ok v r => match skip_ws r with [] => Some v | _ :: _ => None end
  | _ => None
  end.

(** ** [json.dumps] *)

Definition hexdigit (n : N) : char := (if n <? 10 then 48 + n else 87 + n)%N.

(** The four lower-case hexadecimal digits of the low 16 bits. *)
Definition hex4_of (c : N) : str :=
  [hexdigit ((c / 4096) mod 16); hexdigit ((c / 256) mod 16);
   hexdigit ((c / 16) mod 16); hexdigit (c mod 16)]%N.

Definition uescape (c : N) : str := BSLASH :: 117%N :: hex4_of c.

(** [ensure_ascii] escaping of one character: the short escapes, printable
    ASCII as it is, [\uXXXX] for the rest, as a surrogate pair above the
    basic plane. *)
Definition escape_char (c : char) : str :=
  (if c =? DQUOTE then [BSLASH; DQUOTE]
   else if c =? BSLASH then [BSLASH; BSLASH]
   else if c =? 10 then [BSLASH; 110]
   else if c =? 13 then [BSLASH; 114]
   else if c =? 9 then [BSLASH; 116]
   else if c =? 8 then [BSLASH; 98]
   else if c =? 12 then [BSLASH; 102]
   else if (32 <=? c) && (c <=? 126) then [c]
   else if c <? 65536 then uescape c
   else uescape (55232 + c / 1024) ++ uescape (56320 + c mod 1024))%N.

(** [encode_basestring_ascii] *)
Definition encode_str (s : str) : str :=
  DQUOTE :: flat_map escape_char s ++ [DQUOTE].

(** [int.__repr__] *)
Definition int_repr (z : Z) : str :=
  match z with
  | Zneg _ => MINUS :: digits_of_uint (N.to_uint (Z.abs_N z))
  | _ => digits_of_uint (N.to_uint (Z.abs_N z))
  end.

(** [json.dumps(v)] with the default separators [", "] and [": "]. *)
Fixpoint dumps (v : value) : str :=
  match v with
  | VNone => lit "null"
  | VBool true => lit "true"
  | VBool false => lit "false"
  | VInt z => int_repr z
  | VFloat t => t
  | VStr s => encode_str s
  | VList l => LBRACK :: join (lit ", ") (map dumps l) ++ [RBRACK]
  | VDict d =>
      LBRACE ::
      join (lit ", ")
        (map (fun kv : str * value => let (k, x) := kv in encode_str k ++ lit ": " ++ dumps x) d)
      ++ [RBRACE]
  end.

(** [json.dumps(v, indent=2)]: one item per line, two spaces per level, the
    item separator [","]; an empty container stays [[]] or [{}]. *)
Definition newline_indent (level : nat) : str :=
  NL :: repeat 32%N (2 * level).

Fixpoint dumps_indent (level : nat) (v : value) : str :=
  match v with
  | VList [] => lit "[]"
  | VList l =>
      LBRACK :: newline_indent (S level)
      ++ join (COMMA :: newline_indent (S level)) (map (dumps_indent (S level)) l)
      ++ newline_indent level ++ [RBRACK]
  | VDict [] => lit "{}"
  | VDict d =>
      LBRACE :: newline_indent (S level)
      ++ join (COMMA :: newline_indent (S level))
           (map (fun kv : str * value => let (k, x) := kv in
                           encode_str k ++ lit ": " ++ dumps_indent (S level) x) d)
      ++ newline_indent level ++ [RBRACE]
  | _ => dumps v
  end.

(** ** [re.findall]

    The patterns of the module are sequences of literals, capture groups and
    single-character classes under [*], [+] and [*?].  [run] is the
    backtracking matcher of [re] on such a sequence: a greedy quantifier
    tries the longest run first and gives characters back one at a time, a
    lazy one tries the shortest first, and the first way through the whole
    pattern wins. *)
Inductive item : Type :=
| Lit (w : str)
| Star (c : char -> bool)
| Plus (c : char -> bool)
| Lazy (c : char -> bool)
| Open
| Close.

Definition pattern := list item.

Section Quantifiers.
Variable R : Type.
Variable c : char -> bool.
(** What is left of the pattern, run on the text after the quantifier. *)
Variable k : str -> option R.

Fixpoint greedy_star (s : str) : option R :=
  match s with
  | x :: s' =>
      if c x then
        match greedy_star s' with
        | Some r => Some r
        | None => k s
        end
      else k s
  | [] => k []
  end.

Fixpoint lazy_star (s : str) : option R :=
  match k s with
  | Some r => Some r
  | None =>
      match s with
      | x :: s' => if c x then lazy_star s' else None
      | [] => None
      end
  end.
End Quantifiers.

Arguments greedy_star {R} c k s.
Arguments lazy_star {R} c k s.

(** [run p s opened caps]: match [p] at the front of [s]; [opened] holds the
    text at which each group still open began, [caps] the groups already
    closed, last first.  The result is the groups and the text after the
    match. *)
Fixpoint run (p : pattern) (s : str) (opened caps : list str) {struct p}
    : option (list str * str) :=
  match p with
  | [] => Some (rev caps, s)
  | Lit w :: p' =>
      match strip_prefix w s with
      | Some s' => run p' s' opened caps
      | None => None
      end
  | Star c :: p' => greedy_star c (fun s' => run p' s' opened caps) s
  | Plus c :: p' =>
      match s with
      | x :: s' =>
          if c x then greedy_star c (fun s'' => run p' s'' opened caps) s'
          else None
      | [] => None
      end
  | Lazy c :: p' => lazy_star c (fun s' => run p' s' opened caps) s
  | Open :: p' => run p' s (s :: opened) caps
  | Close :: p' =>
      match opened with
      | o :: opened' =>
          run p' s opened' (firstn (length o - length s) o :: caps)
      | [] => None
      end
  end.

(** The scan of [re.findall]: try the pattern at each position from the
    left; after a match go on behind it ([skip] counts the characters of the
    last match still to pass). *)
Fixpoint findall_from (p : pattern) (skip : nat) (s : str) : list (list str) :=
  match s with
  | [] =>
      match skip, run p [] [] [] with
      | O, Some (caps, _) => [caps]
      | _, _ => []
      end
  | _ :: s' =>
      match skip with
      | S n => findall_from p n s'
      | O =>
          match run p s [] [] with
          | Some (caps, rest) => caps :: findall_from p (length s' - length rest) s'
          | None => findall_from p 0 s'
          end
      end
  end.

(** [re.findall(p, s, re.DOTALL)] for a pattern with one group: the text of
    the group for each match. *)
Definition findall1 (p : pattern) (s : str) : list str :=
  map (fun caps => nth 0 caps []) (findall_from p 0 s).

(** The same for a pattern with two groups: a pair for each match. *)
Definition findall2 (p : pattern) (s : str) : list (str * str) :=
  map (fun caps => (nth 0 caps [], nth 1 caps [])) (findall_from p 0 s).

(** [.] under [re.DOTALL] *)
Definition any (c : char) : bool := true.

(** [[^x]] *)
Definition other_than (x : char) (c : char) : bool := negb (c =? x)%N.

(** [<tool_call>\s*(\{.*?\})\s*</tool_call>] *)
Definition tool_call_pattern : pattern :=
  [Lit (lit "<tool_call>"); Star is_space;
   Open; Lit (lit "{"); Lazy any; Lit (lit "}"); Close;
   Star is_space; Lit (lit "</tool_call>")].

(** [<tool_call>\s*<function=([^>]+)>(.*?)</function>\s*</tool_call>] *)
Definition qwen_tool_call_pattern : pattern :=
  [Lit (lit "<tool_call>"); Star is_space; Lit (lit "<function=");
   Open; Plus (other_than GT); Close; Lit (lit ">");
   Open; Lazy any; Close;
   Lit (lit "</function>"); Star is_space; Lit (lit "</tool_call>")].

(** [<parameter=([^>]+)>(.*?)</parameter>] *)
Definition qwen_param_pattern : pattern :=
  [Lit (lit "<parameter="); Open; Plus (other_than GT); Close; Lit (lit ">");
   Open; Lazy any; Close; Lit (lit "</parameter>")].

(** [<invoke name='([^']+)'>(.*?)</invoke>], the single quote standing for
    the double quote as in [qlit] *)
Definition invoke_pattern : pattern :=
  [Lit (qlit "<invoke name='"); Open; Plus (other_than DQUOTE); Close;
   Lit (qlit "'>"); Open; Lazy any; Close; Lit (lit "</invoke>")].

(** [<parameter name='([^']+)'>(.*?)</parameter>], likewise *)
Definition param_pattern : pattern :=
  [Lit (qlit "<parameter name='"); Open; Plus (other_than DQUOTE); Close;
   Lit (qlit "'>"); Open; Lazy any; Close; Lit (lit "</parameter>")].

(** ** Exceptions *)

Inductive exn : Type :=
| JSONDecodeError
| KeyError
| TypeError
| AttributeError
| ValidationError.

Inductive result (A : Type) : Type :=
| Return (a : A)
| Raise (e : exn).

Arguments Return {A} a.
Arguments Raise {A} e.

Definition bind {A B : Type} (m : result A) (f : A -> result B) : result B :=
  match m with
  | Return a => f a
  | Raise e => Raise e
  end.

Notation "x <- m ;; f" := (bind m (fun x => f))
  (at level 61, m at next level, right associativity).

(** A list comprehension or loop whose body may raise: the first exception
    ends it. *)
Fixpoint for_each {A B : Type} (f : A -> result B) (l : list A) : result (list B) :=
  match l with
  | [] => Return []
  | a :: l' => b <- f a ;; bs <- for_each f l' ;; Return (b :: bs)
  end.

(** [json.loads] as the module calls it: [JSONDecodeError] on bad text. *)
Definition json_loads (s : str) : result value :=
  match loads s with
  | Some v => Return v
  | None => Raise JSONDecodeError
  end.

(** [json.loads(o)] on an arbitrary object: [TypeError] unless it is a
    [str]. *)
Definition json_loads_obj (o : value) : result value :=
  match o with
  | VStr s => json_loads s
  | _ => Raise TypeError
  end.

(** [o[k]] for a [str] key: [KeyError] on a dict without the key,
    [TypeError] on anything that is not a dict. *)
Definition getitem (o : value) (k : str) : result value :=
  match o with
  | VDict d =>
      match dict_get k d with
      | Some v => Return v
      | None => Raise KeyError
      end
  | _ => Raise TypeError
  end.

(** ** The schema type

    [ToolCall] has a [function] with a [name] and [arguments]. *)
Record Tool : Type := { name : value; arguments : value }.
Record ToolCall : Type := { function : Tool }.

(** Modelled from the spec: the schema types of [endpoints.OAI.types.tools]
    are not among the sources.  The spec treats a tool call as "an opaque
    value object with required fields [name] and [arguments]", whose content
    is "not validated here": [ToolCall( **kwargs)] needs a [function] mapping
    holding both fields, takes their values as they are and ignores other
    keys; a missing field is a validation error. *)
Definition new_ToolCall (kwargs : dict) : result ToolCall :=
  match dict_get (lit "function") kwargs with
  | Some (VDict f) =>
      match dict_get (lit "name") f, dict_get (lit "arguments") f with
      | Some n, Some a => Return {| function := {| name := n; arguments := a |} |}
      | _, _ => Raise ValidationError
      end
  | _ => Raise ValidationError
  end.

(** Modelled from the spec: [model_dump()], the "plain key-value mapping
    representation" of a record. *)
Definition model_dump (t : ToolCall) : result value :=
  Return (VDict [(lit "function",
                  VDict [(lit "name", name (function t));
                         (lit "arguments", arguments (function t))])]).

(** ** [ToolCallProcessor.from_json] *)

Definition is_dict (v : value) : bool :=
  match v with VDict _ => true | _ => false end.

Definition is_str (v : value) : bool :=
  match v with VStr _ => true | _ => false end.

(** The keyword arguments [{"function": {"name": n, "arguments": a}}]. *)
Definition tool_call_dict (n a : value) : dict :=
  [(lit "function", VDict [(lit "name", n); (lit "arguments", a)])].

(** Lines 72-74: [tool_call["function"]["arguments"] =
    json.dumps(tool_call["function"]["arguments"])], on the parsed object
    itself. *)
Definition dump_arguments (tool_call : value) : result value :=
  f <- getitem tool_call (lit "function") ;;
  a <- getitem f (lit "arguments") ;;
  match tool_call, f with
  | VDict d, VDict fd =>
      Return (VDict (dict_set (lit "function")
                       (VDict (dict_set (lit "arguments") (VStr (dumps a)) fd)) d))
  | _, _ => Raise TypeError
  end.

(** [ToolCall( **tool_call)] *)
Definition construct (tool_call : value) : result ToolCall :=
  match tool_call with
  | VDict d => new_ToolCall d
  | _ => Raise TypeError
  end.

Definition from_json (tool_calls_str : str) : result (list ToolCall) :=
  parsed <- json_loads tool_calls_str ;;
  match parsed with
  | VDict d =>
      match dict_get (lit "name") d, dict_get (lit "arguments") d with
      | Some n, Some a =>
          t <- new_ToolCall
                 (tool_call_dict n (if is_dict a then VStr (dumps a) else a)) ;;
          Return [t]
      | _, _ =>
          tool_calls <- for_each dump_arguments [parsed] ;;
          for_each construct tool_calls
      end
  | VList l =>
      tool_calls <- for_each dump_arguments l ;;
      for_each construct tool_calls
  | _ =>
      tool_calls <- for_each dump_arguments [parsed] ;;
      for_each construct tool_calls
  end.

(** ** [ToolCallProcessor.from_xml] *)

(** [tool_data.get(k)] and [tool_data.get(k, default)]: [AttributeError] on
    an object without [get]. *)
Definition get_or (tool_data : value) (k : str) (default : value) : result value :=
  match tool_data with
  | VDict d =>
      match dict_get k d with
      | Some v => Return v
      | None => Return default
      end
  | _ => Raise AttributeError
  end.

(** Lines 98-107, the body of the [try] for one embedded-JSON block. *)
Definition embedded_block (json_str : str) : result ToolCall :=
  tool_data <- json_loads json_str ;;
  n <- get_or tool_data (lit "name") VNone ;;
  a <- get_or tool_data (lit "arguments") VNone ;;
  a_or_empty <- get_or tool_data (lit "arguments") (VDict []) ;;
  new_ToolCall
    (tool_call_dict n (if negb (is_str a) then VStr (dumps a_or_empty) else a)).

(** Lines 96-109: the loop over the blocks; a [JSONDecodeError] is caught,
    a warning goes to the log and the block is passed over; any other
    exception leaves the function.  [log] holds the blocks warned about. *)
Fixpoint embedded_loop (blocks : list str) (tool_calls : list ToolCall)
    (log : list str) : result (list ToolCall * list str) :=
  match blocks with
  | [] => Return (tool_calls, log)
  | json_str :: blocks' =>
      match embedded_block json_str with
      | Return t => embedded_loop blocks' (tool_calls ++ [t]) log
      | Raise JSONDecodeError => embedded_loop blocks' tool_calls (log ++ [json_str])
      | Raise e => Raise e
      end
  end.

(** Lines 125-132 and 157-164: a parameter value is stripped, then read as
    JSON when it is JSON and kept as the stripped string when it is not. *)
Definition coerce_param (param_value : str) : value :=
  match loads (strip param_value) with
  | Some parsed_value => parsed_value
  | None => VStr (strip param_value)
  end.

(** The loop over the parameters of one block, filling [parameters]. *)
Definition collect_parameters (params : list (str * str)) : dict :=
  fold_left (fun parameters p => dict_set (fst p) (coerce_param (snd p)) parameters)
    params [].

(** Lines 119-142 and 150-174: one record for a block with its name and
    body, for the parameter pattern of the convention. *)
Definition tagged_block (pp : pattern) (block : str * str) : result ToolCall :=
  let (tool_name, body) := block in
  let parameters := collect_parameters (findall2 pp body) in
  new_ToolCall (tool_call_dict (VStr tool_name) (VStr (dumps (VDict parameters)))).

Definition from_xml_logged (tool_calls_str : str) : result (list ToolCall * list str) :=
  match findall1 tool_call_pattern tool_calls_str with
  | (_ :: _) as tool_call_matches => embedded_loop tool_call_matches [] []
  | [] =>
      match findall2 qwen_tool_call_pattern tool_calls_str with
      | (_ :: _) as qwen_matches =>
          tool_calls <- for_each (tagged_block qwen_param_pattern) qwen_matches ;;
          Return (tool_calls, [])
      | [] =>
          tool_calls <- for_each (tagged_block param_pattern)
                          (findall2 invoke_pattern tool_calls_str) ;;
          Return (tool_calls, [])
      end
  end.

(** What [from_xml] returns: the records, without the log. *)
Definition from_xml (tool_calls_str : str) : result (list ToolCall) :=
  r <- from_xml_logged tool_calls_str ;; Return (fst r).


(** ** [ToolCallProcessor.dump] and [ToolCallProcessor.to_json] *)

(** Lines 193-197: a record whose dump raises [JSONDecodeError] or
    [AttributeError] is passed over with a warning. *)
Fixpoint dump_loop (tool_calls : list ToolCall) (dumped : list value)
    (log : list ToolCall) : result (list value * list ToolCall) :=
  match tool_calls with
  | [] => Return (dumped, log)
  | tool_call_obj :: rest =>
      match model_dump tool_call_obj with
      | Return d => dump_loop rest (dumped ++ [d]) log
      | Raise JSONDecodeError | Raise AttributeError =>
          dump_loop rest dumped (log ++ [tool_call_obj])
      | Raise e => Raise e
      end
  end.

Definition dump (tool_calls : list ToolCall) : result (list value) :=
  r <- dump_loop tool_calls [] [] ;; Return (fst r).

Definition to_json (tool_calls : list ToolCall) : result str :=
  match tool_calls with
  | [] => Return []
  | _ :: _ =>
      dumped_tool_calls <- dump tool_calls ;;
      Return (dumps_indent 0 (VList dumped_tool_calls))
  end.

(** ** [ToolCallProcessor.to_xml] *)

(** [repr(o)] and [str(o)], as an f-string writes a field.  For a [str]
    inside a list or dict Python picks the quote and the escapes from the
    character database; here it is the text between single quotes. *)
Fixpoint py_repr (v : value) : str :=
  match v with
  | VNone => lit "None"
  | VBool true => lit "True"
  | VBool false => lit "False"
  | VInt z => int_repr z
  | VFloat t => t
  | VStr s => SQUOTE :: s ++ [SQUOTE]
  | VList l => LBRACK :: join (lit ", ") (map py_repr l) ++ [RBRACK]
  | VDict d =>
      LBRACE ::
      join (lit ", ")
        (map (fun kv : str * value =>
                let (k, x) := kv in SQUOTE :: k ++ SQUOTE :: lit ": " ++ py_repr x) d)
      ++ [RBRACE]
  end.

Definition py_str (v : value) : str :=
  match v with
  | VStr s => s
  | _ => py_repr v
  end.

(** Lines 252-256 and 273-277: a [str] as it is, anything else as JSON. *)
Definition value_str (param_value : value) : str :=
  match param_value with
  | VStr s => s
  | _ => dumps param_value
  end.

(** [arguments.items()]: [AttributeError] on an object that is not a
    dict. *)
Definition items (o : value) : result dict :=
  match o with
  | VDict d => Return d
  | _ => Raise AttributeError
  end.

(** Lines 246-265: the lines of one block of the [qwen] format. *)
Definition qwen_lines (tool_name : value) (args : dict) : list str :=
  [lit "<tool_call>"; lit "<function=" ++ py_str tool_name ++ lit ">"]
  ++ flat_map (fun p : str * value =>
                 [lit "<parameter=" ++ fst p ++ lit ">";
                  value_str (snd p);
                  lit "</parameter>"]) args
  ++ [lit "</function>"; lit "</tool_call>"].

(** Lines 268-283: the lines of one block of the [claude] format. *)
Definition invoke_lines (tool_name : value) (args : dict) : list str :=
  [qlit "<invoke name='" ++ py_str tool_name ++ qlit "'>"]
  ++ map (fun p : str * value =>
            qlit "<parameter name='" ++ fst p ++ qlit "'>"
            ++ value_str (snd p) ++ lit "</parameter>") args
  ++ [lit "</invoke>"].

(** Lines 241-283, the body of the [try] for one record. *)
Definition xml_block (format : str) (tool_call_obj : ToolCall) : result str :=
  args <- json_loads_obj (arguments (function tool_call_obj)) ;;
  if str_eqb format (lit "qwen") then
    its <- items args ;;
    Return (join [NL] (qwen_lines (name (function tool_call_obj)) its))
  else
    its <- items args ;;
    Return (join [NL] (invoke_lines (name (function tool_call_obj)) its)).

(** Lines 239-286: the loop over the records; [JSONDecodeError] and
    [AttributeError] are caught, with a warning in the log. *)
Fixpoint xml_loop (format : str) (tool_calls : list ToolCall)
    (xml_parts : list str) (log : list ToolCall)
    : result (list str * list ToolCall) :=
  match tool_calls with
  | [] => Return (xml_parts, log)
  | tool_call_obj :: rest =>
      match xml_block format tool_call_obj with
      | Return b => xml_loop format rest (xml_parts ++ [b]) log
      | Raise JSONDecodeError | Raise AttributeError =>
          xml_loop format rest xml_parts (log ++ [tool_call_obj])
      | Raise e => Raise e
      end
  end.

Definition to_xml_logged (tool_calls : list ToolCall) (format : str)
    : result (str * list ToolCall) :=
  match tool_calls with
  | [] => Return ([], [])
  | _ :: _ =>
      r <- xml_loop format tool_calls [] [] ;;
      Return (join [NL] (fst r), snd r)
  end.

Definition to_xml (tool_calls : list ToolCall) (format : str) : result str :=
  r <- to_xml_logged tool_calls format ;; Return (fst r).

(** A record with a [str] name and [str] arguments. *)
Definition tool_call (n a : str) : ToolCall :=
  {| function := {| name := VStr n; arguments := VStr a |} |}.

(** ** The number scanner *)

(** The first character, if any, satisfies [p]. *)
Definition starts (p : char -> bool) (s : str) : bool :=
  match s with
  | c :: _ => p c
  | [] => false
  end.

(** What [scan_int_part] accepts as a whole. *)
Definition int_part (ip : str) : Prop :=
  match ip with
  | c :: ds =>
      ((49 <=? c) && (c <=? 57))%N = true /\ forallb is_digit ds = true
      \/ c = 48%N /\ ds = []
  | [] => False
  end.

Definition frac_part (fr : str) : Prop :=
  fr = [] \/
  exists f ds, fr = DOT :: f :: ds /\ is_digit f = true /\ forallb is_digit ds = true.

Definition starts_frac (r : str) : bool :=
  match r with
  | d :: f :: _ => (d =? DOT)%N && is_digit f
  | _ => false
  end.

Definition is_e (c : char) : bool := ((c =? 101) || (c =? 69))%N.

Definition is_sign (c : char) : bool := ((c =? MINUS) || (c =? PLUS))%N.

Definition exp_part (ex : str) : Prop :=
  ex = [] \/
  exists e sg d ds,
    ex = e :: sg ++ d :: ds /\ is_e e = true /\
    (sg = [] \/ exists g, sg = [g] /\ is_sign g = true) /\
    is_digit d = true /\ forallb is_digit ds = true.

(** An exponent could start here. *)
Definition starts_exp (r : str) : bool :=
  match r with
  | e :: g :: d :: _ => is_e e && (is_digit g || is_sign g && is_digit d)
  | e :: g :: _ => is_e e && is_digit g
  | _ => false
  end.

(** A text that cannot go on a number: empty, or its first character is a
    comma or a closing bracket. *)
Definition delim (r : str) : bool :=
  match r with
  | [] => true
  | c :: _ => ((c =? COMMA) || (c =? RBRACK) || (c =? RBRACE))%N
  end.

Definition sign_part (sg : str) : Prop := sg = [] \/ sg = [MINUS].

Definition number_value (sg ip fr ex : str) : value :=
  match fr, ex with
  | [], [] =>
      VInt (match sg with
            | [] => Z.of_N (nat_of_digits ip)
            | _ => Z.opp (Z.of_N (nat_of_digits ip))
            end)
  | _, _ => VFloat (sg ++ ip ++ fr ++ ex)
  end.

(** A float token: what [scan_atom] reads whole, as a float. *)
Definition float_token (t : str) : bool :=
  match scan_atom t with
  | Some (VFloat t', []) => str_eqb t t'
  | _ => false
  end.

Fixpoint unique (ks : list str) : bool :=
  match ks with
  | [] => true
  | k :: ks' => negb (existsb (str_eqb k) ks') && unique ks'
  end.

(** The values [json.loads] can build: every float holds a float token and
    the keys of a dict are distinct. *)
Fixpoint well_formed (v : value) : bool :=
  match v with
  | VFloat t => float_token t
  | VList l => forallb well_formed l
  | VDict d =>
      unique (map fst d) && forallb (fun kv : str * value => well_formed (snd kv)) d
  | _ => true
  end.

(** What follows a high surrogate escape [u] in [scanstring]. *)
Definition surrogate_tail (u : N) (s3 : str) : option (str * str) :=
  match s3 with
  | b :: u' :: g1 :: g2 :: g3 :: g4 :: s4 =>
      if (b =? BSLASH)%N && (u' =? 117)%N then
        match hex4 g1 g2 g3 g4 with
        | None => None
        | Some u2 =>
            if is_low_surrogate u2
            then cons_fst (join_surrogates u u2) (scanstring s4)
            else cons_fst u (scanstring s3)
        end
      else cons_fst u (scanstring s3)
  | _ => cons_fst u (scanstring s3)
  end.

(** The pieces [encode_str] writes: a character as it is, a one-letter
    escape, a [\uXXXX] escape. *)
Inductive piece : Type :=
| Raw (c : char)
| Short (e x : char)
| Hex (x : N).

Definition piece_text (p : piece) : str :=
  match p with
  | Raw c => [c]
  | Short e _ => [BSLASH; e]
  | Hex x => uescape x
  end.

Definition piece_ok (p : piece) : Prop :=
  match p with
  | Raw c => (c =? DQUOTE)%N = false /\ (c =? BSLASH)%N = false /\ (c <? 32)%N = false
  | Short e x => (e =? 117)%N = false /\ unescape e = Some x
  | Hex _ => True
  end.

Definition pieces_of (c : char) : list piece :=
  (if c =? DQUOTE then [Short DQUOTE DQUOTE]
   else if c =? BSLASH then [Short BSLASH BSLASH]
   else if c =? 10 then [Short 110 10]
   else if c =? 13 then [Short 114 13]
   else if c =? 9 then [Short 116 9]
   else if c =? 8 then [Short 98 8]
   else if c =? 12 then [Short 102 12]
   else if (32 <=? c) && (c <=? 126) then [Raw c]
   else if c <? 65536 then [Hex c]
   else [Hex (55232 + c / 1024); Hex (56320 + c mod 1024)])%N.

(** A Unicode scalar value: a code point that is not a surrogate. *)
Definition is_scalar (c : char) : bool :=
  ((c <? 55296) || (57343 <? c) && (c <? 1114112))%N.

(** Every string of the value, keys included, is made of Unicode scalar
    values. *)
Fixpoint scalar_text (v : value) : bool :=
  match v with
  | VStr s => forallb is_scalar s
  | VList l => forallb scalar_text l
  | VDict d =>
      forallb (fun kv : str * value =>
                 forallb is_scalar (fst kv) && scalar_text (snd kv)) d
  | _ => true
  end.

(** The characters a JSON text written by [dumps] can begin with. *)
Definition json_start (c : char) : bool :=
  (is_digit c || (c =? DQUOTE) || (c =? LBRACE) || (c =? LBRACK) || (c =? MINUS)
   || (c =? 110) || (c =? 116) || (c =? 102) || (c =? 78) || (c =? 73))%N.

(** [dumps v], followed by a delimiter, is read back by the scanner: always
    as some value, and as [v] itself when its strings are scalar text. *)
Definition reads_back (v : value) : Prop :=
  forall rest, delim rest = true ->
  exists fuel v',
    parse_value fuel (dumps v ++ rest) = Ok v' rest
    /\ (scalar_text v = true -> v' = v).

Definition member_text (kv : str * value) : str :=
  let (k, x) := kv in encode_str k ++ lit ": " ++ dumps x.

(** ** [dumps] writes no space at either end *)

Definition ends (p : char -> bool) (s : str) : bool := starts p (rev s).

Definition json_end (c : char) : bool :=
  (is_digit c || (c =? DQUOTE) || (c =? RBRACE) || (c =? RBRACK)
   || (c =? 108) || (c =? 101) || (c =? 78) || (c =? 121))%N.

(** The pattern matches at no position inside [a], whatever follows [a]. *)
Fixpoint never (p : pattern) (a : str) : Prop :=
  match a with
  | [] => True
  | _ :: a' => (forall tail, run p (a ++ tail) [] [] = None) /\ never p a'
  end.

(** The record [from_xml] builds from the dict of an embedded-JSON block:
    [name] or [None]; [arguments] as it is when it is a [str], serialized
    otherwise, the serialized empty dict when it is missing. *)
Definition embedded_record (d : dict) : ToolCall :=
  {| function :=
       {| name := match dict_get (lit "name") d with
                  | Some n => n
                  | None => VNone
                  end;
          arguments := match dict_get (lit "arguments") d with
                       | Some (VStr t) => VStr t
                       | Some a => VStr (dumps a)
                       | None => VStr (dumps (VDict []))
                       end |} |}.

(** The three conventions of section 4.2 of the spec, in priority order. *)
Inductive convention : Type :=
| EmbeddedJSON
| TaggedFunction
| Invoke.

(** The records of one convention alone: what its own pattern finds in the
    text, and nothing else. *)
Definition decode_with (c : convention) (text : str) : result (list ToolCall) :=
  match c with
  | EmbeddedJSON =>
      r <- embedded_loop (findall1 tool_call_pattern text) [] [] ;; Return (fst r)
  | TaggedFunction =>
      for_each (tagged_block qwen_param_pattern)
        (findall2 qwen_tool_call_pattern text)
  | Invoke =>
      for_each (tagged_block param_pattern) (findall2 invoke_pattern text)
  end.



(** [tool_calls] of lines 70-76: the parsed list, or the parsed value alone. *)
Definition elements (parsed : value) : list value :=
  match parsed with
  | VList l => l
  | _ => [parsed]
  end.

(** The flat dialect: a mapping with both [name] and [arguments]. *)
Definition is_flat (parsed : value) : bool :=
  match parsed with
  | VDict d => dict_mem (lit "name") d && dict_mem (lit "arguments") d
  | _ => false
  end.

(** A field of the [function] mapping of a nested-dialect element. *)
Definition field (k : str) (element : value) : option value :=
  match element with
  | VDict d =>
      match dict_get (lit "function") d with
      | Some (VDict f) => dict_get k f
      | _ => None
      end
  | _ => None
  end.

(** A nested-dialect element without [function], or whose [function] mapping
    is without [name] or [arguments]. *)
Definition lacks_field (element : value) : bool :=
  match element with
  | VDict d =>
      match dict_get (lit "function") d with
      | None => true
      | Some (VDict f) =>
          negb (dict_mem (lit "name") f) || negb (dict_mem (lit "arguments") f)
      | Some _ => false
      end
  | _ => false
  end.

(** A complete nested-dialect element. *)
Definition nested_element (element : value) : bool :=
  match field (lit "name") element, field (lit "arguments") element with
  | Some _, Some _ => true
  | _, _ => false
  end.

(** The object is a [str] that [json.loads] accepts. *)
Definition valid_json_text (a : value) : bool :=
  match a with
  | VStr t => match loads t with Some _ => true | None => false end
  | _ => false
  end.

(** The arguments of the record are a [str] holding the JSON text of a
    mapping. *)
Definition has_mapping (t : ToolCall) : bool :=
  match arguments (function t) with
  | VStr a => match loads a with Some (VDict _) => true | _ => false end
  | _ => false
  end.

(** The arguments of the record are a [str]. *)
Definition str_arguments (t : ToolCall) : bool := is_str (arguments (function t)).

(** A name that both formats of [to_xml] can carry in a tag: not empty, and
    without [<], [>] and the double quote. *)
Definition tag_name (n : str) : bool :=
  negb (str_eqb n [])
  && forallb (fun c => other_than LT c && other_than GT c && other_than DQUOTE c) n.

(** A parameter value that [to_xml] writes and [from_xml] reads back as it
    was: its text is without [<], its strings are scalar text, and when it is
    itself a string it has no white space around it and is not JSON text. *)
Definition safe_value (v : value) : bool :=
  forallb (other_than LT) (value_str v)
  && scalar_text v
  && match v with
     | VStr t =>
         str_eqb (strip t) t && match loads t with Some _ => false | None => true end
     | _ => true
     end.

Definition safe_parameter (kv : str * value) : bool :=
  tag_name (fst kv) && forallb is_scalar (fst kv) && safe_value (snd kv).

(** A record with a tag name, whose arguments are the JSON text of a mapping
    of safe parameters. *)
Definition safe_record (t : ToolCall) : bool :=
  match name (function t), arguments (function t) with
  | VStr n, VStr a =>
      tag_name n
      && match loads a with
         | Some (VDict d) => forallb safe_parameter d
         | _ => false
         end
  | _, _ => false
  end.


(** The text of one parameter in the [claude] format, and in the [qwen]
    format. *)
Definition claude_parameter (p : str * value) : str :=
  qlit "<parameter name='" ++ fst p ++ qlit "'>" ++ value_str (snd p)
  ++ lit "</parameter>".

Definition qwen_parameter (p : str * value) : str :=
  lit "<parameter=" ++ fst p ++ lit ">" ++ (NL :: value_str (snd p) ++ [NL])
  ++ lit "</parameter>".

(** The text between the opening tag of a block and its closing tag. *)
Definition block_body (parameter : str * value -> str) (d : dict) : str :=
  NL :: flat_map (fun p => parameter p ++ [NL]) d.

(** The name and the mapping a safe record stands for. *)
Definition decoded (t : ToolCall) : str * dict :=
  match name (function t), arguments (function t) with
  | VStr n, VStr a =>
      (n, match loads a with Some (VDict d) => d | _ => [] end)
  | _, _ => ([], [])
  end.

Definition safe_call (c : str * dict) : bool :=
  tag_name (fst c) && forallb safe_parameter (snd c).

(** The text of one record in the [claude] format, and in the [qwen]
    format. *)
Definition claude_block (c : str * dict) : str :=
  qlit "<invoke name='" ++ fst c ++ qlit "'>" ++ block_body claude_parameter (snd c)
  ++ lit "</invoke>".

Definition qwen_open : str := lit "<tool_call>" ++ NL :: lit "<function=".

Definition qwen_close : str := lit "</function>" ++ NL :: lit "</tool_call>".

Definition qwen_block (c : str * dict) : str :=
  qwen_open ++ fst c ++ lit ">" ++ block_body qwen_parameter (snd c) ++ qwen_close.

(** The fixed parts of the two formats. *)
Definition claude_parameter_literals : list str :=
  [qlit "<parameter name='"; qlit "'>"; lit "</parameter>"; [NL]].

Definition claude_literals : list str :=
  qlit "<invoke name='" :: lit "</invoke>" :: claude_parameter_literals.

Definition qwen_parameter_literals : list str :=
  [lit "<parameter="; lit ">"; lit "</parameter>"; [NL]].

Definition qwen_literals : list str :=
  qwen_open :: qwen_close :: qwen_parameter_literals.

(** The pattern matches nowhere in text without [<], nor in the given fixed
    parts. *)
Definition avoids (p : pattern) (literals : list str) : Prop :=
  (forall a, forallb (other_than LT) a = true -> never p a)
  /\ Forall (never p) literals.

Definition is_list (v : value) : bool :=
  match v with VList _ => true | _ => false end.


(** ** The schemas

    [TOOL_CALL_SCHEMA], lines 10-30: the array form. *)
Definition TOOL_CALL_SCHEMA : value :=
  VDict
    [(lit "$schema", VStr (lit "http://json-schema.org/draft-07/schema#"));
     (lit "type", VStr (lit "array"));
     (lit "items",
      VDict
        [(lit "type", VStr (lit "object"));
         (lit "properties",
          VDict
            [(lit "function",
              VDict
                [(lit "type", VStr (lit "object"));
                 (lit "properties",
                  VDict
                    [(lit "name", VDict [(lit "type", VStr (lit "string"))]);
                     (lit "arguments", VDict [(lit "type", VStr (lit "object"))])]);
                 (lit "required",
                  VList [VStr (lit "name"); VStr (lit "arguments")])])]);
         (lit "required", VList [VStr (lit "function")])])].

(** [TOOL_CALL_SCHEMA_QWEN], lines 33-41: the single-object form. *)
Definition TOOL_CALL_SCHEMA_QWEN : value :=
  VDict
    [(lit "$schema", VStr (lit "http://json-schema.org/draft-07/schema#"));
     (lit "type", VStr (lit "object"));
     (lit "properties",
      VDict
        [(lit "name", VDict [(lit "type", VStr (lit "string"))]);
         (lit "arguments", VDict [(lit "type", VStr (lit "object"))])]);
     (lit "required", VList [VStr (lit "name"); VStr (lit "arguments")])].

(** What the schemas say of a JSON value, by the draft-07 meaning of the
    keywords they use.  [type] with the three type names that occur; another
    type name is outside this embedding and counts as a failure. *)
Definition has_type (type_name instance : value) : bool :=
  match type_name with
  | VStr t =>
      if str_eqb t (lit "array") then is_list instance
      else if str_eqb t (lit "object") then is_dict instance
      else if str_eqb t (lit "string") then is_str instance
      else false
  | _ => false
  end.

(** [required] and [properties] bind objects only, [items] arrays only; a
    keyword that is no assertion, as [$schema], binds nothing. *)
Fixpoint conforms (schema instance : value) {struct schema} : bool :=
  match schema with
  | VDict keywords =>
      forallb
        (fun kw : str * value =>
           let (k, sv) := kw in
           if str_eqb k (lit "type") then has_type sv instance
           else if str_eqb k (lit "required") then
             match sv, instance with
             | VList names, VDict d =>
                 forallb (fun n => match n with
                                   | VStr key => dict_mem key d
                                   | _ => false
                                   end) names
             | _, _ => true
             end
           else if str_eqb k (lit "properties") then
             match sv, instance with
             | VDict props, VDict d =>
                 forallb (fun p : str * value =>
                            let (key, sub) := p in
                            match dict_get key d with
                            | Some x => conforms sub x
                            | None => true
                            end) props
             | _, _ => true
             end
           else if str_eqb k (lit "items") then
             match instance with
             | VList l => forallb (conforms sv) l
             | _ => true
             end
           else true)
        keywords
  | _ => true
  end.


(** A record whose name and arguments are strings of Unicode scalar
    values. *)
Definition canonical (t : ToolCall) : bool :=
  match name (function t), arguments (function t) with
  | VStr n, VStr a => forallb is_scalar n && forallb is_scalar a
  | _, _ => false
  end.

(** The mapping [dump] holds for a record. *)
Definition dumped (t : ToolCall) : value :=
  VDict [(lit "function",
          VDict [(lit "name", name (function t));
                 (lit "arguments", arguments (function t))])].

(** The record with its arguments serialized once more. *)
Definition reencoded (t : ToolCall) : ToolCall :=
  {| function :=
       {| name := name (function t);
          arguments := VStr (dumps (arguments (function t))) |} |}.

(** The text [json.dumps(..., indent=2)] writes for the [function] mapping
    of a record, at indent level 2, and for the record, at level 1. *)
Definition function_text (n a : str) : str :=
  lit "{" ++ newline_indent 3
  ++ encode_str (lit "name") ++ lit ": " ++ encode_str n
  ++ lit "," ++ newline_indent 3
  ++ encode_str (lit "arguments") ++ lit ": " ++ encode_str a
  ++ newline_indent 2 ++ lit "}".

Definition element_text (n a : str) : str :=
  lit "{" ++ newline_indent 2
  ++ encode_str (lit "function") ++ lit ": " ++ function_text n a
  ++ newline_indent 1 ++ lit "}".

(** The record [from_xml] reads back for a call. *)
Definition read_back (c : str * dict) : ToolCall :=
  tool_call (fst c) (dumps (VDict (snd c))).

(** ** Text and dictionaries *)

Lemma str_eqb_eq (a b : str) : str_eqb a b = true <-> a = b.
Proof.
  revert b; induction a as [|x a IH]; intros [|y b]; simpl; split; intro H;
    try reflexivity; try discriminate.
  - apply andb_true_iff in H as [H1 H2].
    apply N.eqb_eq in H1. apply IH in H2. now subst.
  - injection H as -> ->. rewrite N.eqb_refl. simpl. now apply IH.
Qed.

Lemma str_eqb_refl (a : str) : str_eqb a a = true.
Proof. now apply str_eqb_eq. Qed.

Lemma str_eqb_neq (a b : str) : str_eqb a b = false <-> a <> b.
Proof.
  split.
  - intros H E. apply str_eqb_eq in E. congruence.
  - intro H. destruct (str_eqb a b) eqn:E; [|reflexivity].
    apply str_eqb_eq in E. contradiction.
Qed.

Lemma dict_get_set_same k v d : dict_get k (dict_set k v d) = Some v.
Proof.
  induction d as [|[k' v'] d IH]; simpl.
  - now rewrite str_eqb_refl.
  - destruct (str_eqb k k') eqn:E; simpl; rewrite E; auto.
Qed.

Lemma dict_get_set_other k k' v d :
  k <> k' -> dict_get k (dict_set k' v d) = dict_get k d.
Proof.
  intro Hn. apply str_eqb_neq in Hn.
  induction d as [|[k2 v2] d IH]; simpl.
  - now rewrite Hn.
  - destruct (str_eqb k' k2) eqn:E; simpl.
    + apply str_eqb_eq in E. subst k2. now rewrite Hn.
    + now rewrite IH.
Qed.

Lemma dict_set_keys k v d :
  map fst (dict_set k v d) =
  if dict_mem k d then map fst d else map fst d ++ [k].
Proof.
  unfold dict_mem. induction d as [|[k' v'] d IH]; simpl; [reflexivity|].
  destruct (str_eqb k k') eqn:E; simpl; [reflexivity|].
  rewrite IH. now destruct (dict_get k d).
Qed.

Lemma dict_get_None_keys k d : dict_get k d = None <-> ~ In k (map fst d).
Proof.
  induction d as [|[k' v'] d IH]; simpl.
  - tauto.
  - destruct (str_eqb k k') eqn:E.
    + apply str_eqb_eq in E. subst. split; [discriminate|]. intro H. exfalso. auto.
    + apply str_eqb_neq in E. rewrite IH. split; intro H.
      * intros [H1|H1]; [congruence|contradiction].
      * intro H1. apply H. now right.
Qed.

Lemma dict_set_NoDup k v d : NoDup (map fst d) -> NoDup (map fst (dict_set k v d)).
Proof.
  intro H. rewrite dict_set_keys. unfold dict_mem.
  destruct (dict_get k d) eqn:E; [assumption|].
  apply dict_get_None_keys in E.
  apply NoDup_app; auto.
  - constructor; [intros []|constructor].
  - intros x Hx [<-|[]]. contradiction.
Qed.

Lemma dict_set_fresh k v d : dict_get k d = None -> dict_set k v d = d ++ [(k, v)].
Proof.
  induction d as [|[k' v'] d IH]; simpl; [reflexivity|].
  destruct (str_eqb k k'); [discriminate|]. intro H. now rewrite IH.
Qed.

Lemma strip_prefix_app w r : strip_prefix w (w ++ r) = Some r.
Proof. induction w; simpl; [reflexivity|]. now rewrite N.eqb_refl. Qed.

Lemma strip_prefix_Some w s r : strip_prefix w s = Some r -> s = w ++ r.
Proof.
  revert s; induction w as [|x w IH]; intros s; simpl.
  - now intros [= ->].
  - destruct s as [|y s]; [discriminate|].
    destruct (N.eqb x y) eqn:E; [|discriminate].
    apply N.eqb_eq in E. subst. intro H. now rewrite (IH _ H).
Qed.

Lemma span_digits_split s ds r :
  span_digits s = (ds, r) ->
  s = ds ++ r /\ forallb is_digit ds = true /\ starts is_digit r = false.
Proof.
  revert ds r; induction s as [|c s IH]; simpl; intros ds r H.
  - injection H as <- <-. auto.
  - destruct (is_digit c) eqn:E.
    + destruct (span_digits s) as [ds' r'] eqn:E'. injection H as <- <-.
      destruct (IH _ _ eq_refl) as (-> & H1 & H2). simpl. rewrite E, H1. auto.
    + injection H as <- <-. simpl. rewrite E. auto.
Qed.

Lemma span_digits_app ds r :
  forallb is_digit ds = true -> starts is_digit r = false ->
  span_digits (ds ++ r) = (ds, r).
Proof.
  intros H1 H2. induction ds as [|c ds IH]; simpl in *.
  - destruct r as [|c r]; simpl in *; [reflexivity|]. now rewrite H2.
  - apply andb_true_iff in H1 as [Hc Hd]. rewrite Hc, (IH Hd). reflexivity.
Qed.

Lemma scan_int_part_split s ip r :
  scan_int_part s = Some (ip, r) ->
  s = ip ++ r /\ int_part ip /\
  (starts is_digit r = false \/ ip = [48%N]).
Proof.
  destruct s as [|c s]; simpl; [discriminate|].
  destruct ((49 <=? c) && (c <=? 57))%N eqn:E.
  - destruct (span_digits s) as [ds r'] eqn:E'. intros [= <- <-].
    destruct (span_digits_split _ _ _ E') as (-> & H1 & H2). simpl. auto.
  - destruct (c =? 48)%N eqn:E0; [|discriminate]. intros [= <- <-].
    apply N.eqb_eq in E0. subst. simpl. auto.
Qed.

Lemma scan_int_part_app ip r :
  int_part ip -> starts is_digit r = false ->
  scan_int_part (ip ++ r) = Some (ip, r).
Proof.
  destruct ip as [|c ds]; simpl; [intros []|].
  intros [[H1 H2]|[-> ->]] Hr.
  - rewrite H1, (span_digits_app _ _ H2 Hr). reflexivity.
  - reflexivity.
Qed.

Lemma scan_frac_split s fr r :
  scan_frac s = (fr, r) ->
  s = fr ++ r /\ frac_part fr /\
  (fr = [] /\ starts_frac r = false \/ fr <> [] /\ starts is_digit r = false).
Proof.
  unfold scan_frac, frac_part.
  destruct s as [|d [|f s]]; try (intros [= <- <-]; simpl; auto; fail).
  destruct ((d =? DOT)%N && is_digit f) eqn:E.
  - destruct (span_digits s) as [ds r'] eqn:E'. intros [= <- <-].
    destruct (span_digits_split _ _ _ E') as (-> & H1 & H2).
    apply andb_true_iff in E as [Ed Ef]. apply N.eqb_eq in Ed. subst d.
    split; [reflexivity|]. split.
    + right. exists f, ds. auto.
    + right. split; [discriminate|assumption].
  - intros [= <- <-]. simpl. rewrite E. auto.
Qed.

Lemma scan_frac_app fr r :
  frac_part fr ->
  (fr = [] /\ starts_frac r = false \/ fr <> [] /\ starts is_digit r = false) ->
  scan_frac (fr ++ r) = (fr, r).
Proof.
  intros [->|(f & ds & -> & Hf & Hd)] [[E H]|[E H]]; try congruence.
  - simpl. unfold scan_frac. destruct r as [|d [|f r]]; try reflexivity.
    simpl in H. now rewrite H.
  - cbn [app scan_frac]. change (DOT =? DOT)%N with true. rewrite Hf. cbn [andb].
    now rewrite (span_digits_app _ _ Hd H).
Qed.

Lemma digit_not_sign c : is_digit c = true -> is_sign c = false.
Proof.
  unfold is_digit, is_sign, MINUS, PLUS. intro H.
  apply andb_true_iff in H as [H1 H2]. apply N.leb_le in H1, H2.
  apply orb_false_iff. split; apply N.eqb_neq; lia.
Qed.

Lemma scan_exp_split s ex r :
  scan_exp s = (ex, r) ->
  s = ex ++ r /\ exp_part ex /\
  (ex = [] /\ starts_exp r = false \/ ex <> [] /\ starts is_digit r = false).
Proof.
  unfold scan_exp, exp_part. fold (is_e).
  destruct s as [|e s]; [intros [= <- <-]; simpl; auto|].
  change ((e =? 101) || (e =? 69))%N with (is_e e).
  destruct (is_e e) eqn:Ee; [|intros [= <- <-]; simpl; rewrite Ee;
                               split; [reflexivity|split; [auto|left; split; [reflexivity|]]];
                               now destruct s as [|? [|? ?]]].
  destruct s as [|g s'].
  - simpl. intros [= <- <-]. simpl. auto.
  - change ((g =? MINUS) || (g =? PLUS))%N with (is_sign g).
    destruct (is_sign g) eqn:Eg.
    + destruct (span_digits s') as [ds r'] eqn:E'.
      destruct (span_digits_split _ _ _ E') as (-> & H1 & H2).
      destruct ds as [|d ds].
      * intros [= <- <-]. simpl. split; [reflexivity|]. split; [auto|].
        left. split; [reflexivity|]. rewrite Ee, Eg. simpl.
        assert (is_digit g = false) as ->.
        { destruct (is_digit g) eqn:X; [|reflexivity].
          apply digit_not_sign in X. congruence. }
        simpl in *. destruct r' as [|d r']; simpl in *; [reflexivity|]. now rewrite H2.
      * intros [= <- <-]. simpl in H1. apply andb_true_iff in H1 as [Hd Hds].
        split; [reflexivity|]. split.
        -- right. exists e, [g], d, ds. repeat split; auto. right. now exists g.
        -- right. split; [discriminate|assumption].
    + destruct (span_digits (g :: s')) as [ds r'] eqn:E'.
      destruct (span_digits_split _ _ _ E') as (E0 & H1 & H2).
      destruct ds as [|d ds].
      * intros [= <- <-]. simpl in E0. subst r'. split; [reflexivity|].
        split; [auto|]. left. split; [reflexivity|].
        simpl in H2. simpl. rewrite Ee, H2, Eg. simpl. now destruct s'.
      * intros [= <- <-]. simpl in E0. injection E0 as <- ->.
        simpl in H1. apply andb_true_iff in H1 as [Hd Hds].
        split; [reflexivity|]. split.
        -- right. exists e, [], g, ds. repeat split; auto.
        -- right. split; [discriminate|assumption].
Qed.

Lemma scan_exp_app ex r :
  exp_part ex ->
  (ex = [] /\ starts_exp r = false \/ ex <> [] /\ starts is_digit r = false) ->
  scan_exp (ex ++ r) = (ex, r).
Proof.
  intros [->|(e & sg & d & ds & -> & He & Hsg & Hd & Hds)] [[E H]|[E H]];
    try congruence.
  - simpl. unfold scan_exp. destruct r as [|e r]; [reflexivity|].
    change ((e =? 101) || (e =? 69))%N with (is_e e).
    destruct (is_e e) eqn:Ee; [|reflexivity].
    destruct r as [|g r]; [reflexivity|].
    change ((g =? MINUS) || (g =? PLUS))%N with (is_sign g).
    simpl in H. rewrite Ee in H. simpl in H.
    destruct (is_sign g) eqn:Eg.
    + destruct r as [|d r]; [reflexivity|].
      apply orb_false_iff in H as [H1 H2]. simpl in H2.
      simpl. now rewrite H2.
    + destruct r as [|d r]; simpl in H.
      * simpl. rewrite H. reflexivity.
      * rewrite orb_false_r in H. simpl. rewrite H. reflexivity.
  - unfold scan_exp. simpl.
    change ((e =? 101) || (e =? 69))%N with (is_e e). rewrite He.
    destruct Hsg as [->|(g & -> & Hg)]; simpl.
    + change ((d =? MINUS) || (d =? PLUS))%N with (is_sign d).
      rewrite (digit_not_sign _ Hd).
      replace (d :: ds ++ r) with ((d :: ds) ++ r) by reflexivity.
      rewrite span_digits_app; [reflexivity| |assumption].
      simpl. now rewrite Hd.
    + change ((g =? MINUS) || (g =? PLUS))%N with (is_sign g). rewrite Hg.
      replace (d :: ds ++ r) with ((d :: ds) ++ r) by reflexivity.
      rewrite span_digits_app; [reflexivity| |assumption].
      simpl. now rewrite Hd.
Qed.

Lemma delim_stops r :
  delim r = true ->
  starts is_digit r = false /\ starts_frac r = false /\ starts_exp r = false
  /\ starts is_ws r = false.
Proof.
  destruct r as [|c r]; simpl; [auto|].
  unfold COMMA, RBRACK, RBRACE. intro H.
  assert (c = 44 \/ c = 93 \/ c = 125)%N as Hc.
  { apply orb_true_iff in H as [H|H]; [apply orb_true_iff in H as [H|H]|];
      apply N.eqb_eq in H; auto. }
  destruct Hc as [-> | [-> | ->]]; repeat split; try reflexivity;
    destruct r as [|? [|? ?]]; reflexivity.
Qed.

Lemma int_part_head ip :
  int_part ip -> exists c ds, ip = c :: ds /\ is_digit c = true.
Proof.
  destruct ip as [|c ds]; simpl; [intros []|].
  intros [[H _]|[E _]]; exists c, ds; split; auto.
  - apply andb_true_iff in H as [H1 H2]. apply N.leb_le in H1, H2.
    unfold is_digit. apply andb_true_iff. split; apply N.leb_le; lia.
  - now subst c.
Qed.

Lemma frac_exp_head fr ex r :
  frac_part fr -> exp_part ex -> delim r = true ->
  starts is_digit (fr ++ ex ++ r) = false
  /\ (fr = [] -> starts_frac (ex ++ r) = false)
  /\ starts is_digit (ex ++ r) = false.
Proof.
  intros Hf He Hr. destruct (delim_stops _ Hr) as (R1 & R2 & R3 & _).
  assert (starts is_digit (ex ++ r) = false /\ starts_frac (ex ++ r) = false) as [X Y].
  { destruct He as [->|(e & sg & d & ds & -> & He & _)]; [auto|]. simpl.
    unfold is_e in He. unfold is_digit, DOT.
    apply orb_true_iff in He as [He|He]; apply N.eqb_eq in He; subst e;
      split; try reflexivity; now destruct ((sg ++ d :: ds) ++ r). }
  destruct Hf as [->|(f & ds & -> & _)]; simpl; auto.
Qed.

Lemma scan_number_parts sg ip fr ex r :
  sign_part sg -> int_part ip -> frac_part fr -> exp_part ex ->
  delim r = true ->
  scan_number (sg ++ ip ++ fr ++ ex ++ r) = Some (number_value sg ip fr ex, r).
Proof.
  intros Hs Hi Hf He Hr.
  destruct (frac_exp_head _ _ _ Hf He Hr) as (A & B & C).
  destruct (delim_stops _ Hr) as (R1 & R2 & R3 & _).
  destruct (int_part_head _ Hi) as (c & ds & Eip & Hc).
  assert ((c =? MINUS)%N = false) as Hm.
  { pose proof (digit_not_sign _ Hc) as X. unfold is_sign in X.
    now apply orb_false_iff in X as [X _]. }
  assert (scan_int_part (ip ++ fr ++ ex ++ r) = Some (ip, fr ++ ex ++ r)) as E1
    by now apply scan_int_part_app.
  assert (scan_frac (fr ++ ex ++ r) = (fr, ex ++ r)) as E2.
  { apply scan_frac_app; [assumption|]. destruct fr; [left|right]; auto.
    split; [discriminate|assumption]. }
  assert (scan_exp (ex ++ r) = (ex, r)) as E3.
  { apply scan_exp_app; [assumption|]. destruct ex; [left|right]; auto.
    split; [discriminate|assumption]. }
  unfold scan_number.
  destruct Hs as [-> | ->].
  - subst ip. cbn [app] in *. rewrite Hm, E1, E2, E3.
    unfold number_value. destruct fr, ex; reflexivity.
  - cbn [app]. change (MINUS =? MINUS)%N with true. cbn iota.
    rewrite E1, E2, E3. unfold number_value. destruct fr, ex; reflexivity.
Qed.

Lemma scan_number_inv s v r :
  scan_number s = Some (v, r) ->
  exists sg ip fr ex,
    s = sg ++ ip ++ fr ++ ex ++ r /\ v = number_value sg ip fr ex /\
    sign_part sg /\ int_part ip /\ frac_part fr /\ exp_part ex.
Proof.
  unfold scan_number.
  set (p := match s with
            | c :: r0 => if (c =? MINUS)%N then ([c], r0) else ([], s)
            | [] => ([], s)
            end).
  assert (s = fst p ++ snd p /\ sign_part (fst p)) as [Es Hs].
  { subst p. destruct s as [|c r0]; [split; [reflexivity|now left]|].
    destruct (c =? MINUS)%N eqn:E; simpl.
    - apply N.eqb_eq in E. subst. split; [reflexivity|now right].
    - split; [reflexivity|now left]. }
  destruct p as [sg s1]. simpl in Es, Hs.
  destruct (scan_int_part s1) as [[ip r1]|] eqn:E1; [|discriminate].
  destruct (scan_frac r1) as [fr r2] eqn:E2.
  destruct (scan_exp r2) as [ex r3] eqn:E3.
  destruct (scan_int_part_split _ _ _ E1) as (-> & Hi & _).
  destruct (scan_frac_split _ _ _ E2) as (-> & Hf & _).
  destruct (scan_exp_split _ _ _ E3) as (-> & He & _).
  intro H. exists sg, ip, fr, ex.
  assert (v = number_value sg ip fr ex /\ r = r3) as [-> ->].
  { unfold number_value. destruct fr, ex; injection H as <- <-; auto. }
  subst s. repeat split; auto.
Qed.

(** ** The atoms *)

Lemma strip_prefix_head w c s :
  match w with x :: _ => x <> c | [] => False end ->
  strip_prefix w (c :: s) = None.
Proof.
  destruct w as [|x w]; [intros []|]. intro H. simpl.
  apply N.eqb_neq in H. now rewrite H.
Qed.

Lemma strip_prefix_second w c1 c2 s :
  match w with _ :: x :: _ => x <> c2 | _ => False end ->
  strip_prefix w (c1 :: c2 :: s) = None.
Proof.
  destruct w as [|x1 [|x2 w]]; [intros []|intros []|].
  intro H. simpl. apply N.eqb_neq in H. rewrite H. now destruct (x1 =? c1)%N.
Qed.

Lemma scan_atom_number c s :
  is_digit c = true ->
  scan_atom (c :: s) = scan_number (c :: s)
  /\ scan_atom (MINUS :: c :: s) = scan_number (MINUS :: c :: s).
Proof.
  intro H. unfold is_digit in H. apply andb_true_iff in H as [H1 H2].
  apply N.leb_le in H1, H2.
  unfold scan_atom, try_const.
  split.
  - repeat (rewrite strip_prefix_head; [|cbv; lia]). reflexivity.
  - repeat (rewrite strip_prefix_head; [|cbv; lia || discriminate]).
    rewrite strip_prefix_second; [reflexivity|]. cbv. lia.
Qed.

(** ** Float tokens *)

Lemma number_value_float sg ip fr ex t :
  number_value sg ip fr ex = VFloat t -> t = sg ++ ip ++ fr ++ ex.
Proof. unfold number_value. destruct fr, ex; congruence. Qed.

Lemma number_head sg ip rest :
  sign_part sg -> int_part ip ->
  scan_atom (sg ++ ip ++ rest) = scan_number (sg ++ ip ++ rest).
Proof.
  intros Hs Hi. destruct (int_part_head _ Hi) as (c & ds & -> & Hc).
  destruct Hs as [-> | ->]; cbn [app]; now apply scan_atom_number.
Qed.

(** The constant or number [scan_atom] read, without what follows it. *)
Lemma scan_atom_float_inv s t r :
  scan_atom s = Some (VFloat t, r) ->
  s = t ++ r /\
  (t = lit "NaN" \/ t = lit "Infinity" \/ t = lit "-Infinity" \/
   exists sg ip fr ex,
     t = sg ++ ip ++ fr ++ ex /\ number_value sg ip fr ex = VFloat t /\
     sign_part sg /\ int_part ip /\ frac_part fr /\ exp_part ex).
Proof.
  unfold scan_atom, try_const.
  destruct (strip_prefix (lit "null") s) eqn:E1; [discriminate|].
  destruct (strip_prefix (lit "true") s) eqn:E2; [discriminate|].
  destruct (strip_prefix (lit "false") s) eqn:E3; [discriminate|].
  destruct (strip_prefix (lit "NaN") s) eqn:E4.
  { intros [= <- <-]. apply strip_prefix_Some in E4. auto. }
  destruct (strip_prefix (lit "Infinity") s) eqn:E5.
  { intros [= <- <-]. apply strip_prefix_Some in E5. auto. }
  destruct (strip_prefix (lit "-Infinity") s) eqn:E6.
  { intros [= <- <-]. apply strip_prefix_Some in E6. auto 6. }
  intro H. apply scan_number_inv in H as (sg & ip & fr & ex & -> & Hv & Hs & Hi & Hf & He).
  symmetry in Hv. pose proof (number_value_float _ _ _ _ _ Hv) as ->.
  split; [now rewrite <- !app_assoc|]. do 3 right. exists sg, ip, fr, ex. auto 7.
Qed.

Lemma scan_atom_float_parts t r :
  (t = lit "NaN" \/ t = lit "Infinity" \/ t = lit "-Infinity" \/
   exists sg ip fr ex,
     t = sg ++ ip ++ fr ++ ex /\ number_value sg ip fr ex = VFloat t /\
     sign_part sg /\ int_part ip /\ frac_part fr /\ exp_part ex) ->
  delim r = true ->
  scan_atom (t ++ r) = Some (VFloat t, r).
Proof.
  intros [->|[->|[->|(sg & ip & fr & ex & E & Hv & Hs & Hi & Hf & He)]]] Hr;
    try reflexivity.
  rewrite <- Hv. rewrite E, <- !app_assoc.
  rewrite number_head by assumption. now apply scan_number_parts.
Qed.

Lemma float_token_of_scan s t r :
  scan_atom s = Some (VFloat t, r) -> float_token t = true.
Proof.
  intro H. apply scan_atom_float_inv in H as [_ H].
  unfold float_token.
  rewrite <- (app_nil_r t) at 1.
  rewrite scan_atom_float_parts by (assumption || reflexivity).
  apply str_eqb_refl.
Qed.

Lemma scan_atom_float t r :
  float_token t = true -> delim r = true ->
  scan_atom (t ++ r) = Some (VFloat t, r).
Proof.
  unfold float_token. intros H Hr.
  destruct (scan_atom t) as [[[] [|]]|] eqn:E; try discriminate.
  apply str_eqb_eq in H. subst token.
  apply scan_atom_float_inv in E as [_ E].
  now apply scan_atom_float_parts.
Qed.

(** ** Integers *)

Lemma uint_of_digits_of_uint u : uint_of_digits (digits_of_uint u) = u.
Proof. induction u; simpl; try reflexivity; unfold digit_of_char; simpl; now f_equal. Qed.

Lemma digits_of_uint_digits u : forallb is_digit (digits_of_uint u) = true.
Proof. induction u; simpl; auto. Qed.

Lemma nzhead_not_D0 u u' : Decimal.nzhead u <> Decimal.D0 u'.
Proof. induction u; simpl; try discriminate; assumption. Qed.

Lemma int_part_to_uint n : int_part (digits_of_uint (N.to_uint n)).
Proof.
  pose proof (DecimalN.Unsigned.to_of (N.to_uint n)) as H.
  rewrite DecimalN.Unsigned.of_to in H.
  destruct (N.to_uint n) as [|u|u|u|u|u|u|u|u|u|u] eqn:E; simpl;
    try (left; split; [reflexivity|apply digits_of_uint_digits]).
  - destruct n as [|p]; [discriminate E|].
    exact (DecimalPos.Unsigned.to_uint_nonnil p E).
  - right. split; [reflexivity|].
    unfold Decimal.unorm in H. simpl in H.
    destruct (Decimal.nzhead u) eqn:E'; try (symmetry in H; rewrite <- E' in H;
      now apply nzhead_not_D0 in H).
    injection H as H. now subst u.
Qed.

Lemma scan_atom_int z r :
  delim r = true -> scan_atom (int_repr z ++ r) = Some (VInt z, r).
Proof.
  intro Hr.
  assert (forall sg, sign_part sg ->
            scan_atom (sg ++ digits_of_uint (N.to_uint (Z.abs_N z)) ++ r)
            = Some (number_value sg (digits_of_uint (N.to_uint (Z.abs_N z))) [] [], r)) as H.
  { intros sg Hs. rewrite number_head by (assumption || apply int_part_to_uint).
    apply (scan_number_parts sg _ [] [] r); auto using int_part_to_uint;
      now left. }
  assert (nat_of_digits (digits_of_uint (N.to_uint (Z.abs_N z))) = Z.abs_N z) as Hn.
  { unfold nat_of_digits. rewrite uint_of_digits_of_uint.
    apply DecimalN.Unsigned.of_to. }
  pose proof (H [] (or_introl eq_refl)) as H0.
  pose proof (H [MINUS] (or_intror eq_refl)) as H1.
  unfold number_value in H0, H1. rewrite Hn in H0, H1. cbn [app] in H0, H1.
  unfold int_repr. destruct z as [|p|p]; [exact H0|exact H0|exact H1].
Qed.

(** ** Strings *)

Lemma hexval_hexdigit n : (n < 16)%N -> hexval (hexdigit n) = Some n.
Proof.
  intro H. destruct n as [|p]; [reflexivity|].
  do 4 (try destruct p as [p|p|]); try reflexivity; exfalso; lia.
Qed.

Lemma hex4_of_value c :
  match hex4_of c with
  | [h1; h2; h3; h4] => hex4 h1 h2 h3 h4 = Some (c mod 65536)%N
  | _ => False
  end.
Proof.
  unfold hex4_of, hex4.
  rewrite !hexval_hexdigit by (apply N.mod_lt; discriminate).
  f_equal.
  assert (c / 256 = c / 16 / 16)%N as -> by (rewrite N.Div0.div_div; reflexivity).
  assert (c / 4096 = c / 16 / 16 / 16)%N as ->
    by (rewrite !N.Div0.div_div; reflexivity).
  pose proof (N.div_mod c 16 ltac:(discriminate)).
  pose proof (N.div_mod (c / 16) 16 ltac:(discriminate)).
  pose proof (N.div_mod (c / 16 / 16) 16 ltac:(discriminate)).
  pose proof (N.div_mod (c / 16 / 16 / 16) 16 ltac:(discriminate)).
  pose proof (N.mod_lt c 16 ltac:(discriminate)).
  pose proof (N.mod_lt (c / 16) 16 ltac:(discriminate)).
  pose proof (N.mod_lt (c / 16 / 16) 16 ltac:(discriminate)).
  pose proof (N.mod_lt (c / 16 / 16 / 16) 16 ltac:(discriminate)).
  apply (N.mod_unique c 65536 (c / 16 / 16 / 16 / 16)); lia.
Qed.

Lemma scanstring_raw c s1 :
  (c =? DQUOTE)%N = false -> (c =? BSLASH)%N = false -> (c <? 32)%N = false ->
  scanstring (c :: s1) = cons_fst c (scanstring s1).
Proof. intros H1 H2 H3. cbn [scanstring]. now rewrite H1, H2, H3. Qed.

Lemma scanstring_short e x s2 :
  (e =? 117)%N = false -> unescape e = Some x ->
  scanstring (BSLASH :: e :: s2) = cons_fst x (scanstring s2).
Proof.
  intros H1 H2. cbn [scanstring]. change (BSLASH =? DQUOTE)%N with false.
  change (BSLASH =? BSLASH)%N with true. cbn iota. now rewrite H1, H2.
Qed.

Lemma scanstring_hex x s3 :
  scanstring (uescape x ++ s3) =
  if is_high_surrogate (x mod 65536) then surrogate_tail (x mod 65536) s3
  else cons_fst (x mod 65536)%N (scanstring s3).
Proof.
  pose proof (hex4_of_value x) as H. unfold uescape.
  destruct (hex4_of x) as [|h1 [|h2 [|h3 [|h4 [|]]]]]; try contradiction.
  cbn [app scanstring]. change (BSLASH =? DQUOTE)%N with false.
  change (BSLASH =? BSLASH)%N with true. change (117 =? 117)%N with true.
  cbn iota. rewrite H. reflexivity.
Qed.

Lemma surrogate_tail_plain u s3 :
  match s3 with
  | b :: u' :: _ => (b =? BSLASH)%N && (u' =? 117)%N = false
  | _ => True
  end ->
  surrogate_tail u s3 = cons_fst u (scanstring s3).
Proof.
  unfold surrogate_tail.
  destruct s3 as [|b [|u' [|g1 [|g2 [|g3 [|g4 s4]]]]]]; try reflexivity.
  now intros ->.
Qed.

Lemma surrogate_tail_hex u y s4 :
  surrogate_tail u (uescape y ++ s4) =
  if is_low_surrogate (y mod 65536)
  then cons_fst (join_surrogates u (y mod 65536)) (scanstring s4)
  else cons_fst u (scanstring (uescape y ++ s4)).
Proof.
  pose proof (hex4_of_value y) as H. unfold uescape in *.
  destruct (hex4_of y) as [|h1 [|h2 [|h3 [|h4 [|]]]]]; try contradiction.
  unfold surrogate_tail. cbn [app].
  change (BSLASH =? BSLASH)%N with true. change (117 =? 117)%N with true.
  cbn [andb]. rewrite H. reflexivity.
Qed.

Lemma pieces_of_text c :
  flat_map piece_text (pieces_of c) = escape_char c /\ Forall piece_ok (pieces_of c).
Proof.
  unfold pieces_of, escape_char.
  repeat match goal with
         | |- context [if (?a =? ?b)%N then _ else _] =>
             destruct (a =? b)%N eqn:?;
             [split; [reflexivity|repeat constructor]|]
         end.
  destruct ((32 <=? c) && (c <=? 126))%N eqn:Ep.
  - split; [reflexivity|]. repeat constructor; try assumption.
    apply andb_true_iff in Ep as [Ep _]. apply N.leb_le in Ep.
    apply N.ltb_ge. exact Ep.
  - destruct (c <? 65536)%N eqn:El.
    + split; [simpl; rewrite ?app_nil_r; reflexivity|]. repeat constructor.
    + split; [simpl; rewrite ?app_nil_r; reflexivity|]. repeat constructor.
Qed.

Lemma pieces_text s :
  flat_map piece_text (flat_map pieces_of s) = flat_map escape_char s
  /\ Forall piece_ok (flat_map pieces_of s).
Proof.
  induction s as [|c s [IH1 IH2]]; simpl; [auto|].
  destruct (pieces_of_text c) as [H1 H2].
  rewrite flat_map_app, H1, IH1. split; [reflexivity|].
  apply Forall_app. auto.
Qed.

(** Whatever [encode_str] wrote, [scanstring] reads to the closing quote. *)
Lemma scanstring_pieces n : forall ps rest,
  length ps <= n -> Forall piece_ok ps ->
  exists t, scanstring (flat_map piece_text ps ++ DQUOTE :: rest) = Some (t, rest).
Proof.
  induction n as [|n IH]; intros ps rest Hn Hok.
  - destruct ps; [|simpl in Hn; lia]. simpl. now exists [].
  - destruct ps as [|p ps]; [simpl; now exists []|].
    simpl in Hn. apply Forall_cons_iff in Hok as [Hp Hok].
    assert (forall c qs, length qs <= n -> Forall piece_ok qs -> exists t,
              cons_fst c (scanstring (flat_map piece_text qs ++ DQUOTE :: rest))
              = Some (t, rest)) as Step.
    { intros c qs Hl Hq. destruct (IH qs rest Hl Hq) as [t Ht].
      rewrite Ht. now exists (c :: t). }
    destruct p as [c|e x|x]; cbn [flat_map piece_text]; rewrite <- app_assoc.
    + destruct Hp as (H1 & H2 & H3). cbn [app].
      rewrite scanstring_raw by assumption. apply Step; [lia|assumption].
    + destruct Hp as (H1 & H2). cbn [app].
      rewrite scanstring_short with (x := x) by assumption.
      apply Step; [lia|assumption].
    + rewrite scanstring_hex.
      destruct (is_high_surrogate (x mod 65536));
        [|apply Step; [lia|assumption]].
      destruct ps as [|q ps].
      * rewrite surrogate_tail_plain by (simpl; now destruct rest).
        apply Step; [lia|assumption].
      * pose proof Hok as Hok'. apply Forall_cons_iff in Hok' as [Hq Hps].
        destruct q as [c|e y|y].
        -- rewrite surrogate_tail_plain.
           ++ apply Step; [lia|assumption].
           ++ destruct Hq as (_ & H2 & _). cbn [flat_map piece_text app].
              destruct (flat_map piece_text ps ++ DQUOTE :: rest); [exact I|].
              now rewrite H2.
        -- rewrite surrogate_tail_plain.
           ++ apply Step; [lia|assumption].
           ++ destruct Hq as (H1 & _). cbn [flat_map piece_text app].
              rewrite H1. apply andb_false_r.
        -- cbn [flat_map piece_text]. rewrite <- app_assoc. rewrite surrogate_tail_hex.
           destruct (is_low_surrogate (y mod 65536)).
           ++ apply Step; [simpl in Hn; lia|assumption].
           ++ rewrite app_assoc.
              change (uescape y ++ flat_map piece_text ps)
                with (flat_map piece_text (Hex y :: ps)).
              apply Step; [lia|assumption].
Qed.

Lemma scanstring_encoded s rest :
  exists t, scanstring (flat_map escape_char s ++ DQUOTE :: rest) = Some (t, rest).
Proof.
  destruct (pieces_text s) as [E H]. rewrite <- E.
  now apply (scanstring_pieces (length (flat_map pieces_of s))).
Qed.

(** Text of Unicode scalar values is read back as it was. *)
Lemma scanstring_scalar s rest :
  forallb is_scalar s = true ->
  scanstring (flat_map escape_char s ++ DQUOTE :: rest) = Some (s, rest).
Proof.
  induction s as [|c s IH]; intro H; [reflexivity|].
  simpl in H. apply andb_true_iff in H as [Hc Hs]. specialize (IH Hs).
  cbn [flat_map]. rewrite <- app_assoc.
  destruct (pieces_of_text c) as [E Hok]. rewrite <- E.
  unfold pieces_of in *.
  repeat match type of Hok with
         | context [if (?a =? ?b)%N then _ else _] =>
             destruct (a =? b)%N eqn:?;
             [match goal with
              | X : (c =? _)%N = true |- _ => apply N.eqb_eq in X; subst c
              end;
              cbn [flat_map piece_text app];
              rewrite scanstring_short with (x := _) by reflexivity;
              rewrite IH; reflexivity|]
         end.
  destruct ((32 <=? c) && (c <=? 126))%N eqn:Ep.
  - apply Forall_cons_iff in Hok as [(H1 & H2 & H3) _].
    cbn [flat_map piece_text app]. rewrite scanstring_raw by assumption.
    now rewrite IH.
  - unfold is_scalar in Hc.
    destruct (c <? 65536)%N eqn:El.
    + apply N.ltb_lt in El.
      cbn [flat_map piece_text]. rewrite app_nil_r, scanstring_hex.
      rewrite N.mod_small by assumption.
      assert (is_high_surrogate c = false) as ->.
      { unfold is_high_surrogate.
        apply orb_true_iff in Hc as [Hc|Hc].
        - apply N.ltb_lt in Hc. apply andb_false_iff. left. apply N.leb_gt. lia.
        - apply andb_true_iff in Hc as [Hc _]. apply N.ltb_lt in Hc.
          apply andb_false_iff. right. apply N.leb_gt. lia. }
      now rewrite IH.
    + apply N.ltb_ge in El.
      assert (c < 1114112)%N as Hu.
      { apply orb_true_iff in Hc as [Hc|Hc].
        - apply N.ltb_lt in Hc. lia.
        - apply andb_true_iff in Hc as [_ Hc]. now apply N.ltb_lt in Hc. }
      pose proof (N.div_mod c 1024 ltac:(discriminate)) as Hd.
      pose proof (N.mod_lt c 1024 ltac:(discriminate)) as Hm.
      assert (64 <= c / 1024 < 1088)%N as Hq.
      { split.
        - apply N.div_le_lower_bound; [discriminate|lia].
        - apply N.Div0.div_lt_upper_bound. lia. }
      clear E Hok. set (q := (c / 1024)%N) in *. set (m := (c mod 1024)%N) in *.
      clearbody q m.
      cbn [flat_map piece_text]. rewrite app_nil_r, <- app_assoc, scanstring_hex.
      rewrite N.mod_small by lia.
      assert (is_high_surrogate (55232 + q) = true) as ->.
      { unfold is_high_surrogate. apply andb_true_iff. split; apply N.leb_le; lia. }
      rewrite surrogate_tail_hex. rewrite N.mod_small by lia.
      assert (is_low_surrogate (56320 + m) = true) as ->.
      { unfold is_low_surrogate. apply andb_true_iff. split; apply N.leb_le; lia. }
      rewrite IH. unfold cons_fst, join_surrogates. do 3 f_equal. lia.
Qed.

(** ** The recursive scanner: unfolding, length, fuel *)

Lemma parse_value_S n s :
  parse_value (S n) s =
  match s with
  | [] => Bad
  | c :: s' =>
      if (c =? DQUOTE)%N then
        match scanstring s' with
        | Some (t, r) => Ok (VStr t) r
        | None => Bad
        end
      else if (c =? LBRACE)%N then
        match skip_ws s' with
        | c2 :: r =>
            if (c2 =? RBRACE)%N then Ok (VDict []) r
            else parse_members n [] (c2 :: r)
        | [] => Bad
        end
      else if (c =? LBRACK)%N then
        match skip_ws s' with
        | c2 :: r =>
            if (c2 =? RBRACK)%N then Ok (VList []) r
            else parse_elems n [] (c2 :: r)
        | [] => Bad
        end
      else of_option (scan_atom s)
  end.
Proof. reflexivity. Qed.

Lemma parse_elems_S n acc s :
  parse_elems (S n) acc s =
  match parse_value n s with
  | Ok v r =>
      match skip_ws r with
      | c :: r' =>
          if (c =? RBRACK)%N then Ok (VList (acc ++ [v])) r'
          else if (c =? COMMA)%N then parse_elems n (acc ++ [v]) (skip_ws r')
          else Bad
      | [] => Bad
      end
  | Bad => Bad
  | NoFuel => NoFuel
  end.
Proof. reflexivity. Qed.

Lemma parse_members_S n acc s :
  parse_members (S n) acc s =
  match s with
  | c :: s' =>
      if (c =? DQUOTE)%N then
        match scanstring s' with
        | Some (k, r) =>
            match skip_ws r with
            | c2 :: r2 =>
                if (c2 =? COLON)%N then
                  match parse_value n (skip_ws r2) with
                  | Ok v r3 =>
                      match skip_ws r3 with
                      | c3 :: r4 =>
                          if (c3 =? RBRACE)%N then Ok (VDict (dict_set k v acc)) r4
                          else if (c3 =? COMMA)%N
                          then parse_members n (dict_set k v acc) (skip_ws r4)
                          else Bad
                      | [] => Bad
                      end
                  | Bad => Bad
                  | NoFuel => NoFuel
                  end
                else Bad
            | [] => Bad
            end
        | None => Bad
        end
      else Bad
  | [] => Bad
  end.
Proof. reflexivity. Qed.

Lemma skip_ws_le s : length (skip_ws s) <= length s.
Proof.
  induction s as [|c s IH]; simpl; [lia|]. destruct (is_ws c); simpl; lia.
Qed.

Lemma cons_fst_Some c o t r :
  cons_fst c o = Some (t, r) -> exists t', o = Some (t', r) /\ t = c :: t'.
Proof.
  destruct o as [[t' r']|]; simpl; [|discriminate].
  intros [= <- <-]. now exists t'.
Qed.

Lemma scanstring_lt n : forall s t r,
  length s <= n -> scanstring s = Some (t, r) -> length r < length s.
Proof.
  induction n as [|n IH]; intros s t r Hn H.
  - destruct s; [discriminate|simpl in Hn; lia].
  - destruct s as [|c s1]; [discriminate|].
    simpl in Hn. cbn [scanstring] in H.
    repeat match type of H with
           | context [match ?x with _ => _ end] => destruct x eqn:?
           end;
      try discriminate;
      try (injection H as <- <-; simpl; lia);
      apply cons_fst_Some in H as (t' & H & _);
      apply IH in H; subst; simpl in *; lia.
Qed.

Lemma strip_prefix_length w s r :
  strip_prefix w s = Some r -> length s = length w + length r.
Proof. intro H. apply strip_prefix_Some in H. subst. apply length_app. Qed.

Lemma scan_atom_lt s v r : scan_atom s = Some (v, r) -> length r < length s.
Proof.
  unfold scan_atom, try_const.
  repeat match goal with
         | |- context [strip_prefix ?w s] =>
             let E := fresh "E" in
             destruct (strip_prefix w s) eqn:E;
             [apply strip_prefix_length in E; intros [= <- <-];
              simpl in E; lia|]
         end.
  intro H. apply scan_number_inv in H
    as (sg & ip & fr & ex & -> & _ & _ & Hi & _).
  destruct (int_part_head _ Hi) as (c & ds & -> & _).
  rewrite !length_app. simpl. lia.
Qed.

(** A value read takes at least one character. *)
Lemma parse_lt fuel :
  (forall s v r, parse_value fuel s = Ok v r -> length r < length s)
  /\ (forall acc s v r, parse_elems fuel acc s = Ok v r -> length r < length s)
  /\ (forall acc s v r, parse_members fuel acc s = Ok v r -> length r < length s).
Proof.
  induction fuel as [|n (IHv & IHe & IHm)]; [repeat split; discriminate|].
  repeat split.
  - intros s v r. rewrite parse_value_S.
    destruct s as [|c s']; [discriminate|].
    destruct (c =? DQUOTE)%N.
    { destruct (scanstring s') as [[t r0]|] eqn:E; [|discriminate].
      intros [= <- <-]. apply (scanstring_lt (length s')) in E; simpl; lia. }
    pose proof (skip_ws_le s') as Hw.
    destruct (c =? LBRACE)%N.
    { destruct (skip_ws s') as [|c2 r0] eqn:E; [discriminate|].
      destruct (c2 =? RBRACE)%N.
      - intros [= <- <-]. simpl in *. lia.
      - intro H. apply IHm in H. simpl in *. lia. }
    destruct (c =? LBRACK)%N.
    { destruct (skip_ws s') as [|c2 r0] eqn:E; [discriminate|].
      destruct (c2 =? RBRACK)%N.
      - intros [= <- <-]. simpl in *. lia.
      - intro H. apply IHe in H. simpl in *. lia. }
    destruct (scan_atom (c :: s')) as [[v0 r0]|] eqn:E; [|discriminate].
    intros [= <- <-]. now apply scan_atom_lt in E.
  - intros acc s v r. rewrite parse_elems_S.
    destruct (parse_value n s) as [v0 r0| |] eqn:E; try discriminate.
    apply IHv in E. pose proof (skip_ws_le r0) as Hw.
    destruct (skip_ws r0) as [|c r'] eqn:E'; [discriminate|].
    destruct (c =? RBRACK)%N.
    + intros [= <- <-]. simpl in *. lia.
    + destruct (c =? COMMA)%N; [|discriminate].
      intro H. apply IHe in H. pose proof (skip_ws_le r'). simpl in *. lia.
  - intros acc s v r. rewrite parse_members_S.
    destruct s as [|c s']; [discriminate|].
    destruct (c =? DQUOTE)%N; [|discriminate].
    destruct (scanstring s') as [[k r0]|] eqn:E; [|discriminate].
    apply (scanstring_lt (length s')) in E; [|lia].
    pose proof (skip_ws_le r0) as Hw.
    destruct (skip_ws r0) as [|c2 r2] eqn:E2; [discriminate|].
    destruct (c2 =? COLON)%N; [|discriminate].
    destruct (parse_value n (skip_ws r2)) as [v0 r3| |] eqn:E3; try discriminate.
    apply IHv in E3. pose proof (skip_ws_le r2) as Hw2.
    pose proof (skip_ws_le r3) as Hw3.
    destruct (skip_ws r3) as [|c3 r4] eqn:E4; [discriminate|].
    destruct (c3 =? RBRACE)%N.
    + intros [= <- <-]. simpl in *. lia.
    + destruct (c3 =? COMMA)%N; [|discriminate].
      intro H. apply IHm in H. pose proof (skip_ws_le r4). simpl in *. lia.
Qed.

(** More fuel does not change a result. *)
Lemma parse_more_fuel_S fuel :
  (forall s, parse_value fuel s <> NoFuel ->
             parse_value (S fuel) s = parse_value fuel s)
  /\ (forall acc s, parse_elems fuel acc s <> NoFuel ->
                    parse_elems (S fuel) acc s = parse_elems fuel acc s)
  /\ (forall acc s, parse_members fuel acc s <> NoFuel ->
                    parse_members (S fuel) acc s = parse_members fuel acc s).
Proof.
  induction fuel as [|n (IHv & IHe & IHm)]; [repeat split; intros; now exfalso|].
  repeat split.
  - intros s. rewrite (parse_value_S (S n)), (parse_value_S n).
    destruct s as [|c s']; [reflexivity|].
    destruct (c =? DQUOTE)%N; [reflexivity|].
    destruct (c =? LBRACE)%N.
    { destruct (skip_ws s') as [|c2 r0]; [reflexivity|].
      destruct (c2 =? RBRACE)%N; [reflexivity|]. apply IHm. }
    destruct (c =? LBRACK)%N; [|reflexivity].
    destruct (skip_ws s') as [|c2 r0]; [reflexivity|].
    destruct (c2 =? RBRACK)%N; [reflexivity|]. apply IHe.
  - intros acc s. rewrite (parse_elems_S (S n)), (parse_elems_S n).
    destruct (parse_value n s) as [v0 r0| |] eqn:E.
    + rewrite IHv, E by congruence.
      destruct (skip_ws r0) as [|c r']; [reflexivity|].
      destruct (c =? RBRACK)%N; [reflexivity|].
      destruct (c =? COMMA)%N; [|reflexivity]. apply IHe.
    + rewrite IHv, E by congruence. reflexivity.
    + intro H. now exfalso.
  - intros acc s. rewrite (parse_members_S (S n)), (parse_members_S n).
    destruct s as [|c s']; [reflexivity|].
    destruct (c =? DQUOTE)%N; [|reflexivity].
    destruct (scanstring s') as [[k r0]|]; [|reflexivity].
    destruct (skip_ws r0) as [|c2 r2]; [reflexivity|].
    destruct (c2 =? COLON)%N; [|reflexivity].
    destruct (parse_value n (skip_ws r2)) as [v0 r3| |] eqn:E.
    + rewrite IHv, E by congruence.
      destruct (skip_ws r3) as [|c3 r4]; [reflexivity|].
      destruct (c3 =? RBRACE)%N; [reflexivity|].
      destruct (c3 =? COMMA)%N; [|reflexivity]. apply IHm.
    + rewrite IHv, E by congruence. reflexivity.
    + intro H. now exfalso.
Qed.

Lemma parse_value_more_fuel f f' s :
  f <= f' -> parse_value f s <> NoFuel -> parse_value f' s = parse_value f s.
Proof.
  induction 1 as [|f' Hle IH]; [reflexivity|]. intro H.
  rewrite <- (IH H). apply parse_more_fuel_S. now rewrite (IH H).
Qed.

Lemma parse_elems_more_fuel f f' acc s :
  f <= f' -> parse_elems f acc s <> NoFuel ->
  parse_elems f' acc s = parse_elems f acc s.
Proof.
  induction 1 as [|f' Hle IH]; [reflexivity|]. intro H.
  rewrite <- (IH H). apply parse_more_fuel_S. now rewrite (IH H).
Qed.

Lemma parse_members_more_fuel f f' acc s :
  f <= f' -> parse_members f acc s <> NoFuel ->
  parse_members f' acc s = parse_members f acc s.
Proof.
  induction 1 as [|f' Hle IH]; [reflexivity|]. intro H.
  rewrite <- (IH H). apply parse_more_fuel_S. now rewrite (IH H).
Qed.

(** Twice the length of the text is fuel enough. *)
Lemma parse_fuel fuel :
  (forall s, 2 * length s + 1 <= fuel -> parse_value fuel s <> NoFuel)
  /\ (forall acc s, 2 * length s + 2 <= fuel -> parse_elems fuel acc s <> NoFuel)
  /\ (forall acc s, 2 * length s + 1 <= fuel -> parse_members fuel acc s <> NoFuel).
Proof.
  induction fuel as [|n (IHv & IHe & IHm)]; [repeat split; intros; lia|].
  repeat split.
  - intros s Hs. rewrite parse_value_S.
    destruct s as [|c s']; [discriminate|]. simpl in Hs.
    destruct (c =? DQUOTE)%N; [now destruct (scanstring s') as [[? ?]|]|].
    pose proof (skip_ws_le s') as Hw.
    destruct (c =? LBRACE)%N.
    { destruct (skip_ws s') as [|c2 r0]; [discriminate|].
      destruct (c2 =? RBRACE)%N; [discriminate|]. apply IHm. simpl in *. lia. }
    destruct (c =? LBRACK)%N.
    { destruct (skip_ws s') as [|c2 r0]; [discriminate|].
      destruct (c2 =? RBRACK)%N; [discriminate|]. apply IHe. simpl in *. lia. }
    now destruct (scan_atom (c :: s')) as [[? ?]|].
  - intros acc s Hs. rewrite parse_elems_S.
    destruct (parse_value n s) as [v0 r0| |] eqn:E.
    + apply parse_lt in E. pose proof (skip_ws_le r0) as Hw.
      destruct (skip_ws r0) as [|c r']; [discriminate|].
      destruct (c =? RBRACK)%N; [discriminate|].
      destruct (c =? COMMA)%N; [|discriminate].
      apply IHe. pose proof (skip_ws_le r'). simpl in *. lia.
    + discriminate.
    + exfalso. revert E. apply IHv. lia.
  - intros acc s Hs. rewrite parse_members_S.
    destruct s as [|c s']; [discriminate|]. simpl in Hs.
    destruct (c =? DQUOTE)%N; [|discriminate].
    destruct (scanstring s') as [[k r0]|] eqn:E; [|discriminate].
    apply (scanstring_lt (length s')) in E; [|lia].
    pose proof (skip_ws_le r0) as Hw.
    destruct (skip_ws r0) as [|c2 r2]; [discriminate|].
    destruct (c2 =? COLON)%N; [|discriminate].
    pose proof (skip_ws_le r2) as Hw2.
    destruct (parse_value n (skip_ws r2)) as [v0 r3| |] eqn:E3.
    + apply parse_lt in E3. pose proof (skip_ws_le r3) as Hw3.
      destruct (skip_ws r3) as [|c3 r4]; [discriminate|].
      destruct (c3 =? RBRACE)%N; [discriminate|].
      destruct (c3 =? COMMA)%N; [|discriminate].
      apply IHm. pose proof (skip_ws_le r4). simpl in *. lia.
    + discriminate.
    + exfalso. revert E3. apply IHv. simpl in *. lia.
Qed.

(** With enough fuel for some result, [fuel_for] gives the same result. *)
Lemma parse_value_fuel_for f s v r :
  parse_value f s = Ok v r -> forall n, 2 * length s + 1 <= n -> parse_value n s = Ok v r.
Proof.
  intros H n Hn.
  destruct (Nat.le_ge_cases f n) as [L|L].
  - rewrite (parse_value_more_fuel _ _ _ L); [assumption|congruence].
  - rewrite <- H. symmetry. apply parse_value_more_fuel; [assumption|].
    now apply parse_fuel.
Qed.

Lemma value_induction (P : value -> Prop) :
  P VNone -> (forall b, P (VBool b)) -> (forall z, P (VInt z)) ->
  (forall t, P (VFloat t)) -> (forall s, P (VStr s)) ->
  (forall l, Forall P l -> P (VList l)) ->
  (forall d, Forall (fun kv => P (snd kv)) d -> P (VDict d)) ->
  forall v, P v.
Proof.
  intros H1 H2 H3 H4 H5 H6 H7.
  fix IH 1.
  intros [ | b | z | t | s | l | d];
    [exact H1|apply H2|apply H3|apply H4|apply H5|apply H6|apply H7].
  - induction l as [|x l IHl]; constructor; [apply IH|exact IHl].
  - induction d as [|[k x] d IHd]; constructor; [apply IH|exact IHd].
Qed.

Lemma unique_NoDup ks : unique ks = true <-> NoDup ks.
Proof.
  induction ks as [|k ks IH]; simpl.
  - split; [constructor|reflexivity].
  - rewrite andb_true_iff, negb_true_iff, IH. split.
    + intros [H1 H2]. constructor; [|assumption].
      intro Hin. assert (existsb (str_eqb k) ks = true); [|congruence].
      apply existsb_exists. exists k. split; [assumption|apply str_eqb_refl].
    + intro H. inversion H as [|? ? H1 H2]; subst. split; [|assumption].
      destruct (existsb (str_eqb k) ks) eqn:E; [|reflexivity].
      apply existsb_exists in E as (x & Hx & Ex). apply str_eqb_eq in Ex.
      now subst.
Qed.

(** ** What [dumps] writes first *)

Lemma json_start_cases c :
  json_start c = true ->
  (c = 48 \/ c = 49 \/ c = 50 \/ c = 51 \/ c = 52 \/ c = 53 \/ c = 54 \/ c = 55
   \/ c = 56 \/ c = 57 \/ c = 34 \/ c = 123 \/ c = 91 \/ c = 45 \/ c = 110
   \/ c = 116 \/ c = 102 \/ c = 78 \/ c = 73)%N.
Proof.
  unfold json_start, is_digit, DQUOTE, LBRACE, LBRACK, MINUS. intro H.
  repeat (apply orb_true_iff in H as [H|H]);
    try (apply N.eqb_eq in H; subst; tauto).
  apply andb_true_iff in H as [H1 H2]. apply N.leb_le in H1, H2. lia.
Qed.

Lemma json_start_plain c :
  json_start c = true ->
  is_ws c = false /\ is_space c = false /\ (c =? RBRACK)%N = false
  /\ (c =? RBRACE)%N = false /\ (c =? COMMA)%N = false.
Proof.
  intro H. apply json_start_cases in H.
  repeat (destruct H as [->|H]; [repeat split; reflexivity|]).
  subst. repeat split; reflexivity.
Qed.

Lemma skip_ws_start s : starts json_start s = true -> skip_ws s = s.
Proof.
  destruct s as [|c s]; [reflexivity|]. simpl. intro H.
  apply json_start_plain in H as (-> & _). reflexivity.
Qed.

Lemma lstrip_start s : starts json_start s = true -> lstrip s = s.
Proof.
  destruct s as [|c s]; [reflexivity|]. simpl. intro H.
  apply json_start_plain in H as (_ & -> & _). reflexivity.
Qed.

Lemma starts_app p a b : starts p a = true -> starts p (a ++ b) = true.
Proof. destruct a; [discriminate|trivial]. Qed.

Lemma number_start sg ip rest :
  sign_part sg -> int_part ip -> starts json_start (sg ++ ip ++ rest) = true.
Proof.
  intros Hs Hi. destruct (int_part_head _ Hi) as (c & ds & -> & Hc).
  destruct Hs as [-> | ->]; [|reflexivity].
  simpl. unfold json_start. now rewrite Hc.
Qed.

Lemma float_token_start t : float_token t = true -> starts json_start t = true.
Proof.
  unfold float_token.
  destruct (scan_atom t) as [[[] [|]]|] eqn:E; try discriminate.
  intro H. apply str_eqb_eq in H. subst token.
  apply scan_atom_float_inv in E
    as [_ [->|[->|[->|(sg & ip & fr & ex & -> & _ & Hs & Hi & _)]]]];
    try reflexivity.
  now apply number_start.
Qed.

Lemma int_repr_start z : starts json_start (int_repr z) = true.
Proof.
  pose proof (int_part_to_uint (Z.abs_N z)) as Hi.
  unfold int_repr. destruct z.
  - rewrite <- (app_nil_r (digits_of_uint _)).
    apply (number_start [] _ []); [now left|assumption].
  - rewrite <- (app_nil_r (digits_of_uint _)).
    apply (number_start [] _ []); [now left|assumption].
  - reflexivity.
Qed.

Lemma dumps_start v : well_formed v = true -> starts json_start (dumps v) = true.
Proof.
  destruct v as [ | [|] | z | t | s | l | d]; try reflexivity; intro H.
  - apply int_repr_start.
  - now apply float_token_start.
Qed.

Lemma join_start p sep x l :
  starts p x = true -> starts p (join sep (x :: l)) = true.
Proof. destruct l; simpl; [trivial|apply starts_app]. Qed.

(** ** Reading back what [dumps] wrote *)

Lemma parse_value_atom n s :
  starts (fun c => is_digit c || (c =? MINUS) || (c =? 110) || (c =? 116)
                   || (c =? 102) || (c =? 78) || (c =? 73))%N s = true ->
  parse_value (S n) s = of_option (scan_atom s).
Proof.
  rewrite parse_value_S. destruct s as [|c s]; [discriminate|]. simpl.
  unfold is_digit, DQUOTE, LBRACE, LBRACK, MINUS. intro H.
  assert (c <> 34 /\ c <> 123 /\ c <> 91)%N as (H1 & H2 & H3).
  { repeat (apply orb_true_iff in H as [H|H]);
      try (apply N.eqb_eq in H; subst; repeat split; discriminate).
    apply andb_true_iff in H as [Ha Hb]. apply N.leb_le in Ha, Hb. lia. }
  apply N.eqb_neq in H1, H2, H3. now rewrite H1, H2, H3.
Qed.

Lemma atom_start_of_json c :
  json_start c = true ->
  (c =? DQUOTE)%N = false -> (c =? LBRACE)%N = false -> (c =? LBRACK)%N = false ->
  (is_digit c || (c =? MINUS) || (c =? 110) || (c =? 116)
   || (c =? 102) || (c =? 78) || (c =? 73))%N = true.
Proof.
  unfold json_start. intros H H1 H2 H3. rewrite H1, H2, H3 in H.
  now rewrite !orb_false_r in H.
Qed.

Lemma reads_back_number v t :
  dumps v = t -> starts json_start t = true ->
  match t with
  | c :: _ => (c =? DQUOTE)%N = false /\ (c =? LBRACE)%N = false
              /\ (c =? LBRACK)%N = false
  | [] => True
  end ->
  (forall rest, delim rest = true -> scan_atom (t ++ rest) = Some (v, rest)) ->
  reads_back v.
Proof.
  intros E Hs Hc H rest Hr. exists 1, v. split; [|trivial].
  rewrite E. rewrite parse_value_atom, (H rest Hr); [reflexivity|].
  destruct t as [|c t]; [discriminate|]. destruct Hc as (H1 & H2 & H3).
  simpl in *. now apply atom_start_of_json.
Qed.

Lemma number_not_open sg ip rest :
  sign_part sg -> int_part ip ->
  match sg ++ ip ++ rest with
  | c :: _ => (c =? DQUOTE)%N = false /\ (c =? LBRACE)%N = false
              /\ (c =? LBRACK)%N = false
  | [] => True
  end.
Proof.
  intros Hs Hi. destruct (int_part_head _ Hi) as (c & ds & -> & Hc).
  destruct Hs as [-> | ->]; [|repeat split; reflexivity].
  simpl. unfold is_digit in Hc. apply andb_true_iff in Hc as [H1 H2].
  apply N.leb_le in H1, H2.
  repeat split; apply N.eqb_neq; unfold DQUOTE, LBRACE, LBRACK; lia.
Qed.

Lemma reads_back_int z : reads_back (VInt z).
Proof.
  apply (reads_back_number (VInt z) (int_repr z)); [reflexivity| | |].
  - apply int_repr_start.
  - pose proof (int_part_to_uint (Z.abs_N z)) as Hi.
    unfold int_repr. destruct z; try (repeat split; reflexivity);
      rewrite <- (app_nil_r (digits_of_uint _));
      apply (number_not_open [] _ []); (now left) || assumption.
  - intros rest Hr. now apply scan_atom_int.
Qed.

Lemma reads_back_float t : float_token t = true -> reads_back (VFloat t).
Proof.
  intro H. apply (reads_back_number (VFloat t) t); [reflexivity| | |].
  - now apply float_token_start.
  - unfold float_token in H.
    destruct (scan_atom t) as [[[] [|]]|] eqn:E; try discriminate.
    apply str_eqb_eq in H. subst token.
    apply scan_atom_float_inv in E
      as [_ [->|[->|[->|(sg & ip & fr & ex & -> & _ & Hs & Hi & _)]]]];
      try (repeat split; reflexivity).
    now apply number_not_open.
  - intros rest Hr. now apply scan_atom_float.
Qed.

Lemma reads_back_str s : reads_back (VStr s).
Proof.
  intros rest Hr. destruct (scanstring_encoded s rest) as [t Ht].
  exists 1, (VStr t). split.
  - rewrite parse_value_S. unfold dumps, encode_str. cbn [app].
    change (DQUOTE =? DQUOTE)%N with true. cbn iota.
    rewrite <- app_assoc. cbn [app]. now rewrite Ht.
  - simpl. intro Hs. rewrite scanstring_scalar in Ht by assumption.
    now injection Ht as <-.
Qed.

Lemma parse_elems_last n acc x x' rest :
  parse_value n (dumps x ++ RBRACK :: rest) = Ok x' (RBRACK :: rest) ->
  parse_elems (S n) acc (dumps x ++ RBRACK :: rest) = Ok (VList (acc ++ [x'])) rest.
Proof. intro E. rewrite parse_elems_S, E. reflexivity. Qed.

Lemma parse_elems_sep n acc x x' tail :
  parse_value n (dumps x ++ lit ", " ++ tail) = Ok x' (lit ", " ++ tail) ->
  starts json_start tail = true ->
  parse_elems (S n) acc (dumps x ++ lit ", " ++ tail)
  = parse_elems n (acc ++ [x']) tail.
Proof.
  intros E H. rewrite parse_elems_S, E. simpl. now rewrite skip_ws_start.
Qed.

Lemma parse_elems_join l :
  Forall reads_back l -> forallb well_formed l = true -> l <> [] ->
  forall acc rest, exists fuel l',
    parse_elems fuel acc (join (lit ", ") (map dumps l) ++ RBRACK :: rest)
    = Ok (VList (acc ++ l')) rest
    /\ (forallb scalar_text l = true -> l' = l).
Proof.
  induction l as [|x l IH]; [congruence|]. intros Hrb Hwf _ acc rest.
  apply Forall_cons_iff in Hrb as [Hx Hl].
  simpl in Hwf. apply andb_true_iff in Hwf as [Wx Wl].
  destruct l as [|y l].
  - destruct (Hx (RBRACK :: rest) eq_refl) as (f & x' & E & Sc).
    exists (S f), [x']. split.
    + cbn [map join]. now apply parse_elems_last.
    + simpl. rewrite andb_true_r. intro H. now rewrite (Sc H).
  - set (tail := join (lit ", ") (map dumps (y :: l)) ++ RBRACK :: rest).
    assert (starts json_start tail = true) as Ht.
    { apply starts_app. cbn [map]. apply join_start.
      apply dumps_start. simpl in Wl. now apply andb_true_iff in Wl as [? _]. }
    destruct (Hx (lit ", " ++ tail) eq_refl) as (f1 & x' & E1 & S1).
    destruct (IH Hl Wl ltac:(discriminate) (acc ++ [x']) rest)
      as (f2 & l' & E2 & S2).
    exists (S (Nat.max f1 f2)), (x' :: l'). split.
    + change (map dumps (x :: y :: l)) with (dumps x :: map dumps (y :: l)).
      change (join (lit ", ") (dumps x :: map dumps (y :: l)))
        with (dumps x ++ lit ", " ++ join (lit ", ") (map dumps (y :: l))).
      rewrite <- !app_assoc. fold tail.
      rewrite (parse_elems_sep _ _ x x').
      * rewrite (parse_elems_more_fuel f2) by (lia || (unfold tail; congruence)).
        unfold tail. rewrite E2. now rewrite <- app_assoc.
      * rewrite (parse_value_more_fuel f1) by (lia || congruence). exact E1.
      * exact Ht.
    + cbn [forallb]. intro H. apply andb_true_iff in H as [Hx' Hl'].
      now rewrite (S1 Hx'), (S2 Hl').
Qed.

Lemma parse_members_member n acc (k k' : str) x x' tail :
  scanstring (flat_map escape_char k ++ DQUOTE :: lit ": " ++ dumps x ++ tail)
  = Some (k', lit ": " ++ dumps x ++ tail) ->
  well_formed x = true ->
  parse_value n (dumps x ++ tail) = Ok x' tail ->
  parse_members (S n) acc (member_text (k, x) ++ tail)
  = match skip_ws tail with
    | c3 :: r4 =>
        if (c3 =? RBRACE)%N then Ok (VDict (dict_set k' x' acc)) r4
        else if (c3 =? COMMA)%N
        then parse_members n (dict_set k' x' acc) (skip_ws r4)
        else Bad
    | [] => Bad
    end.
Proof.
  intros Hk Wx E. rewrite parse_members_S. unfold member_text, encode_str.
  cbn [app]. change (DQUOTE =? DQUOTE)%N with true. cbn iota.
  rewrite <- !app_assoc. cbn [app]. rewrite Hk.
  assert (skip_ws (lit ": " ++ dumps x ++ tail) = COLON :: 32%N :: dumps x ++ tail)
    as -> by reflexivity.
  change (COLON =? COLON)%N with true. cbn iota.
  assert (skip_ws (32%N :: dumps x ++ tail) = dumps x ++ tail) as ->.
  { simpl. apply skip_ws_start, starts_app. now apply dumps_start. }
  now rewrite E.
Qed.

Lemma parse_members_join d :
  Forall (fun kv => reads_back (snd kv)) d ->
  forallb (fun kv : str * value => well_formed (snd kv)) d = true -> d <> [] ->
  forall acc rest, exists fuel d',
    parse_members fuel acc (join (lit ", ") (map member_text d) ++ RBRACE :: rest)
    = Ok (VDict d') rest
    /\ (forallb (fun kv : str * value =>
                   forallb is_scalar (fst kv) && scalar_text (snd kv)) d = true ->
        NoDup (map fst (acc ++ d)) -> d' = acc ++ d).
Proof.
  induction d as [|[k x] d IH]; [congruence|]. intros Hrb Hwf _ acc rest.
  apply Forall_cons_iff in Hrb as [Hx Hd]. simpl in Hx.
  simpl in Hwf. apply andb_true_iff in Hwf as [Wx Wd].
  assert (forall acc0 k' x',
            (forallb is_scalar k = true -> k' = k) ->
            (scalar_text x = true -> x' = x) ->
            forallb is_scalar k && scalar_text x = true ->
            NoDup (map fst (acc0 ++ (k, x) :: d)) ->
            dict_set k' x' acc0 = acc0 ++ [(k, x)]) as Fresh.
  { intros acc0 k' x' Sk Sx H Hnd. apply andb_true_iff in H as [H1 H2].
    rewrite (Sk H1), (Sx H2). apply dict_set_fresh, dict_get_None_keys.
    rewrite map_app in Hnd. simpl in Hnd. apply NoDup_remove_2 in Hnd.
    intro Hin. apply Hnd. apply in_or_app. now left. }
  destruct d as [|kv d].
  - destruct (scanstring_encoded k (lit ": " ++ dumps x ++ RBRACE :: rest))
      as [k' Hk].
    destruct (Hx (RBRACE :: rest) eq_refl) as (f & x' & E & Sx).
    exists (S f), (dict_set k' x' acc). split.
    + cbn [map join]. rewrite (parse_members_member _ _ _ _ _ _ _ Hk Wx E).
      reflexivity.
    + cbn [forallb]. rewrite andb_true_r. intros H Hnd.
      rewrite (Fresh acc k' x'); auto.
      intro Hs. rewrite scanstring_scalar in Hk by assumption.
      now injection Hk as <-.
  - set (tail := join (lit ", ") (map member_text (kv :: d)) ++ RBRACE :: rest).
    assert (exists t0, tail = DQUOTE :: t0) as [t0 Et].
    { unfold tail. cbn [map]. destruct kv as [k2 x2].
      destruct d; cbn [join map member_text]; unfold encode_str; cbn [app]; eauto. }
    destruct (scanstring_encoded k (lit ": " ++ dumps x ++ lit ", " ++ tail))
      as [k' Hk].
    destruct (Hx (lit ", " ++ tail) eq_refl) as (f1 & x' & E1 & Sx).
    destruct (IH Hd Wd ltac:(discriminate) (dict_set k' x' acc) rest)
      as (f2 & d' & E2 & S2).
    exists (S (Nat.max f1 f2)), d'. split.
    + change (map member_text ((k, x) :: kv :: d))
        with (member_text (k, x) :: map member_text (kv :: d)).
      change (join (lit ", ") (member_text (k, x) :: map member_text (kv :: d)))
        with (member_text (k, x) ++ lit ", "
              ++ join (lit ", ") (map member_text (kv :: d))).
      rewrite <- !app_assoc. fold tail.
      rewrite (parse_members_member (Nat.max f1 f2) acc k k' x x' (lit ", " ++ tail) Hk Wx).
      * rewrite Et. simpl. rewrite <- Et.
        rewrite (parse_members_more_fuel f2) by (lia || (unfold tail; congruence)).
        exact E2.
      * rewrite (parse_value_more_fuel f1) by (lia || congruence). exact E1.
    + cbn [forallb]. intros H Hnd. apply andb_true_iff in H as [H Hd'].
      assert (k' = k /\ x' = x) as [-> ->].
      { apply andb_true_iff in H as [H1 H2]. split; [|now apply Sx].
        rewrite scanstring_scalar in Hk by assumption. now injection Hk as <-. }
      rewrite (Fresh acc k x) in S2; auto.
      rewrite <- app_assoc in S2. simpl in S2. now apply S2.
Qed.

Lemma dumps_list l :
  dumps (VList l) = LBRACK :: join (lit ", ") (map dumps l) ++ [RBRACK].
Proof. reflexivity. Qed.

Lemma dumps_dict d :
  dumps (VDict d) = LBRACE :: join (lit ", ") (map member_text d) ++ [RBRACE].
Proof. reflexivity. Qed.

Theorem parse_dumps v : well_formed v = true -> reads_back v.
Proof.
  induction v as [ | b | z | t | s | l IH | d IH] using value_induction; intro Hwf.
  - intros rest _. exists 1, VNone. split; [reflexivity|trivial].
  - intros rest _. exists 1, (VBool b). split; [now destruct b|trivial].
  - apply reads_back_int.
  - now apply reads_back_float.
  - apply reads_back_str.
  - simpl in Hwf. intros rest Hr. destruct l as [|x l].
    { exists 1, (VList []). split; [reflexivity|trivial]. }
    assert (Forall reads_back (x :: l)) as Hrb.
    { apply Forall_forall. intros y Hy.
      rewrite Forall_forall in IH. apply (IH y Hy).
      rewrite forallb_forall in Hwf. now apply Hwf. }
    destruct (parse_elems_join _ Hrb Hwf ltac:(discriminate) [] rest)
      as (f & l' & E & Sc).
    exists (S f), (VList l'). split.
    + rewrite parse_value_S, dumps_list. cbn [app].
      change (LBRACK =? DQUOTE)%N with false.
      change (LBRACK =? LBRACE)%N with false.
      change (LBRACK =? LBRACK)%N with true. cbn iota.
      rewrite <- app_assoc. cbn [app].
      rewrite skip_ws_start.
      2:{ apply starts_app. cbn [map]. apply join_start. apply dumps_start.
          simpl in Hwf. now apply andb_true_iff in Hwf as [? _]. }
      destruct (join (lit ", ") (map dumps (x :: l)) ++ RBRACK :: rest)
        as [|c2 r0] eqn:Ej.
      { exfalso. cbn [map] in Ej.
        assert (starts json_start (join (lit ", ") (dumps x :: map dumps l)
                                   ++ RBRACK :: rest) = true) as X.
        { apply starts_app, join_start, dumps_start.
          simpl in Hwf. now apply andb_true_iff in Hwf as [? _]. }
        now rewrite Ej in X. }
      assert ((c2 =? RBRACK)%N = false) as ->.
      { assert (starts json_start (c2 :: r0) = true) as X.
        { rewrite <- Ej. cbn [map]. apply starts_app, join_start, dumps_start.
          simpl in Hwf. now apply andb_true_iff in Hwf as [? _]. }
        simpl in X. now apply json_start_plain in X as (_ & _ & X & _). }
      exact E.
    + cbn [scalar_text]. intro H. now rewrite (Sc H).
  - simpl in Hwf. apply andb_true_iff in Hwf as [Hu Hwf].
    intros rest Hr. destruct d as [|kv d].
    { exists 1, (VDict []). split; [reflexivity|trivial]. }
    assert (Forall (fun kv => reads_back (snd kv)) (kv :: d)) as Hrb.
    { apply Forall_forall. intros y Hy.
      rewrite Forall_forall in IH. apply (IH y Hy).
      rewrite forallb_forall in Hwf. now apply Hwf. }
    destruct (parse_members_join _ Hrb Hwf ltac:(discriminate) [] rest)
      as (f & d' & E & Sc).
    exists (S f), (VDict d'). split.
    + rewrite parse_value_S, dumps_dict. cbn [app].
      change (LBRACE =? DQUOTE)%N with false.
      change (LBRACE =? LBRACE)%N with true. cbn iota.
      rewrite <- app_assoc. cbn [app].
      assert (exists r0, join (lit ", ") (map member_text (kv :: d)) ++ RBRACE :: rest
                         = DQUOTE :: r0) as [r0 Ej].
      { cbn [map]. destruct kv as [k x]. destruct d; cbn [join map member_text];
          unfold encode_str; cbn [app]; eauto. }
      rewrite Ej. cbn [skip_ws]. change (is_ws DQUOTE) with false. cbn iota.
      change (DQUOTE =? RBRACE)%N with false. cbn iota.
      rewrite <- Ej. exact E.
    + cbn [scalar_text]. intro H. rewrite (Sc H); [reflexivity|].
      now apply unique_NoDup.
Qed.

(** ** [loads] after [dumps] *)

Theorem loads_dumps v :
  well_formed v = true ->
  exists v', loads (dumps v) = Some v' /\ (scalar_text v = true -> v' = v).
Proof.
  intro Hwf. destruct (parse_dumps v Hwf [] eq_refl) as (f & v' & E & Sc).
  exists v'. split; [|assumption].
  unfold loads, fuel_for. rewrite skip_ws_start by now apply dumps_start.
  rewrite app_nil_r in E.
  rewrite (parse_value_fuel_for _ _ _ _ E) by lia. reflexivity.
Qed.

Corollary loads_dumps_scalar v :
  well_formed v = true -> scalar_text v = true -> loads (dumps v) = Some v.
Proof.
  intros Hwf Hs. destruct (loads_dumps v Hwf) as (v' & E & Sc).
  now rewrite E, (Sc Hs).
Qed.

(** ** What [loads] builds is well formed *)

Lemma well_formed_dict_set k x d :
  well_formed (VDict d) = true -> well_formed x = true ->
  well_formed (VDict (dict_set k x d)) = true.
Proof.
  simpl. intros H Hx. apply andb_true_iff in H as [Hu Hd].
  apply andb_true_iff. split.
  - apply unique_NoDup, dict_set_NoDup. now apply unique_NoDup.
  - clear Hu. induction d as [|[k' x'] d IH]; simpl in *.
    + now rewrite Hx.
    + apply andb_true_iff in Hd as [H1 H2].
      destruct (str_eqb k k'); simpl; [now rewrite Hx|]. now rewrite H1, IH.
Qed.

Lemma well_formed_dict_get k x d :
  well_formed (VDict d) = true -> dict_get k d = Some x -> well_formed x = true.
Proof.
  simpl. intros H. apply andb_true_iff in H as [_ Hd].
  induction d as [|[k' x'] d IH]; simpl in *; [discriminate|].
  apply andb_true_iff in Hd as [H1 H2].
  destruct (str_eqb k k'); [now intros [= <-]|auto].
Qed.

Lemma scan_atom_well_formed s v r :
  scan_atom s = Some (v, r) -> well_formed v = true.
Proof.
  destruct v as [ | b | z | t | t | l | d]; try reflexivity.
  - apply float_token_of_scan.
  - unfold scan_atom, try_const.
    repeat match goal with
           | |- context [strip_prefix ?w s] =>
               destruct (strip_prefix w s); [discriminate|]
           end.
    intro H. apply scan_number_inv in H as (sg & ip & fr & ex & _ & Hv & _).
    unfold number_value in Hv. destruct fr, ex; discriminate.
  - unfold scan_atom, try_const.
    repeat match goal with
           | |- context [strip_prefix ?w s] =>
               destruct (strip_prefix w s); [discriminate|]
           end.
    intro H. apply scan_number_inv in H as (sg & ip & fr & ex & _ & Hv & _).
    unfold number_value in Hv. destruct fr, ex; discriminate.
Qed.

Lemma parse_well_formed fuel :
  (forall s v r, parse_value fuel s = Ok v r -> well_formed v = true)
  /\ (forall acc s v r, parse_elems fuel acc s = Ok v r ->
                        forallb well_formed acc = true -> well_formed v = true)
  /\ (forall acc s v r, parse_members fuel acc s = Ok v r ->
                        well_formed (VDict acc) = true -> well_formed v = true).
Proof.
  induction fuel as [|n (IHv & IHe & IHm)]; [repeat split; discriminate|].
  repeat split.
  - intros s v r. rewrite parse_value_S.
    destruct s as [|c s']; [discriminate|].
    destruct (c =? DQUOTE)%N.
    { destruct (scanstring s') as [[t r0]|]; [|discriminate]. now intros [= <- <-]. }
    destruct (c =? LBRACE)%N.
    { destruct (skip_ws s') as [|c2 r0]; [discriminate|].
      destruct (c2 =? RBRACE)%N; [now intros [= <- <-]|].
      intro H. now apply IHm in H. }
    destruct (c =? LBRACK)%N.
    { destruct (skip_ws s') as [|c2 r0]; [discriminate|].
      destruct (c2 =? RBRACK)%N; [now intros [= <- <-]|].
      intro H. now apply IHe in H. }
    destruct (scan_atom (c :: s')) as [[v0 r0]|] eqn:E; [|discriminate].
    intros [= <- <-]. now apply scan_atom_well_formed in E.
  - intros acc s v r. rewrite parse_elems_S.
    destruct (parse_value n s) as [v0 r0| |] eqn:E; try discriminate.
    apply IHv in E. intros H Hacc.
    assert (forallb well_formed (acc ++ [v0]) = true) as Hacc'.
    { rewrite forallb_app, Hacc. simpl. now rewrite E. }
    destruct (skip_ws r0) as [|c r']; [discriminate|].
    destruct (c =? RBRACK)%N; [now injection H as <- <-|].
    destruct (c =? COMMA)%N; [|discriminate]. now apply IHe in H.
  - intros acc s v r. rewrite parse_members_S.
    destruct s as [|c s']; [discriminate|].
    destruct (c =? DQUOTE)%N; [|discriminate].
    destruct (scanstring s') as [[k r0]|]; [|discriminate].
    destruct (skip_ws r0) as [|c2 r2]; [discriminate|].
    destruct (c2 =? COLON)%N; [|discriminate].
    destruct (parse_value n (skip_ws r2)) as [v0 r3| |] eqn:E; try discriminate.
    apply IHv in E. intros H Hacc.
    pose proof (well_formed_dict_set k v0 acc Hacc E) as Hacc'.
    destruct (skip_ws r3) as [|c3 r4]; [discriminate|].
    destruct (c3 =? RBRACE)%N; [now injection H as <- <-|].
    destruct (c3 =? COMMA)%N; [|discriminate]. now apply IHm in H.
Qed.

Theorem loads_well_formed s v : loads s = Some v -> well_formed v = true.
Proof.
  unfold loads.
  destruct (parse_value (fuel_for s) (skip_ws s)) as [v0 r| |] eqn:E;
    try discriminate.
  destruct (skip_ws r); [|discriminate]. intros [= <-].
  now apply parse_well_formed in E.
Qed.

(** An object text is read as a dict. *)
Lemma parse_members_dict fuel : forall acc s v r,
  parse_members fuel acc s = Ok v r -> exists d, v = VDict d.
Proof.
  induction fuel as [|n IH]; [discriminate|].
  intros acc s v r. rewrite parse_members_S.
  destruct s as [|c s']; [discriminate|].
  destruct (c =? DQUOTE)%N; [|discriminate].
  destruct (scanstring s') as [[k r0]|]; [|discriminate].
  destruct (skip_ws r0) as [|c2 r2]; [discriminate|].
  destruct (c2 =? COLON)%N; [|discriminate].
  destruct (parse_value n (skip_ws r2)) as [v0 r3| |]; try discriminate.
  destruct (skip_ws r3) as [|c3 r4]; [discriminate|].
  destruct (c3 =? RBRACE)%N; [intros [= <- <-]; eauto|].
  destruct (c3 =? COMMA)%N; [|discriminate]. apply IH.
Qed.

Lemma loads_object s v :
  loads (LBRACE :: s) = Some v -> exists d, v = VDict d.
Proof.
  unfold loads. cbn [skip_ws]. change (is_ws LBRACE) with false. cbn iota.
  unfold fuel_for. replace (2 * length (LBRACE :: s) + 2) with (S (2 * length s + 3))
    by (simpl; lia).
  rewrite parse_value_S.
  change (LBRACE =? DQUOTE)%N with false. change (LBRACE =? LBRACE)%N with true.
  cbn iota.
  destruct (skip_ws s) as [|c2 r0]; [discriminate|].
  destruct (c2 =? RBRACE)%N.
  - destruct (skip_ws r0); [|discriminate]. intros [= <-]. eauto.
  - destruct (parse_members _ _ _) as [v0 r| |] eqn:E; try discriminate.
    destruct (skip_ws r); [|discriminate]. intros [= <-].
    now apply parse_members_dict in E.
Qed.

Lemma ends_app p a b : ends p b = true -> ends p (a ++ b) = true.
Proof.
  unfold ends. rewrite rev_app_distr. apply starts_app.
Qed.

Lemma ends_digits ds :
  ds <> [] -> forallb is_digit ds = true -> ends is_digit ds = true.
Proof.
  intros Hn H. unfold ends. rewrite forallb_forall in H.
  destruct (rev ds) as [|c r] eqn:E.
  - apply (f_equal (@rev char)) in E. rewrite rev_involutive in E. now subst.
  - simpl. apply H, in_rev. rewrite E. now left.
Qed.

Lemma json_end_plain c : json_end c = true -> is_space c = false.
Proof.
  unfold json_end, is_digit, DQUOTE, RBRACE, RBRACK. intro H.
  assert (c = 48 \/ c = 49 \/ c = 50 \/ c = 51 \/ c = 52 \/ c = 53 \/ c = 54
          \/ c = 55 \/ c = 56 \/ c = 57 \/ c = 34 \/ c = 125 \/ c = 93 \/ c = 108
          \/ c = 101 \/ c = 78 \/ c = 121)%N as Hc.
  { repeat (apply orb_true_iff in H as [H|H]);
      try (apply N.eqb_eq in H; subst; tauto).
    apply andb_true_iff in H as [H1 H2]. apply N.leb_le in H1, H2. lia. }
  repeat (destruct Hc as [->|Hc]; [reflexivity|]). now subst.
Qed.

Lemma ends_weaken (p q : char -> bool) s :
  (forall c, p c = true -> q c = true) -> ends p s = true -> ends q s = true.
Proof. unfold ends. destruct (rev s); simpl; auto. Qed.

Lemma digit_json_end c : is_digit c = true -> json_end c = true.
Proof. unfold json_end. now intros ->. Qed.

Lemma float_parts_end fr ex :
  frac_part fr -> exp_part ex -> fr <> [] \/ ex <> [] ->
  ends is_digit (fr ++ ex) = true.
Proof.
  intros Hf He Hne.
  assert (fr <> [] -> ends is_digit fr = true) as Ef.
  { destruct Hf as [->|(f & ds & -> & Hf & Hd)]; [congruence|]. intros _.
    change (DOT :: f :: ds) with ([DOT] ++ f :: ds). apply ends_app.
    apply ends_digits; [discriminate|]. simpl. now rewrite Hf. }
  destruct He as [->|(e & sg & d & ds & -> & _ & _ & Hd & Hds)].
  - rewrite app_nil_r. apply Ef. tauto.
  - apply ends_app. change (e :: sg ++ d :: ds) with ((e :: sg) ++ d :: ds).
    apply ends_app. apply ends_digits; [discriminate|]. simpl. now rewrite Hd.
Qed.

Lemma dumps_end v : well_formed v = true -> ends json_end (dumps v) = true.
Proof.
  destruct v as [ | [|] | z | t | s | l | d]; try reflexivity; intro H.
  - apply ends_weaken with (p := is_digit); [apply digit_json_end|].
    pose proof (int_part_to_uint (Z.abs_N z)) as Hi.
    pose proof (digits_of_uint_digits (N.to_uint (Z.abs_N z))) as Hd.
    assert (digits_of_uint (N.to_uint (Z.abs_N z)) <> []) as Hn
      by (destruct (digits_of_uint _); [contradiction|discriminate]).
    cbn [dumps]. unfold int_repr. destruct z; try now apply ends_digits.
    apply (ends_app _ [MINUS]). now apply ends_digits.
  - simpl in H. unfold float_token in H.
    destruct (scan_atom t) as [[[] [|]]|] eqn:E; try discriminate.
    apply str_eqb_eq in H. subst token.
    apply scan_atom_float_inv in E
      as [_ [->|[->|[->|(sg & ip & fr & ex & -> & Hv & Hs & Hi & Hf & He)]]]];
      try reflexivity.
    apply ends_weaken with (p := is_digit); [apply digit_json_end|].
    do 2 apply ends_app. apply float_parts_end; auto.
    unfold number_value in Hv. destruct fr, ex; try discriminate;
      (now left) || (now right).
  - simpl. unfold encode_str, ends. rewrite app_comm_cons, rev_app_distr.
    reflexivity.
  - rewrite dumps_list. unfold ends. rewrite app_comm_cons, rev_app_distr.
    reflexivity.
  - rewrite dumps_dict. unfold ends. rewrite app_comm_cons, rev_app_distr.
    reflexivity.
Qed.

Lemma strip_plain s :
  starts (fun c => negb (is_space c)) s = true ->
  ends (fun c => negb (is_space c)) s = true ->
  strip s = s.
Proof.
  intros H1 H2. unfold strip, rstrip.
  assert (lstrip s = s) as ->.
  { destruct s as [|c s]; [reflexivity|]. simpl in *.
    now apply negb_true_iff in H1 as ->. }
  unfold ends in H2. destruct (rev s) as [|c r] eqn:E.
  - discriminate.
  - simpl in *. apply negb_true_iff in H2 as ->. rewrite <- E.
    apply rev_involutive.
Qed.

Lemma strip_dumps v : well_formed v = true -> strip (dumps v) = dumps v.
Proof.
  intro H. apply strip_plain.
  - pose proof (dumps_start v H) as X. destruct (dumps v); [discriminate|].
    simpl in *. now apply json_start_plain in X as (_ & -> & _).
  - pose proof (dumps_end v H) as X. unfold ends in *.
    destruct (rev (dumps v)); [discriminate|].
    simpl in *. now apply json_end_plain in X as ->.
Qed.

(** ** The matcher *)

Section Quantifier_facts.

Variable R : Type.

Variable c : char -> bool.

Variable k : str -> option R.

Lemma greedy_star_Some s r :
  greedy_star c k s = Some r ->
  exists s', k s' = Some r /\ length s' <= length s.
Proof.
  induction s as [|x s IH]; simpl.
  - intro H. exists []. auto.
  - destruct (c x).
    + destruct (greedy_star c k s) as [r'|] eqn:E.
      * intros [= <-]. destruct (IH eq_refl) as (s' & H1 & H2).
        exists s'. split; [assumption|lia].
      * intro H. exists (x :: s). auto.
    + intro H. exists (x :: s). auto.
Qed.

Lemma lazy_star_Some s r :
  lazy_star c k s = Some r ->
  exists s', k s' = Some r /\ length s' <= length s.
Proof.
  induction s as [|x s IH]; simpl.
  - destruct (k []) eqn:E; [|discriminate]. intros [= <-]. exists []. auto.
  - destruct (k (x :: s)) eqn:E.
    + intros [= <-]. exists (x :: s). auto.
    + destruct (c x); [|discriminate]. intro H.
      destruct (IH H) as (s' & H1 & H2). exists s'. split; [assumption|lia].
Qed.

(** A greedy run that takes all of [a] and goes on at once. *)
Lemma greedy_star_max a b r :
  forallb c a = true -> starts c b = false -> k b = Some r ->
  greedy_star c k (a ++ b) = Some r.
Proof.
  intros Ha Hb Hk. induction a as [|x a IH]; simpl in *.
  - destruct b as [|y b]; [assumption|]. simpl in *. now rewrite Hb.
  - apply andb_true_iff in Ha as [Hx Ha]. now rewrite Hx, (IH Ha).
Qed.

Lemma lazy_star_now s r : k s = Some r -> lazy_star c k s = Some r.
Proof. intro H. destruct s; simpl; now rewrite H. Qed.

(** A lazy run passes [a] when what follows cannot match inside [a]. *)
Lemma lazy_star_skip a b :
  forallb c a = true ->
  (forall a1 a2, a = a1 ++ a2 -> a2 <> [] -> k (a2 ++ b) = None) ->
  lazy_star c k (a ++ b) = lazy_star c k b.
Proof.
  induction a as [|x a IH]; intros Hc H; [reflexivity|].
  simpl in Hc. apply andb_true_iff in Hc as [Hx Hc].
  pose proof (H [] (x :: a) eq_refl ltac:(discriminate)) as H0.
  simpl in *. rewrite H0, Hx.
  apply IH; [assumption|]. intros a1 a2 -> Hn.
  apply (H (x :: a1) a2); [reflexivity|assumption].
Qed.

End Quantifier_facts.

Lemma forallb_any a : forallb any a = true.
Proof. induction a; simpl; auto. Qed.

Lemma run_lit w p s st caps :
  run (Lit w :: p) (w ++ s) st caps = run p s st caps.
Proof. simpl. now rewrite strip_prefix_app. Qed.


Lemma firstn_capture (cap s : str) :
  firstn (length (cap ++ s) - length s) (cap ++ s) = cap.
Proof.
  rewrite length_app. replace (length cap + length s - length s) with (length cap) by lia.
  rewrite firstn_app, Nat.sub_diag, firstn_all. simpl. apply app_nil_r.
Qed.

Lemma run_close p cap s st caps :
  run (Close :: p) s ((cap ++ s) :: st) caps = run p s st (cap :: caps).
Proof. simpl. now rewrite firstn_capture. Qed.

(** ** Positions where a pattern cannot match *)

Lemma never_app p a b : never p a -> never p b -> never p (a ++ b).
Proof.
  induction a as [|x a IH]; simpl; [trivial|].
  intros [H1 H2] Hb. split; [|now apply IH].
  intro tail. rewrite <- app_assoc. apply (H1 (b ++ tail)).
Qed.

Lemma never_suffix p a : never p a ->
  forall a1 a2 tail, a = a1 ++ a2 -> a2 <> [] -> run p (a2 ++ tail) [] [] = None.
Proof.
  induction a as [|x a IH]; intros H a1 a2 tail E Hn.
  - destruct a1, a2; try discriminate. congruence.
  - destruct H as [H1 H2]. destruct a1 as [|y a1].
    + simpl in E. subst a2. apply H1.
    + injection E as -> E. now apply (IH H2 a1 a2).
Qed.

(** Text without the first character of the pattern. *)
Lemma never_without x w p a :
  forallb (other_than x) a = true -> never (Lit (x :: w) :: p) a.
Proof.
  induction a as [|y a IH]; simpl; [trivial|]. intro H.
  apply andb_true_iff in H as [Hy Ha]. split; [|now apply IH].
  intro tail. unfold other_than in Hy. apply negb_true_iff in Hy.
  rewrite N.eqb_sym in Hy. now rewrite Hy.
Qed.

Lemma never_lit w p a : never [Lit w] a -> never (Lit w :: p) a.
Proof.
  induction a as [|y a IH]; simpl; [trivial|]. intros [H1 H2].
  split; [|now apply IH]. intro tail. specialize (H1 tail). simpl in H1.
  destruct (strip_prefix w (y :: a ++ tail)); [discriminate|reflexivity].
Qed.

Lemma never_lit_prefix w a :
  never [Lit w] a ->
  forall a1 a2 tail, a = a1 ++ a2 -> a2 <> [] -> strip_prefix w (a2 ++ tail) = None.
Proof.
  intros H a1 a2 tail E Hn. pose proof (never_suffix _ _ H a1 a2 tail E Hn) as X.
  simpl in X. now destruct (strip_prefix w (a2 ++ tail)).
Qed.

(** ** The scan *)

Lemma findall_from_skip p a b :
  findall_from p (length a) (a ++ b) = findall_from p 0 b.
Proof. induction a as [|x a IH]; [reflexivity|]. simpl. exact IH. Qed.

Lemma findall_never p a b :
  never p a -> findall_from p 0 (a ++ b) = findall_from p 0 b.
Proof.
  induction a as [|x a IH]; [reflexivity|]. intros [H1 H2].
  cbn [app findall_from]. change (x :: a ++ b) with ((x :: a) ++ b).
  rewrite H1. now apply IH.
Qed.

Lemma findall_match p m rest caps :
  m <> [] -> run p (m ++ rest) [] [] = Some (caps, rest) ->
  findall_from p 0 (m ++ rest) = caps :: findall_from p 0 rest.
Proof.
  destruct m as [|x m]; [congruence|]. intros _ H.
  cbn [app findall_from]. change (x :: m ++ rest) with ((x :: m) ++ rest).
  rewrite H. f_equal.
  rewrite length_app. replace (length m + length rest - length rest) with (length m) by lia.
  apply findall_from_skip.
Qed.

Lemma findall_from_In p : forall s skip caps,
  In caps (findall_from p skip s) ->
  exists s' rest, run p s' [] [] = Some (caps, rest).
Proof.
  induction s as [|x s IH]; intros skip caps; simpl.
  - destruct skip; [|intros []].
    destruct (run p [] [] []) as [[caps' rest]|] eqn:E; [|intros []].
    intros [<-|[]]. eauto.
  - destruct skip as [|n]; [|apply IH].
    destruct (run p (x :: s) [] []) as [[caps' rest]|] eqn:E; [|apply IH].
    intros [<-|H]; [eauto|]. now apply IH in H.
Qed.

(** ** Tags: a name up to a closing character, a body up to a closing
    literal *)

Lemma run_open p s st caps :
  run (Open :: p) s st caps = run p s (s :: st) caps.
Proof. reflexivity. Qed.

Lemma run_plus c p y s st caps :
  c y = true ->
  run (Plus c :: p) (y :: s) st caps
  = greedy_star c (fun s' => run p s' st caps) s.
Proof. intro H. simpl. now rewrite H. Qed.

Lemma run_lazy c p s st caps :
  run (Lazy c :: p) s st caps = lazy_star c (fun s' => run p s' st caps) s.
Proof. reflexivity. Qed.

Lemma run_star c p s st caps :
  run (Star c :: p) s st caps = greedy_star c (fun s' => run p s' st caps) s.
Proof. reflexivity. Qed.

Lemma run_tag x B C tailp (nm body after : str) res :
  nm <> [] -> forallb (other_than x) nm = true ->
  never [Lit C] body ->
  run tailp after [] [body; nm] = Some res ->
  run (Open :: Plus (other_than x) :: Close :: Lit (x :: B) :: Open :: Lazy any
       :: Close :: Lit C :: tailp)
      (nm ++ (x :: B) ++ body ++ C ++ after) [] []
  = Some res.
Proof.
  intros Hn Hx Hb Ht.
  destruct nm as [|y nm]; [congruence|]. simpl in Hx.
  apply andb_true_iff in Hx as [Hy Hx].
  rewrite run_open. cbn [app]. rewrite (run_plus _ _ _ _ _ _ Hy).
  apply greedy_star_max;
    [assumption|simpl; unfold other_than; now rewrite N.eqb_refl|].
  cbv beta.
  change (y :: nm ++ x :: B ++ body ++ C ++ after)
    with ((y :: nm) ++ x :: B ++ body ++ C ++ after).
  rewrite run_close.
  change (x :: B ++ body ++ C ++ after) with ((x :: B) ++ body ++ C ++ after).
  rewrite run_lit, run_open, run_lazy.
  rewrite lazy_star_skip.
  - apply lazy_star_now. rewrite run_close, run_lit. exact Ht.
  - apply forallb_any.
  - intros a1 a2 E Hne. simpl.
    now rewrite (never_lit_prefix _ _ Hb a1 a2 (C ++ after) E Hne).
Qed.

(** ** Loops *)

Lemma for_each_Return {A B} (f : A -> result B) l l' :
  for_each f l = Return l' -> Forall2 (fun a b => f a = Return b) l l'.
Proof.
  revert l'; induction l as [|a l IH]; intros l'; simpl.
  - intros [= <-]. constructor.
  - destruct (f a) as [b|e] eqn:E; [|discriminate]. simpl.
    destruct (for_each f l) as [bs|e]; [|discriminate]. simpl.
    intros [= <-]. constructor; auto.
Qed.

Lemma for_each_total {A B} (f : A -> result B) l :
  (forall a, In a l -> exists b, f a = Return b) ->
  exists l', for_each f l = Return l'.
Proof.
  induction l as [|a l IH]; intro H; simpl; [eauto|].
  destruct (H a (or_introl eq_refl)) as [b ->]. simpl.
  destruct IH as [bs ->]; [intros; apply H; now right|]. simpl. eauto.
Qed.

Lemma for_each_Raise {A B} (f : A -> result B) l a e :
  In a l -> f a = Raise e -> exists e', for_each f l = Raise e'.
Proof.
  induction l as [|x l IH]; [intros []|]. intros [->|Hin] He; simpl.
  - rewrite He. simpl. eauto.
  - destruct (f x); simpl; [|eauto].
    destruct (IH Hin He) as [e' ->]. simpl. eauto.
Qed.

Lemma Forall2_In_l {A B} (P : A -> B -> Prop) l l' a :
  Forall2 P l l' -> In a l -> exists b, In b l' /\ P a b.
Proof.
  induction 1 as [|x y l l' Hxy _ IH]; [intros []|].
  intros [->|Hin]; [exists y; simpl; auto|].
  destruct (IH Hin) as (b & Hb & Pb). exists b. simpl. auto.
Qed.

Lemma Forall2_In_r {A B} (P : A -> B -> Prop) l l' b :
  Forall2 P l l' -> In b l' -> exists a, In a l /\ P a b.
Proof.
  induction 1 as [|x y l l' Hxy _ IH]; [intros []|].
  intros [->|Hin]; [exists x; simpl; auto|].
  destruct (IH Hin) as (a & Ha & Pa). exists a. simpl. auto.
Qed.

(** ** Records *)

Lemma new_ToolCall_dict n a :
  new_ToolCall (tool_call_dict n a)
  = Return {| function := {| name := n; arguments := a |} |}.
Proof. reflexivity. Qed.

Lemma embedded_block_loads b :
  embedded_block b =
  match loads b with
  | None => Raise JSONDecodeError
  | Some (VDict d) => Return (embedded_record d)
  | Some _ => Raise AttributeError
  end.
Proof.
  unfold embedded_block, json_loads.
  destruct (loads b) as [[ | | | | | |d]|]; try reflexivity.
  unfold get_or, embedded_record, bind.
  destruct (dict_get (lit "name") d) as [n|];
    destruct (dict_get (lit "arguments") d) as [[]|]; reflexivity.
Qed.

Lemma tagged_block_record pp block :
  tagged_block pp block
  = Return {| function :=
                {| name := VStr (fst block);
                   arguments :=
                     VStr (dumps (VDict (collect_parameters
                                           (findall2 pp (snd block))))) |} |}.
Proof. destruct block. reflexivity. Qed.

(** ** The groups of the embedded-JSON pattern *)

Lemma tool_call_group s caps rest :
  run tool_call_pattern s [] [] = Some (caps, rest) ->
  exists b, caps = [LBRACE :: b].
Proof.
  unfold tool_call_pattern. cbn [run].
  destruct (strip_prefix (lit "<tool_call>") s) as [s1|]; [|discriminate].
  intro H. apply greedy_star_Some in H as (s2 & H & _).
  destruct (strip_prefix (lit "{") s2) as [s3|] eqn:E3; [|discriminate].
  apply strip_prefix_Some in E3. subst s2.
  apply lazy_star_Some in H as (s4 & H & L4).
  destruct (strip_prefix (lit "}") s4) as [s5|] eqn:E5; [|discriminate].
  apply strip_prefix_Some in E5. subst s4.
  apply greedy_star_Some in H as (s6 & H & _).
  destruct (strip_prefix (lit "</tool_call>") s6) as [s7|]; [|discriminate].
  injection H as <- <-.
  simpl in L4. destruct (length s5) as [|l].
  - exists (firstn (length s3) s3). reflexivity.
  - destruct (length s3 - l) as [|m] eqn:Em; [lia|].
    exists (firstn m s3). reflexivity.
Qed.

Lemma tool_call_block text b :
  In b (findall1 tool_call_pattern text) -> exists b', b = LBRACE :: b'.
Proof.
  unfold findall1. intro H. apply in_map_iff in H as (caps & <- & H).
  apply findall_from_In in H as (s' & rest & H).
  apply tool_call_group in H as (b' & ->). simpl. eauto.
Qed.


(** The loop keeps the records of the blocks that parse, in order, and logs
    the others. *)
Lemma embedded_loop_blocks blocks :
  (forall b, In b blocks -> exists b', b = LBRACE :: b') ->
  forall tool_calls log,
    embedded_loop blocks tool_calls log
    = Return (tool_calls
              ++ flat_map (fun b => match embedded_block b with
                                    | Return t => [t]
                                    | Raise _ => []
                                    end) blocks,
              log ++ filter (fun b => match loads b with
                                      | None => true
                                      | Some _ => false
                                      end) blocks).
Proof.
  induction blocks as [|b blocks IH]; intros H tool_calls log.
  - simpl. now rewrite !app_nil_r.
  - cbn [embedded_loop flat_map filter].
    destruct (H b (or_introl eq_refl)) as [b' ->].
    rewrite embedded_block_loads.
    destruct (loads (LBRACE :: b')) as [v|] eqn:E.
    + apply loads_object in E as (d & ->).
      rewrite IH by (intros; apply H; now right).
      now rewrite <- app_assoc.
    + rewrite IH by (intros; apply H; now right).
      now rewrite <- app_assoc.
Qed.

Lemma from_xml_logged_embedded text :
  findall1 tool_call_pattern text <> [] ->
  from_xml_logged text
  = Return (flat_map (fun b => match embedded_block b with
                               | Return t => [t]
                               | Raise _ => []
                               end) (findall1 tool_call_pattern text),
            filter (fun b => match loads b with
                             | None => true
                             | Some _ => false
                             end) (findall1 tool_call_pattern text)).
Proof.
  intro H. unfold from_xml_logged.
  pose proof (embedded_loop_blocks (findall1 tool_call_pattern text)
                (tool_call_block text) [] []) as E.
  destruct (findall1 tool_call_pattern text); [congruence|exact E].
Qed.

Lemma tagged_blocks_total pp blocks :
  for_each (tagged_block pp) blocks
  = Return (map (fun block =>
                   {| function :=
                        {| name := VStr (fst block);
                           arguments :=
                             VStr (dumps (VDict (collect_parameters
                                                   (findall2 pp (snd block))))) |} |})
              blocks).
Proof.
  induction blocks as [|b blocks IH]; [reflexivity|].
  cbn [for_each map]. rewrite tagged_block_record, IH. reflexivity.
Qed.

(** ** The claims on [from_xml] *)

(** C3. [from_xml] commits to one convention: when the embedded-JSON pattern
    matches anywhere, the records are those of the embedded-JSON blocks alone;
    the tagged-function convention is read only when the embedded-JSON pattern
    matches nowhere, and the invoke convention only when neither matches. *)
Theorem from_xml_one_convention (text : str) :
  (findall1 tool_call_pattern text <> [] ->
   from_xml text = decode_with EmbeddedJSON text)
  /\ (findall1 tool_call_pattern text = [] ->
      findall2 qwen_tool_call_pattern text <> [] ->
      from_xml text = decode_with TaggedFunction text)
  /\ (findall1 tool_call_pattern text = [] ->
      findall2 qwen_tool_call_pattern text = [] ->
      from_xml text = decode_with Invoke text).
Proof.
  unfold from_xml, from_xml_logged, decode_with.
  repeat split.
  - intro H. destruct (findall1 tool_call_pattern text); [congruence|reflexivity].
  - intros -> H.
    destruct (findall2 qwen_tool_call_pattern text); [congruence|].
    now rewrite !tagged_blocks_total.
  - intros -> ->. now rewrite tagged_blocks_total.
Qed.

(** The text of the spec's example: an embedded-JSON block and an unrelated
    invoke block. *)
Example from_xml_mixed_text :
  from_xml (qlit "<tool_call>{'name': 'f', 'arguments': {'a': 1}}</tool_call>
<invoke name='g'><parameter name='x'>2</parameter></invoke>")
  = Return [tool_call (lit "f") (qlit "{'a': 1}")].
Proof. vm_compute. reflexivity. Qed.


(** The spec's example: one malformed and one well-formed block. *)
Example from_xml_one_malformed :
  from_xml_logged (qlit "<tool_call>{'name': 'f', 'arguments': }</tool_call>
<tool_call>{'name': 'g', 'arguments': {'x': [1, 2]}}</tool_call>")
  = Return ([tool_call (lit "g") (qlit "{'x': [1, 2]}")],
            [qlit "{'name': 'f', 'arguments': }"]).
Proof. vm_compute. reflexivity. Qed.



(** ** Parameters *)






(** The spec's examples: [[1,2,3]] is read as a list, [hello] stays a
    string, in both conventions. *)
Example coerce_param_list :
  coerce_param (lit " [1,2,3] ") = VList [VInt 1; VInt 2; VInt 3].
Proof. vm_compute. reflexivity. Qed.

Example coerce_param_string : coerce_param (lit "hello") = VStr (lit "hello").
Proof. vm_compute. reflexivity. Qed.

Example from_xml_invoke_values :
  from_xml (qlit "<invoke name='g'><parameter name='x'>[1,2,3]</parameter><parameter name='y'>hello</parameter></invoke>")
  = Return [tool_call (lit "g") (qlit "{'x': [1, 2, 3], 'y': 'hello'}")].
Proof. vm_compute. reflexivity. Qed.

Example from_xml_tagged_values :
  from_xml (qlit "<tool_call>
<function=g>
<parameter=x>
[1,2,3]
</parameter>
<parameter=y>
hello
</parameter>
</function>
</tool_call>")
  = Return [tool_call (lit "g") (qlit "{'x': [1, 2, 3], 'y': 'hello'}")].
Proof. vm_compute. reflexivity. Qed.

(** ** [from_json] *)

Lemma from_json_loads s :
  from_json s =
  match loads s with
  | None => Raise JSONDecodeError
  | Some parsed =>
      if is_flat parsed then
        match parsed with
        | VDict d =>
            match dict_get (lit "name") d, dict_get (lit "arguments") d with
            | Some n, Some a =>
                Return [{| function :=
                             {| name := n;
                                arguments := if is_dict a then VStr (dumps a) else a |} |}]
            | _, _ => Return []
            end
        | _ => Return []
        end
      else
        tool_calls <- for_each dump_arguments (elements parsed) ;;
        for_each construct tool_calls
  end.
Proof.
  unfold from_json, json_loads.
  destruct (loads s) as [parsed|]; [|reflexivity]. cbn [bind].
  destruct parsed as [ | | | | | |d]; try reflexivity.
  unfold is_flat, dict_mem.
  destruct (dict_get (lit "name") d) as [n|]; [|reflexivity].
  destruct (dict_get (lit "arguments") d) as [a|]; [|reflexivity].
  cbn [andb]. rewrite new_ToolCall_dict. reflexivity.
Qed.

Lemma dict_mem_get k d : dict_mem k d = true <-> exists v, dict_get k d = Some v.
Proof.
  unfold dict_mem. destruct (dict_get k d); split; eauto; try discriminate.
  now intros [v [=]].
Qed.

(** What lines 72-74 leave of a well-formed element. *)
Lemma dump_arguments_Return e e' :
  dump_arguments e = Return e' ->
  exists d f a,
    e = VDict d /\ dict_get (lit "function") d = Some (VDict f)
    /\ dict_get (lit "arguments") f = Some a
    /\ e' = VDict (dict_set (lit "function")
                     (VDict (dict_set (lit "arguments") (VStr (dumps a)) f)) d).
Proof.
  unfold dump_arguments, getitem, bind.
  destruct e as [ | | | | | |d]; try discriminate.
  destruct (dict_get (lit "function") d) as [fv|] eqn:Ef; [|discriminate].
  destruct fv as [ | | | | | |f]; try discriminate.
  destruct (dict_get (lit "arguments") f) as [a|] eqn:Ea; [|discriminate].
  intros [= <-]. exists d, f, a. auto.
Qed.

Lemma construct_dumped d f a :
  construct (VDict (dict_set (lit "function")
                      (VDict (dict_set (lit "arguments") (VStr (dumps a)) f)) d))
  = match dict_get (lit "name") f with
    | Some n =>
        Return {| function := {| name := n; arguments := VStr (dumps a) |} |}
    | None => Raise ValidationError
    end.
Proof.
  unfold construct, new_ToolCall.
  rewrite dict_get_set_same, dict_get_set_same.
  rewrite dict_get_set_other by (intro H; discriminate H).
  reflexivity.
Qed.

(** C5. [from_json] fails on text that is not JSON, with [JSONDecodeError],
    and fails whenever an element of the nested dialect is without
    [function], or its [function] mapping is without [name] or [arguments]:
    no record is returned for the other elements. *)
Theorem from_json_strict (s : str) :
  (loads s = None -> from_json s = Raise JSONDecodeError)
  /\ (forall parsed,
        loads s = Some parsed -> is_flat parsed = false ->
        existsb lacks_field (elements parsed) = true ->
        exists e, from_json s = Raise e).
Proof.
  rewrite from_json_loads. split.
  - now intros ->.
  - intros parsed -> -> H.
    apply existsb_exists in H as (el & Hin & Hl).
    destruct (for_each dump_arguments (elements parsed)) as [tool_calls|e] eqn:E;
      [|cbn [bind]; eauto].
    cbn [bind]. apply for_each_Return in E.
    destruct (Forall2_In_l _ _ _ _ E Hin) as (el' & Hin' & Hd).
    apply dump_arguments_Return in Hd as (d & f & a & -> & Ef & Ea & ->).
    apply (for_each_Raise construct _ _ ValidationError Hin').
    rewrite construct_dumped.
    unfold lacks_field in Hl. rewrite Ef in Hl. unfold dict_mem in Hl.
    rewrite Ea in Hl. destruct (dict_get (lit "name") f); [discriminate|reflexivity].
Qed.

Example from_json_not_json :
  from_json (qlit "[{'function': {'name': 'f', 'arguments': {}}") = Raise JSONDecodeError.
Proof. vm_compute. reflexivity. Qed.

Example from_json_no_function :
  from_json (qlit "[{'function': {'name': 'f', 'arguments': {}}}, {'id': 1}]")
  = Raise KeyError.
Proof. vm_compute. reflexivity. Qed.

Example from_json_no_arguments :
  from_json (qlit "[{'function': {'name': 'f'}}]") = Raise KeyError.
Proof. vm_compute. reflexivity. Qed.

Example from_json_no_name :
  from_json (qlit "[{'function': {'arguments': {}}}]") = Raise ValidationError.
Proof. vm_compute. reflexivity. Qed.




(** ** Valid JSON text *)

Lemma valid_dumps v : well_formed v = true -> valid_json_text (VStr (dumps v)) = true.
Proof.
  intro H. destruct (loads_dumps v H) as (v' & E & _). simpl. now rewrite E.
Qed.

Lemma well_formed_In x l : well_formed (VList l) = true -> In x l -> well_formed x = true.
Proof. simpl. rewrite forallb_forall. auto. Qed.

Lemma well_formed_elements parsed e :
  well_formed parsed = true -> In e (elements parsed) -> well_formed e = true.
Proof.
  intros H Hin. destruct parsed; simpl in Hin;
    try (destruct Hin as [<-|[]]; exact H).
  now apply (well_formed_In e l).
Qed.

Lemma well_formed_coerce raw : well_formed (coerce_param raw) = true.
Proof.
  unfold coerce_param. destruct (loads (strip raw)) eqn:E; [|reflexivity].
  now apply loads_well_formed in E.
Qed.

Lemma well_formed_parameters params :
  well_formed (VDict (collect_parameters params)) = true.
Proof.
  unfold collect_parameters.
  assert (forall d, well_formed (VDict d) = true ->
                    well_formed
                      (VDict (fold_left
                                (fun parameters p =>
                                   dict_set (fst p) (coerce_param (snd p)) parameters)
                                params d)) = true) as G.
  { induction params as [|p params IH]; intros d H; [exact H|].
    cbn [fold_left]. apply IH. apply well_formed_dict_set; [assumption|].
    apply well_formed_coerce. }
  now apply G.
Qed.

(** The records of the nested dialect. *)
Lemma nested_records l tool_calls :
  Forall (fun e => well_formed e = true) l ->
  (tool_calls' <- for_each dump_arguments l ;; for_each construct tool_calls')
  = Return tool_calls ->
  Forall2 (fun e t =>
             field (lit "name") e = Some (name (function t))
             /\ exists a, field (lit "arguments") e = Some a
                          /\ arguments (function t) = VStr (dumps a)
                          /\ valid_json_text (VStr (dumps a)) = true)
    l tool_calls.
Proof.
  intros Hwf H.
  destruct (for_each dump_arguments l) as [dumped|] eqn:E; [|discriminate].
  cbn [bind] in H. apply for_each_Return in E, H.
  revert tool_calls H. induction E as [|e e' l l' He _ IH]; intros tool_calls H.
  - inversion H. constructor.
  - inversion H as [|? t ? ts Ht Hts]; subst.
    apply Forall_cons_iff in Hwf as [We Wl].
    constructor; [|now apply IH].
    apply dump_arguments_Return in He as (d & f & a & -> & Ef & Ea & ->).
    rewrite construct_dumped in Ht.
    destruct (dict_get (lit "name") f) as [n|] eqn:En; [|discriminate].
    injection Ht as <-. unfold field. rewrite Ef. cbn [function name arguments].
    split; [assumption|]. exists a. split; [assumption|]. split; [reflexivity|].
    apply valid_dumps.
    apply (well_formed_dict_get (lit "arguments") a f); [|assumption].
    now apply (well_formed_dict_get (lit "function") (VDict f) d).
Qed.

Lemma nested_total l :
  forallb nested_element l = true ->
  exists tool_calls,
    (tool_calls' <- for_each dump_arguments l ;; for_each construct tool_calls')
    = Return tool_calls.
Proof.
  induction l as [|e l IH]; intro H; [now exists []|].
  simpl in H. apply andb_true_iff in H as [He Hl].
  destruct (IH Hl) as [ts Hts].
  unfold nested_element, field in He.
  destruct e as [ | | | | | |d]; try discriminate.
  destruct (dict_get (lit "function") d) as [[ | | | | | |f]|] eqn:Ef;
    try discriminate.
  destruct (dict_get (lit "name") f) as [n|] eqn:En; [|discriminate].
  destruct (dict_get (lit "arguments") f) as [a|] eqn:Ea; [|discriminate].
  assert (dump_arguments (VDict d)
          = Return (VDict (dict_set (lit "function")
                             (VDict (dict_set (lit "arguments") (VStr (dumps a)) f)) d)))
    as Ed.
  { unfold dump_arguments, getitem, bind. now rewrite Ef, Ea. }
  cbn [for_each]. rewrite Ed. cbn [bind].
  destruct (for_each dump_arguments l) as [dumped|]; [|discriminate].
  cbn [bind for_each] in *. rewrite construct_dumped, En. cbn [bind].
  rewrite Hts. cbn [bind]. eauto.
Qed.

(** C8. A nested-dialect array whose elements each hold a [function] mapping
    with [name] and [arguments] gives one record per element, in order: the
    record has the element's name, and as arguments the serialization of the
    element's arguments, which is valid JSON text.  The empty array gives the
    empty list. *)
Theorem from_json_nested_array (s : str) (l : list value) :
  loads s = Some (VList l) ->
  forallb nested_element l = true ->
  exists tool_calls,
    from_json s = Return tool_calls
    /\ Forall2 (fun e t =>
                  field (lit "name") e = Some (name (function t))
                  /\ exists a, field (lit "arguments") e = Some a
                               /\ arguments (function t) = VStr (dumps a)
                               /\ valid_json_text (VStr (dumps a)) = true)
         l tool_calls
    /\ from_json (lit "[]") = Return [].
Proof.
  intros Hl Hn. rewrite from_json_loads, Hl. cbn [is_flat elements].
  destruct (nested_total l Hn) as [tool_calls E]. exists tool_calls.
  split; [assumption|]. split; [|reflexivity].
  apply nested_records; [|assumption].
  apply Forall_forall. intros e He.
  apply (well_formed_In e l); [|assumption]. now apply loads_well_formed in Hl.
Qed.

Lemma from_json_nested_array_witness :
  exists tool_calls,
    from_json (qlit "[{'function': {'name': 'f', 'arguments': {'a': [1.5, 'x']}}},
 {'function': {'name': 'g', 'arguments': 'text'}, 'id': 'c1'}]")
    = Return tool_calls
    /\ Forall2 (fun e t =>
                  field (lit "name") e = Some (name (function t))
                  /\ exists a, field (lit "arguments") e = Some a
                               /\ arguments (function t) = VStr (dumps a)
                               /\ valid_json_text (VStr (dumps a)) = true)
         [VDict [(lit "function",
                  VDict [(lit "name", VStr (lit "f"));
                         (lit "arguments",
                          VDict [(lit "a", VList [VFloat (lit "1.5"); VStr (lit "x")])])])];
          VDict [(lit "function",
                  VDict [(lit "name", VStr (lit "g"));
                         (lit "arguments", VStr (lit "text"))]);
                 (lit "id", VStr (lit "c1"))]]
         tool_calls
    /\ from_json (lit "[]") = Return [].
Proof.
  apply (from_json_nested_array (qlit "[{'function': {'name': 'f', 'arguments': {'a': [1.5, 'x']}}},
 {'function': {'name': 'g', 'arguments': 'text'}, 'id': 'c1'}]"));
    vm_compute; reflexivity.
Defined.

(** ** The invariant on [arguments] *)

(** C1, as the claim states it, fails: the flat dialect hands a string
    [arguments] on as it is, JSON or not. *)
Lemma from_json_passes_text_through :
  from_json (qlit "{'name':'f','arguments':'hello'}")
  = Return [tool_call (lit "f") (lit "hello")]
  /\ loads (lit "hello") = None
  /\ valid_json_text (arguments (function (tool_call (lit "f") (lit "hello")))) = false.
Proof. vm_compute. repeat split. Qed.

(** The same in the embedded-JSON convention of [from_xml]. *)
Example from_xml_passes_text_through :
  from_xml (qlit "<tool_call>{'name':'f','arguments':'hello'}</tool_call>")
  = Return [tool_call (lit "f") (lit "hello")].
Proof. vm_compute. reflexivity. Qed.

(** C1, amended. The arguments of a record of [from_json] are valid JSON
    text, unless the input is a flat object whose [arguments] is not a
    mapping: then they are that value, unchanged.  The arguments of a record
    of [from_xml] are valid JSON text, unless the record comes from an
    embedded-JSON block whose [arguments] is a string: then they are that
    string, unchanged. *)
Theorem arguments_valid_or_passed_through (s : str) :
  (forall tool_calls t,
     from_json s = Return tool_calls -> In t tool_calls ->
     valid_json_text (arguments (function t)) = true
     \/ exists d a,
          loads s = Some (VDict d) /\ dict_mem (lit "name") d = true
          /\ dict_get (lit "arguments") d = Some a /\ is_dict a = false
          /\ arguments (function t) = a)
  /\ (forall tool_calls t,
        from_xml s = Return tool_calls -> In t tool_calls ->
        valid_json_text (arguments (function t)) = true
        \/ exists b d a,
             In b (findall1 tool_call_pattern s) /\ loads b = Some (VDict d)
             /\ dict_get (lit "arguments") d = Some (VStr a)
             /\ arguments (function t) = VStr a).
Proof.
  split; intros tool_calls t H Hin.
  - rewrite from_json_loads in H.
    destruct (loads s) as [parsed|] eqn:El; [|discriminate].
    pose proof (loads_well_formed _ _ El) as W.
    destruct (is_flat parsed) eqn:Ef.
    + destruct parsed as [ | | | | | |d]; try discriminate.
      unfold is_flat in Ef. apply andb_true_iff in Ef as [Hn Ha].
      unfold dict_mem in Ha, Hn.
      destruct (dict_get (lit "name") d) as [n|] eqn:En; [|discriminate].
      destruct (dict_get (lit "arguments") d) as [a|] eqn:Ea; [|discriminate].
      injection H as <-. destruct Hin as [<-|[]]. cbn [function arguments].
      destruct (is_dict a) eqn:Ed.
      * left. apply valid_dumps. now apply (well_formed_dict_get (lit "arguments") a d).
      * right. exists d, a. unfold dict_mem. rewrite En. auto.
    + left. apply nested_records in H.
      * destruct (Forall2_In_r _ _ _ _ H Hin) as (e & _ & _ & a & _ & -> & V).
        exact V.
      * apply Forall_forall. intros e He. now apply (well_formed_elements parsed).
  - unfold from_xml in H.
    destruct (findall1 tool_call_pattern s) as [|b0 bs] eqn:E1.
    + assert (exists pp blocks,
                 tool_calls
                 = map (fun block =>
                          {| function :=
                               {| name := VStr (fst block);
                                  arguments :=
                                    VStr (dumps (VDict (collect_parameters
                                                          (findall2 pp (snd block))))) |} |})
                     blocks) as (pp & blocks & ->).
      { unfold from_xml_logged in H. rewrite E1 in H.
        destruct (findall2 qwen_tool_call_pattern s) as [|q qs];
          rewrite tagged_blocks_total in H; cbn [bind fst] in H;
          injection H as <-.
        - now exists param_pattern, (findall2 invoke_pattern s).
        - now exists qwen_param_pattern, (q :: qs). }
      apply in_map_iff in Hin as (block & <- & _). left. cbn [function arguments].
      apply valid_dumps, well_formed_parameters.
    + rewrite from_xml_logged_embedded in H by (rewrite E1; discriminate).
      cbn [bind fst] in H. injection H as <-.
      apply in_flat_map in Hin as (b & Hb & Ht).
      rewrite embedded_block_loads in Ht.
      destruct (loads b) as [[ | | | | | |d]|] eqn:El; try contradiction.
      destruct Ht as [<-|[]].
      pose proof (loads_well_formed _ _ El) as W.
      unfold embedded_record. cbn [function arguments].
      destruct (dict_get (lit "arguments") d) as [a|] eqn:Ea.
      * assert (well_formed a = true) as Wa
            by now apply (well_formed_dict_get (lit "arguments") a d).
        destruct a; try (left; now apply valid_dumps).
        right. rewrite <- E1. eauto 8.
      * left. reflexivity.
Qed.

Example from_json_nested_text :
  from_json (qlit "[{'function': {'name': 'f', 'arguments': 'hello'}}]")
  = Return [tool_call (lit "f") (qlit "'hello'")].
Proof. vm_compute. reflexivity. Qed.

(** ** Empty output *)





Lemma xml_block_str format n a :
  xml_block format {| function := {| name := n; arguments := VStr a |} |}
  = match loads a with
    | None => Raise JSONDecodeError
    | Some (VDict d) =>
        Return (join [NL] (if str_eqb format (lit "qwen")
                           then qwen_lines n d else invoke_lines n d))
    | Some _ => Raise AttributeError
    end.
Proof.
  unfold xml_block, json_loads_obj, json_loads. cbn [function arguments name].
  destruct (loads a) as [[ | | | | | |d]|]; cbn [bind items];
    destruct (str_eqb format (lit "qwen")); reflexivity.
Qed.


(** The loop keeps the blocks of the records whose arguments are the text
    of a mapping, in order. *)
Lemma xml_loop_blocks format tool_calls :
  forallb str_arguments tool_calls = true ->
  forall xml_parts log, exists log',
    xml_loop format tool_calls xml_parts log
    = Return (xml_parts
              ++ flat_map (fun t => match xml_block format t with
                                    | Return b => [b]
                                    | Raise _ => []
                                    end) tool_calls,
              log').
Proof.
  induction tool_calls as [|t tool_calls IH]; intros H xml_parts log.
  - exists log. simpl. now rewrite app_nil_r.
  - simpl in H. apply andb_true_iff in H as [Ht H].
    destruct t as [[n a]]. unfold str_arguments in Ht. cbn in Ht.
    destruct a; try discriminate.
    cbn [xml_loop flat_map]. rewrite xml_block_str.
    destruct (loads s) as [[ | | | | | |d]|];
      try (destruct (IH H xml_parts
                       (log ++ [{| function := {| name := n; arguments := VStr s |} |}]))
            as [log' ->]; eauto).
    destruct (IH H (xml_parts
                    ++ [join [NL] (if str_eqb format (lit "qwen")
                                   then qwen_lines n d else invoke_lines n d)]) log)
      as [log' ->].
    exists log'. now rewrite <- app_assoc.
Qed.

Lemma to_xml_blocks format tool_calls :
  forallb str_arguments tool_calls = true ->
  to_xml tool_calls format
  = Return (join [NL] (flat_map (fun t => match xml_block format t with
                                          | Return b => [b]
                                          | Raise _ => []
                                          end) tool_calls)).
Proof.
  intro H. unfold to_xml, to_xml_logged.
  destruct tool_calls as [|t tool_calls]; [reflexivity|].
  destruct (xml_loop_blocks format (t :: tool_calls) H [] []) as [log' ->].
  reflexivity.
Qed.




Example to_json_empty : to_json [] = Return [].
Proof. reflexivity. Qed.

Example to_xml_one_record :
  to_xml [tool_call (lit "f") (lit "not json"); tool_call (lit "g") (qlit "{'a': [1]}")]
    (lit "claude")
  = Return (qlit "<invoke name='g'>
<parameter name='a'>[1]</parameter>
</invoke>").
Proof. vm_compute. reflexivity. Qed.

(** ** Lines *)

Ltac normalize_app :=
  repeat (rewrite <- app_assoc || rewrite <- app_comm_cons
          || rewrite app_nil_r || rewrite app_nil_l).

Lemma join_last (l : list str) (z : str) :
  join [NL] (l ++ [z]) = flat_map (fun x => x ++ [NL]) l ++ z.
Proof.
  induction l as [|x l IH]; [reflexivity|].
  cbn [app flat_map]. rewrite <- app_assoc, <- IH.
  destruct (l ++ [z]) eqn:E; [now destruct l|].
  now rewrite <- app_assoc.
Qed.

Lemma invoke_text (n : str) (d : dict) :
  join [NL] (invoke_lines (VStr n) d)
  = qlit "<invoke name='" ++ n ++ qlit "'>" ++ block_body claude_parameter d
    ++ lit "</invoke>".
Proof.
  unfold invoke_lines, block_body. cbn [py_str].
  change ([?x] ++ ?l) with (x :: l).
  rewrite app_comm_cons, join_last. cbn [flat_map].
  rewrite flat_map_concat_map, map_map, <- flat_map_concat_map.
  rewrite <- !app_assoc. reflexivity.
Qed.

Lemma qwen_text (n : str) (d : dict) :
  join [NL] (qwen_lines (VStr n) d)
  = lit "<tool_call>" ++ NL :: lit "<function=" ++ n ++ lit ">"
    ++ block_body qwen_parameter d
    ++ lit "</function>" ++ NL :: lit "</tool_call>".
Proof.
  unfold qwen_lines, block_body. cbn [py_str].
  change ([lit "</function>"; lit "</tool_call>"])
    with ([lit "</function>"] ++ [lit "</tool_call>"]).
  rewrite !app_assoc, join_last, <- !app_assoc.
  rewrite flat_map_app. cbn [app flat_map]. rewrite <- !app_assoc.
  rewrite flat_map_app. cbn [flat_map app].
  assert (flat_map (fun x : list char => x ++ [NL])
            (flat_map (fun p : str * value =>
                         [lit "<parameter=" ++ fst p ++ lit ">";
                          value_str (snd p); lit "</parameter>"]) d)
          = flat_map (fun p => qwen_parameter p ++ [NL]) d) as ->.
  { induction d as [|p d IH]; [reflexivity|].
    cbn [flat_map]. rewrite flat_map_app, IH. unfold qwen_parameter.
    cbn [flat_map]. now normalize_app. }
  now normalize_app.
Qed.

(** ** Scanning generated text *)

Lemma findall_end p : run p [] [] [] = None -> findall_from p 0 [] = [].
Proof. intro H. simpl. now rewrite H. Qed.

(** Blocks joined by newlines: one match for each block. *)
Lemma findall_joined {A} p (B : A -> str) (caps : A -> list str) R :
  (forall r after, In r R -> run p (B r ++ after) [] [] = Some (caps r, after)) ->
  (forall r, In r R -> B r <> []) ->
  never p [NL] -> run p [] [] [] = None ->
  findall_from p 0 (join [NL] (map B R)) = map caps R.
Proof.
  intros Hrun Hne Hnl Hend. induction R as [|r R IH]; [now apply findall_end|].
  assert (findall_from p 0 (join [NL] (map B R)) = map caps R) as IH'.
  { apply IH; intros; [apply Hrun|apply Hne]; now right. }
  clear IH. cbn [map]. destruct R as [|r' R].
  - cbn [map join]. rewrite <- (app_nil_r (B r)).
    rewrite (findall_match p (B r) [] (caps r)).
    + now rewrite findall_end.
    + apply Hne. now left.
    + apply Hrun. now left.
  - change (join [NL] (B r :: map B (r' :: R)))
      with (B r ++ [NL] ++ join [NL] (map B (r' :: R))).
    rewrite (findall_match p (B r) _ (caps r)).
    + now rewrite findall_never, IH'.
    + apply Hne. now left.
    + apply Hrun. now left.
Qed.

(** Lines each ended by a newline, after a first newline: one match for each
    line. *)
Lemma findall_terminated {A} p (P : A -> str) (caps : A -> list str) d :
  (forall x after, In x d -> run p (P x ++ after) [] [] = Some (caps x, after)) ->
  (forall x, In x d -> P x <> []) ->
  never p [NL] -> run p [] [] [] = None ->
  findall_from p 0 (NL :: flat_map (fun x => P x ++ [NL]) d) = map caps d.
Proof.
  intros Hrun Hne Hnl Hend.
  change (NL :: ?t) with ([NL] ++ t). rewrite findall_never by assumption.
  induction d as [|x d IH]; [now apply findall_end|].
  cbn [flat_map map]. rewrite <- app_assoc.
  rewrite (findall_match p (P x) _ (caps x)).
  - rewrite findall_never by assumption. f_equal.
    apply IH; intros; [apply Hrun|apply Hne]; now right.
  - apply Hne. now left.
  - apply Hrun. now left.
Qed.

Lemma never_joined {A} p (B : A -> str) R :
  (forall r, In r R -> never p (B r)) -> never p [NL] ->
  never p (join [NL] (map B R)).
Proof.
  intros H Hnl. induction R as [|r R IH]; [exact I|].
  assert (never p (join [NL] (map B R))) as IH' by (apply IH; intros; apply H; now right).
  cbn [map]. destruct R as [|r' R]; [apply H; now left|].
  change (join [NL] (B r :: map B (r' :: R)))
    with (B r ++ [NL] ++ join [NL] (map B (r' :: R))).
  apply never_app; [apply H; now left|]. now apply never_app.
Qed.

Lemma never_body p (parameter : str * value -> str) d :
  (forall x, In x d -> never p (parameter x)) -> never p [NL] ->
  never p (block_body parameter d).
Proof.
  intros H Hnl. unfold block_body. change (NL :: ?t) with ([NL] ++ t).
  apply never_app; [assumption|].
  induction d as [|x d IH]; [exact I|]. cbn [flat_map].
  apply never_app; [apply never_app; [apply H; now left|assumption]|].
  apply IH. intros; apply H; now right.
Qed.

(** ** Tags *)

Lemma tag_name_parts n :
  tag_name n = true ->
  n <> [] /\ forallb (other_than LT) n = true
  /\ forallb (other_than GT) n = true /\ forallb (other_than DQUOTE) n = true.
Proof.
  unfold tag_name. intro H. apply andb_true_iff in H as [Hn H]. split.
  - intros ->. discriminate.
  - clear Hn. induction n as [|c n IH]; [auto|]. simpl in H.
    apply andb_true_iff in H as [Hc H]. apply andb_true_iff in Hc as [Hc H3].
    apply andb_true_iff in Hc as [H1 H2]. destruct (IH H) as (I1 & I2 & I3).
    simpl. now rewrite H1, H2, H3, I1, I2, I3.
Qed.

(** A tag with a prefix, a name, a body and a closing literal, and nothing
    after it in the pattern. *)
Lemma run_tagged A x B C (nm body after : str) :
  nm <> [] -> forallb (other_than x) nm = true -> never [Lit C] body ->
  run [Lit A; Open; Plus (other_than x); Close; Lit (x :: B); Open; Lazy any;
       Close; Lit C]
    (A ++ nm ++ (x :: B) ++ body ++ C ++ after) [] []
  = Some ([nm; body], after).
Proof.
  intros Hn Hx Hb. rewrite run_lit. now apply run_tag.
Qed.

(** ** Patterns that match nowhere in generated text *)

Ltac never_in_literals :=
  repeat (apply Forall_cons || apply Forall_nil); vm_compute; repeat split.

Lemma avoids_literal p literals w : avoids p literals -> In w literals -> never p w.
Proof. intros [_ H] Hin. rewrite Forall_forall in H. auto. Qed.

Lemma avoids_sub p literals literals' :
  avoids p literals -> incl literals' literals -> avoids p literals'.
Proof.
  intros [H1 H2] Hi. split; [assumption|].
  rewrite Forall_forall in *. auto.
Qed.

Lemma safe_parameter_parts x :
  safe_parameter x = true ->
  tag_name (fst x) = true /\ forallb is_scalar (fst x) = true
  /\ forallb (other_than LT) (value_str (snd x)) = true
  /\ safe_value (snd x) = true.
Proof.
  unfold safe_parameter. intro H. apply andb_true_iff in H as [H H3].
  apply andb_true_iff in H as [H1 H2]. repeat split; try assumption.
  unfold safe_value in H3. apply andb_true_iff in H3 as [H3 _].
  now apply andb_true_iff in H3 as [H3 _].
Qed.

Lemma never_claude_parameter p x :
  avoids p claude_parameter_literals -> safe_parameter x = true ->
  never p (claude_parameter x).
Proof.
  intros Ha Hx. apply safe_parameter_parts in Hx as (Hk & _ & Hv & _).
  apply tag_name_parts in Hk as (_ & Hk & _).
  unfold claude_parameter. repeat apply never_app;
    try (apply (avoids_literal p _ _ Ha); simpl; tauto);
    now apply Ha.
Qed.

Lemma never_qwen_parameter p x :
  avoids p qwen_parameter_literals -> safe_parameter x = true ->
  never p (qwen_parameter x).
Proof.
  intros Ha Hx. apply safe_parameter_parts in Hx as (Hk & _ & Hv & _).
  apply tag_name_parts in Hk as (_ & Hk & _).
  unfold qwen_parameter. change (NL :: ?t) with ([NL] ++ t).
  repeat apply never_app;
    try (apply (avoids_literal p _ _ Ha); simpl; tauto);
    now apply Ha.
Qed.

Lemma safe_call_parts c :
  safe_call c = true ->
  tag_name (fst c) = true /\ forall x, In x (snd c) -> safe_parameter x = true.
Proof.
  unfold safe_call. intro H. apply andb_true_iff in H as [H1 H2].
  rewrite forallb_forall in H2. auto.
Qed.

Lemma never_claude_body p c :
  avoids p claude_parameter_literals -> safe_call c = true ->
  never p (block_body claude_parameter (snd c)).
Proof.
  intros Ha Hc. apply safe_call_parts in Hc as [_ Hd]. apply never_body.
  - intros x Hx. apply never_claude_parameter; auto.
  - apply (avoids_literal p _ _ Ha). simpl. tauto.
Qed.

Lemma never_qwen_body p c :
  avoids p qwen_parameter_literals -> safe_call c = true ->
  never p (block_body qwen_parameter (snd c)).
Proof.
  intros Ha Hc. apply safe_call_parts in Hc as [_ Hd]. apply never_body.
  - intros x Hx. apply never_qwen_parameter; auto.
  - apply (avoids_literal p _ _ Ha). simpl. tauto.
Qed.

Lemma never_claude_block p c :
  avoids p claude_literals -> safe_call c = true -> never p (claude_block c).
Proof.
  intros Ha Hc. pose proof Hc as Hc'. apply safe_call_parts in Hc' as [Hn _].
  apply tag_name_parts in Hn as (_ & Hn & _).
  unfold claude_block. repeat apply never_app;
    try (apply (avoids_literal p _ _ Ha); simpl; tauto).
  - now apply Ha.
  - apply never_claude_body; [|assumption].
    apply (avoids_sub p _ _ Ha). intros w Hw. now do 2 right.
Qed.

Lemma never_qwen_block p c :
  avoids p qwen_literals -> safe_call c = true -> never p (qwen_block c).
Proof.
  intros Ha Hc. pose proof Hc as Hc'. apply safe_call_parts in Hc' as [Hn _].
  apply tag_name_parts in Hn as (_ & Hn & _).
  unfold qwen_block.
  apply never_app; [apply (avoids_literal p _ _ Ha); simpl; tauto|].
  apply never_app; [now apply Ha|].
  apply never_app; [apply (avoids_literal p _ _ Ha); simpl; tauto|].
  apply never_app; [|apply (avoids_literal p _ _ Ha); simpl; tauto].
  apply never_qwen_body; [|assumption].
  apply (avoids_sub p _ _ Ha). intros w Hw. now do 2 right.
Qed.

Lemma findall_nowhere p (block : str * dict -> str) calls :
  (forall c, In c calls -> never p (block c)) -> never p [NL] ->
  run p [] [] [] = None ->
  findall_from p 0 (join [NL] (map block calls)) = [].
Proof.
  intros H Hnl Hend.
  rewrite <- (app_nil_r (join [NL] (map block calls))).
  rewrite findall_never by now apply never_joined.
  now apply findall_end.
Qed.

Lemma tool_call_pattern_claude : avoids tool_call_pattern claude_literals.
Proof.
  split; [intros a Ha; now apply (never_without LT (lit "tool_call>"))|].
  never_in_literals.
Qed.

Lemma qwen_tool_call_pattern_claude : avoids qwen_tool_call_pattern claude_literals.
Proof.
  split; [intros a Ha; now apply (never_without LT (lit "tool_call>"))|].
  never_in_literals.
Qed.

Lemma tool_call_pattern_qwen : avoids tool_call_pattern qwen_literals.
Proof.
  split; [intros a Ha; now apply (never_without LT (lit "tool_call>"))|].
  never_in_literals.
Qed.

Lemma invoke_end_claude : avoids [Lit (lit "</invoke>")] claude_parameter_literals.
Proof.
  split; [intros a Ha; now apply (never_without LT (lit "/invoke>"))|].
  never_in_literals.
Qed.

Lemma function_end_qwen : avoids [Lit (lit "</function>")] qwen_parameter_literals.
Proof.
  split; [intros a Ha; now apply (never_without LT (lit "/function>"))|].
  never_in_literals.
Qed.

(** ** The patterns on the blocks [to_xml] writes *)

Lemma run_param_pattern x after :
  safe_parameter x = true ->
  run param_pattern (claude_parameter x ++ after) [] []
  = Some ([fst x; value_str (snd x)], after).
Proof.
  intro Hx. apply safe_parameter_parts in Hx as (Hk & _ & Hv & _).
  apply tag_name_parts in Hk as (Hn & _ & _ & Hq).
  unfold claude_parameter. rewrite <- !app_assoc.
  apply (run_tagged (qlit "<parameter name='") DQUOTE [GT] (lit "</parameter>")
           (fst x) (value_str (snd x)) after Hn Hq).
  now apply (never_without LT (lit "/parameter>")).
Qed.

Lemma run_qwen_param_pattern x after :
  safe_parameter x = true ->
  run qwen_param_pattern (qwen_parameter x ++ after) [] []
  = Some ([fst x; NL :: value_str (snd x) ++ [NL]], after).
Proof.
  intro Hx. apply safe_parameter_parts in Hx as (Hk & _ & Hv & _).
  apply tag_name_parts in Hk as (Hn & _ & Hg & _).
  unfold qwen_parameter. rewrite <- !app_assoc.
  apply (run_tagged (lit "<parameter=") GT [] (lit "</parameter>")
           (fst x) (NL :: value_str (snd x) ++ [NL]) after Hn Hg).
  change (NL :: ?t) with ([NL] ++ t).
  apply never_app; [vm_compute; now repeat split|].
  apply never_app; [|vm_compute; now repeat split].
  now apply (never_without LT (lit "/parameter>")).
Qed.

Lemma run_invoke_pattern c after :
  safe_call c = true ->
  run invoke_pattern (claude_block c ++ after) [] []
  = Some ([fst c; block_body claude_parameter (snd c)], after).
Proof.
  intro Hc. pose proof Hc as Hc'. apply safe_call_parts in Hc' as [Hk _].
  apply tag_name_parts in Hk as (Hn & _ & _ & Hq).
  unfold claude_block. rewrite <- !app_assoc.
  apply (run_tagged (qlit "<invoke name='") DQUOTE [GT] (lit "</invoke>")
           (fst c) (block_body claude_parameter (snd c)) after Hn Hq).
  apply never_claude_body; [apply invoke_end_claude|assumption].
Qed.

Lemma run_qwen_tool_call_pattern c after :
  safe_call c = true ->
  run qwen_tool_call_pattern (qwen_block c ++ after) [] []
  = Some ([fst c; block_body qwen_parameter (snd c)], after).
Proof.
  intro Hc. pose proof Hc as Hc'. apply safe_call_parts in Hc' as [Hk _].
  apply tag_name_parts in Hk as (Hn & _ & Hg & _).
  unfold qwen_block, qwen_open, qwen_close, qwen_tool_call_pattern.
  rewrite <- !app_assoc. rewrite run_lit, run_star.
  change (NL :: ?t) with ([NL] ++ t).
  apply greedy_star_max with (a := [NL]); [reflexivity|reflexivity|]. cbv beta.
  rewrite run_lit.
  apply (run_tag GT [] (lit "</function>")
           [Star is_space; Lit (lit "</tool_call>")]
           (fst c) (block_body qwen_parameter (snd c))
           ([NL] ++ lit "</tool_call>" ++ after) _ Hn Hg).
  - apply never_qwen_body; [apply function_end_qwen|assumption].
  - rewrite run_star.
    apply greedy_star_max with (a := [NL]); [reflexivity|reflexivity|].
    cbv beta. now rewrite run_lit.
Qed.

Lemma claude_block_text c : claude_block c <> [].
Proof. destruct c. discriminate. Qed.

Lemma qwen_block_text c : qwen_block c <> [].
Proof. destruct c. discriminate. Qed.

Lemma claude_parameter_text x : claude_parameter x <> [].
Proof. destruct x. discriminate. Qed.

Lemma qwen_parameter_text x : qwen_parameter x <> [].
Proof. destruct x. discriminate. Qed.

(** What [from_xml] finds in the text of safe calls. *)
Lemma findall_claude_text calls :
  forallb safe_call calls = true ->
  findall2 invoke_pattern (join [NL] (map claude_block calls))
  = map (fun c => (fst c, block_body claude_parameter (snd c))) calls.
Proof.
  intro H. rewrite forallb_forall in H. unfold findall2.
  rewrite (findall_joined invoke_pattern claude_block
             (fun c => [fst c; block_body claude_parameter (snd c)])).
  - rewrite map_map. reflexivity.
  - intros c after Hc. apply run_invoke_pattern. auto.
  - intros c _. apply claude_block_text.
  - vm_compute. now repeat split.
  - reflexivity.
Qed.

Lemma findall_qwen_text calls :
  forallb safe_call calls = true ->
  findall2 qwen_tool_call_pattern (join [NL] (map qwen_block calls))
  = map (fun c => (fst c, block_body qwen_parameter (snd c))) calls.
Proof.
  intro H. rewrite forallb_forall in H. unfold findall2.
  rewrite (findall_joined qwen_tool_call_pattern qwen_block
             (fun c => [fst c; block_body qwen_parameter (snd c)])).
  - rewrite map_map. reflexivity.
  - intros c after Hc. apply run_qwen_tool_call_pattern. auto.
  - intros c _. apply qwen_block_text.
  - vm_compute. now repeat split.
  - reflexivity.
Qed.

Lemma findall_claude_body d :
  forallb safe_parameter d = true ->
  findall2 param_pattern (block_body claude_parameter d)
  = map (fun x => (fst x, value_str (snd x))) d.
Proof.
  intro H. rewrite forallb_forall in H. unfold findall2, block_body.
  rewrite (findall_terminated param_pattern claude_parameter
             (fun x => [fst x; value_str (snd x)])).
  - rewrite map_map. reflexivity.
  - intros x after Hx. apply run_param_pattern. auto.
  - intros x _. apply claude_parameter_text.
  - vm_compute. now repeat split.
  - reflexivity.
Qed.

Lemma findall_qwen_body d :
  forallb safe_parameter d = true ->
  findall2 qwen_param_pattern (block_body qwen_parameter d)
  = map (fun x => (fst x, NL :: value_str (snd x) ++ [NL])) d.
Proof.
  intro H. rewrite forallb_forall in H. unfold findall2, block_body.
  rewrite (findall_terminated qwen_param_pattern qwen_parameter
             (fun x => [fst x; NL :: value_str (snd x) ++ [NL]])).
  - rewrite map_map. reflexivity.
  - intros x after Hx. apply run_qwen_param_pattern. auto.
  - intros x _. apply qwen_parameter_text.
  - vm_compute. now repeat split.
  - reflexivity.
Qed.

(** ** Parameter values read back *)

Lemma lstrip_space_end x c :
  is_space c = true ->
  lstrip (x ++ [c]) = match lstrip x with [] => [] | y => y ++ [c] end.
Proof.
  intro Hc. induction x as [|a x IH]; simpl; [now rewrite Hc|].
  destruct (is_space a); [exact IH|reflexivity].
Qed.

Lemma rstrip_space_end s c : is_space c = true -> rstrip (s ++ [c]) = rstrip s.
Proof.
  intro Hc. unfold rstrip. rewrite rev_app_distr. simpl. now rewrite Hc.
Qed.

Lemma strip_line x : strip (NL :: x ++ [NL]) = strip x.
Proof.
  unfold strip. change (lstrip (NL :: x ++ [NL])) with (lstrip (x ++ [NL])).
  rewrite lstrip_space_end by reflexivity.
  destruct (lstrip x) as [|y l]; [reflexivity|].
  change (y :: l ++ [NL]) with ((y :: l) ++ [NL]).
  now apply rstrip_space_end.
Qed.

Lemma coerce_param_line x : coerce_param (NL :: x ++ [NL]) = coerce_param x.
Proof. unfold coerce_param. now rewrite strip_line. Qed.

Lemma coerce_param_safe v :
  well_formed v = true -> safe_value v = true -> coerce_param (value_str v) = v.
Proof.
  intros W H. unfold safe_value in H. apply andb_true_iff in H as [H Hs].
  apply andb_true_iff in H as [_ Hsc]. unfold coerce_param.
  destruct v as [ | b | z | t | s | l | d];
    try (cbn [value_str]; rewrite strip_dumps, loads_dumps_scalar; auto; fail).
  cbn [value_str]. apply andb_true_iff in Hs as [E Hl].
  apply str_eqb_eq in E. rewrite E.
  destruct (loads s); [discriminate|reflexivity].
Qed.

(** Distinct names, each read back as its value: the loop rebuilds the
    mapping. *)
Lemma collect_parameters_fresh (raw : str * value -> str) d :
  NoDup (map fst d) ->
  (forall x, In x d -> coerce_param (raw x) = snd x) ->
  collect_parameters (map (fun x => (fst x, raw x)) d) = d.
Proof.
  unfold collect_parameters. intros Hd Hc.
  assert (forall rest acc,
            NoDup (map fst (acc ++ rest)) ->
            (forall x, In x rest -> coerce_param (raw x) = snd x) ->
            fold_left (fun parameters (p : str * str) =>
                         dict_set (fst p) (coerce_param (snd p)) parameters)
              (map (fun x => (fst x, raw x)) rest) acc
            = acc ++ rest) as G.
  { induction rest as [|x rest IH]; intros acc Hn Hr; [now rewrite app_nil_r|].
    cbn [map fold_left fst snd].
    rewrite (Hr x (or_introl eq_refl)), dict_set_fresh.
    - rewrite IH.
      + now rewrite <- app_assoc, <- surjective_pairing.
      + now rewrite <- app_assoc, <- surjective_pairing.
      + intros y Hy. apply Hr. now right.
    - apply dict_get_None_keys. rewrite map_app in Hn. cbn [map] in Hn.
      apply NoDup_remove_2 in Hn. intro Hin. apply Hn, in_or_app. now left. }
  now apply (G d []).
Qed.

Lemma parameters_read_back (raw : str * value -> str) d :
  well_formed (VDict d) = true -> forallb safe_parameter d = true ->
  (forall x, coerce_param (raw x) = coerce_param (value_str (snd x))) ->
  collect_parameters (map (fun x => (fst x, raw x)) d) = d.
Proof.
  intros W Hs Hraw. simpl in W. apply andb_true_iff in W as [Wu Wv].
  rewrite forallb_forall in Wv, Hs.
  apply collect_parameters_fresh; [now apply unique_NoDup|].
  intros x Hx. rewrite Hraw. apply coerce_param_safe; [exact (Wv x Hx)|].
  now destruct (safe_parameter_parts x (Hs x Hx)) as (_ & _ & _ & Hv).
Qed.

Lemma scalar_text_safe d :
  forallb safe_parameter d = true -> scalar_text (VDict d) = true.
Proof.
  intro H. simpl. rewrite forallb_forall in *. intros x Hx.
  specialize (H x Hx). apply safe_parameter_parts in H as (_ & H1 & _ & H2).
  rewrite H1. unfold safe_value in H2. apply andb_true_iff in H2 as [H2 _].
  now apply andb_true_iff in H2 as [_ ->].
Qed.

(** ** The round trip through [to_xml] and [from_xml] *)

Lemma safe_record_parts t :
  safe_record t = true ->
  exists n a d,
    t = tool_call n a /\ loads a = Some (VDict d)
    /\ decoded t = (n, d) /\ safe_call (n, d) = true.
Proof.
  destruct t as [[n a]]. unfold safe_record, decoded. cbn [function name arguments].
  destruct n as [ | | | |n| | ]; try discriminate.
  destruct a as [ | | | |a| | ]; try discriminate.
  intro H. apply andb_true_iff in H as [Hn H].
  destruct (loads a) as [[ | | | | | |d]|] eqn:E; try discriminate.
  exists n, a, d. unfold safe_call. cbn [fst snd]. now rewrite Hn, H.
Qed.

Lemma safe_records_calls R :
  forallb safe_record R = true -> forallb safe_call (map decoded R) = true.
Proof.
  intro H. rewrite forallb_forall in *. intros c Hc.
  apply in_map_iff in Hc as (t & <- & Ht).
  destruct (safe_record_parts t (H t Ht)) as (n & a & d & _ & _ & -> & Hs).
  exact Hs.
Qed.

Lemma xml_block_safe format t :
  safe_record t = true ->
  xml_block format t
  = Return ((if str_eqb format (lit "qwen") then qwen_block else claude_block)
              (decoded t)).
Proof.
  intro H. destruct (safe_record_parts t H) as (n & a & d & -> & El & -> & _).
  unfold tool_call. rewrite xml_block_str, El.
  destruct (str_eqb format (lit "qwen")).
  - rewrite qwen_text. unfold qwen_block, qwen_open, qwen_close. cbn [fst snd].
    now rewrite <- !app_assoc.
  - now rewrite invoke_text.
Qed.

Lemma to_xml_safe R format :
  forallb safe_record R = true ->
  to_xml R format
  = Return (join [NL]
              (map (if str_eqb format (lit "qwen") then qwen_block else claude_block)
                 (map decoded R))).
Proof.
  intro H. rewrite to_xml_blocks.
  - do 2 f_equal. rewrite forallb_forall in H.
    induction R as [|t R IH]; [reflexivity|]. cbn [flat_map map].
    rewrite xml_block_safe by (apply H; now left).
    cbn [app]. f_equal. apply IH. intros; apply H; now right.
  - rewrite forallb_forall in *. intros t Ht.
    destruct (safe_record_parts t (H t Ht)) as (n & a & d & -> & _). reflexivity.
Qed.

Lemma from_xml_claude_text calls :
  forallb safe_call calls = true ->
  Forall (fun c => well_formed (VDict (snd c)) = true) calls ->
  from_xml (join [NL] (map claude_block calls))
  = Return (map (fun c => tool_call (fst c) (dumps (VDict (snd c)))) calls).
Proof.
  intros H W. pose proof H as H'. rewrite forallb_forall in H'.
  unfold from_xml, from_xml_logged, findall1.
  rewrite (findall_nowhere tool_call_pattern claude_block);
    [|intros; apply never_claude_block; [apply tool_call_pattern_claude|auto]
     |vm_compute; now repeat split|reflexivity].
  cbn [map]. unfold findall2 at 1.
  rewrite (findall_nowhere qwen_tool_call_pattern claude_block);
    [|intros; apply never_claude_block; [apply qwen_tool_call_pattern_claude|auto]
     |vm_compute; now repeat split|reflexivity].
  cbn [map]. rewrite tagged_blocks_total. cbn [bind fst]. f_equal.
  rewrite findall_claude_text by assumption. rewrite map_map.
  apply map_ext_in. intros c Hc. cbn [fst snd]. unfold tool_call. do 5 f_equal.
  pose proof (H' c Hc) as Hs. apply safe_call_parts in Hs as [_ Hs].
  assert (forallb safe_parameter (snd c) = true) as Hp by now apply forallb_forall.
  rewrite findall_claude_body by assumption.
  apply parameters_read_back; [|assumption|reflexivity].
  rewrite Forall_forall in W. auto.
Qed.

Lemma from_xml_qwen_text calls :
  forallb safe_call calls = true ->
  Forall (fun c => well_formed (VDict (snd c)) = true) calls ->
  from_xml (join [NL] (map qwen_block calls))
  = Return (map (fun c => tool_call (fst c) (dumps (VDict (snd c)))) calls).
Proof.
  intros H W. destruct calls as [|c0 calls]; [reflexivity|].
  pose proof H as H'. rewrite forallb_forall in H'.
  unfold from_xml, from_xml_logged, findall1.
  rewrite (findall_nowhere tool_call_pattern qwen_block);
    [|intros; apply never_qwen_block; [apply tool_call_pattern_qwen|auto]
     |vm_compute; now repeat split|reflexivity].
  cbn [map]. change (qwen_block c0 :: map qwen_block calls)
    with (map qwen_block (c0 :: calls)).
  rewrite findall_qwen_text by assumption. cbn [map].
  change ((fst c0, block_body qwen_parameter (snd c0))
          :: map (fun c => (fst c, block_body qwen_parameter (snd c))) calls)
    with (map (fun c => (fst c, block_body qwen_parameter (snd c))) (c0 :: calls)).
  rewrite tagged_blocks_total. cbn [bind fst]. f_equal.
  rewrite map_map.
  change (tool_call (fst c0) (dumps (VDict (snd c0)))
          :: map (fun c => tool_call (fst c) (dumps (VDict (snd c)))) calls)
    with (map (fun c => tool_call (fst c) (dumps (VDict (snd c)))) (c0 :: calls)).
  apply map_ext_in. intros c Hc. cbn [fst snd]. unfold tool_call. do 5 f_equal.
  pose proof (H' c Hc) as Hs. apply safe_call_parts in Hs as [_ Hs].
  assert (forallb safe_parameter (snd c) = true) as Hp by now apply forallb_forall.
  rewrite findall_qwen_body by assumption.
  apply parameters_read_back; [|assumption|].
  - rewrite Forall_forall in W. auto.
  - intro x. apply coerce_param_line.
Qed.




Example xml_round_trip_claude :
  from_xml (qlit "<invoke name='f'>
<parameter name='a'>[1, true]</parameter>
<parameter name='b'>hello</parameter>
</invoke>
<invoke name='g'>
</invoke>")
  = Return [tool_call (lit "f") (qlit "{'a': [1, true], 'b': 'hello'}");
            tool_call (lit "g") (lit "{}")].
Proof. vm_compute. reflexivity. Qed.

(** ** Text without tags *)

Lemma findall_without w p text :
  forallb (other_than LT) text = true ->
  findall_from (Lit (LT :: w) :: p) 0 text = [].
Proof.
  intro H. rewrite <- (app_nil_r text).
  rewrite findall_never by now apply never_without.
  now apply findall_end.
Qed.

(** X1. Text without the character [<] holds no tool call: [from_xml]
    returns the empty list. *)
Theorem from_xml_plain_text (text : str) :
  forallb (other_than LT) text = true -> from_xml text = Return [].
Proof.
  intro H. unfold from_xml, from_xml_logged, findall1, findall2.
  assert (findall_from tool_call_pattern 0 text = []) as ->
      by exact (findall_without (lit "tool_call>") _ text H).
  assert (findall_from qwen_tool_call_pattern 0 text = []) as ->
      by exact (findall_without (lit "tool_call>") _ text H).
  assert (findall_from invoke_pattern 0 text = []) as ->
      by exact (findall_without (qlit "invoke name='") _ text H).
  reflexivity.
Qed.

Lemma from_xml_plain_text_witness :
  from_xml (lit "I will look that up: 2 > 1, no tools needed.") = Return [].
Proof. apply from_xml_plain_text. vm_compute. reflexivity. Defined.

(** ** The format argument of [to_xml] *)

Lemma xml_block_other_format format t :
  format <> lit "qwen" -> xml_block format t = xml_block (lit "claude") t.
Proof.
  intro H. apply str_eqb_neq in H. unfold xml_block. rewrite H.
  reflexivity.
Qed.

Lemma xml_loop_other_format format tool_calls :
  format <> lit "qwen" ->
  forall xml_parts log,
    xml_loop format tool_calls xml_parts log
    = xml_loop (lit "claude") tool_calls xml_parts log.
Proof.
  intro H. induction tool_calls as [|t tool_calls IH]; intros xml_parts log;
    [reflexivity|].
  cbn [xml_loop]. rewrite (xml_block_other_format format t H).
  destruct (xml_block (lit "claude") t) as [b|[]]; auto.
Qed.

(** X2. Every format other than [qwen] is the [claude] format: [to_xml]
    gives the same result, text or exception, as for [claude]. *)
Theorem to_xml_other_format (tool_calls : list ToolCall) (format : str) :
  format <> lit "qwen" -> to_xml tool_calls format = to_xml tool_calls (lit "claude").
Proof.
  intro H. unfold to_xml, to_xml_logged.
  destruct tool_calls as [|t tool_calls]; [reflexivity|].
  now rewrite (xml_loop_other_format format (t :: tool_calls) H).
Qed.

Lemma to_xml_other_format_witness :
  to_xml [tool_call (lit "f") (qlit "{'a': 1}"); tool_call (lit "g") (lit "x")]
    (lit "Qwen")
  = to_xml [tool_call (lit "f") (qlit "{'a': 1}"); tool_call (lit "g") (lit "x")]
      (lit "claude").
Proof. apply to_xml_other_format. discriminate. Defined.

(** ** Records [to_xml] passes over *)

Lemma filter_str_arguments tool_calls :
  forallb str_arguments tool_calls = true ->
  forallb str_arguments (filter has_mapping tool_calls) = true.
Proof.
  intro H. rewrite forallb_forall in *. intros t Ht.
  apply filter_In in Ht as [Ht _]. auto.
Qed.

Lemma blocks_of_mappings format tool_calls :
  forallb str_arguments tool_calls = true ->
  flat_map (fun t => match xml_block format t with
                     | Return b => [b]
                     | Raise _ => []
                     end) (filter has_mapping tool_calls)
  = flat_map (fun t => match xml_block format t with
                       | Return b => [b]
                       | Raise _ => []
                       end) tool_calls.
Proof.
  induction tool_calls as [|t tool_calls IH]; intro H; [reflexivity|].
  simpl in H. apply andb_true_iff in H as [Ht H]. specialize (IH H).
  destruct t as [[n a]]. unfold str_arguments in Ht. cbn in Ht.
  destruct a; try discriminate.
  cbn [filter flat_map]. unfold has_mapping at 1. cbn [function arguments].
  rewrite xml_block_str.
  destruct (loads s) as [[ | | | | | |d]|] eqn:E; cbn [app]; try exact IH.
  cbn [flat_map]. rewrite xml_block_str, E. cbn [app]. now rewrite IH.
Qed.

(** X3. [to_xml] passes over the records whose arguments are not the JSON
    text of a mapping, and nothing else changes: on records with string
    arguments it gives the text it gives for the remaining records alone. *)
Theorem to_xml_passes_over (tool_calls : list ToolCall) (format : str) :
  forallb str_arguments tool_calls = true ->
  to_xml tool_calls format = to_xml (filter has_mapping tool_calls) format.
Proof.
  intro H. rewrite !to_xml_blocks by (assumption || now apply filter_str_arguments).
  now rewrite blocks_of_mappings.
Qed.

Lemma to_xml_passes_over_witness :
  to_xml [tool_call (lit "f") (lit "oops"); tool_call (lit "g") (qlit "{'a': 1}");
          tool_call (lit "h") (lit "[1, 2]")] (lit "qwen")
  = to_xml (filter has_mapping
              [tool_call (lit "f") (lit "oops"); tool_call (lit "g") (qlit "{'a': 1}");
               tool_call (lit "h") (lit "[1, 2]")]) (lit "qwen").
Proof. apply to_xml_passes_over. reflexivity. Defined.

(** ** [from_json] on JSON that is no tool call *)

(** X4. JSON text that is neither an object nor an array, and an array
    whose first element is not an object, make [from_json] raise
    [TypeError] at line 72. *)
Theorem from_json_not_subscriptable (s : str) (parsed : value) :
  loads s = Some parsed ->
  (is_dict parsed = false -> is_list parsed = false ->
   from_json s = Raise TypeError)
  /\ (forall e l, parsed = VList (e :: l) -> is_dict e = false ->
      from_json s = Raise TypeError).
Proof.
  intro El. rewrite from_json_loads, El. split.
  - intros Hd Hl. destruct parsed; try discriminate; reflexivity.
  - intros e l -> He. cbn [is_flat elements for_each].
    destruct e; try discriminate; reflexivity.
Qed.

Lemma from_json_not_subscriptable_witness :
  (is_dict (VInt 42) = false -> is_list (VInt 42) = false ->
   from_json (lit "42") = Raise TypeError)
  /\ (forall e l, VInt 42 = VList (e :: l) -> is_dict e = false ->
      from_json (lit "42") = Raise TypeError).
Proof. apply from_json_not_subscriptable. vm_compute. reflexivity. Defined.

Example from_json_array_of_numbers : from_json (lit "[1, 2]") = Raise TypeError.
Proof. vm_compute. reflexivity. Qed.

Example from_json_string : from_json (qlit "'f'") = Raise TypeError.
Proof. vm_compute. reflexivity. Qed.

(** ** The embedded-JSON convention *)






(** ** Records of the tagged conventions *)

Lemma dumps_mapping d :
  well_formed (VDict d) = true ->
  exists d', loads (dumps (VDict d)) = Some (VDict d').
Proof.
  intro W. destruct (loads_dumps _ W) as (v' & E & _).
  rewrite dumps_dict in E. pose proof E as E'.
  apply loads_object in E' as (d' & ->). exists d'. now rewrite dumps_dict.
Qed.



Example conforms_array :
  option_map (conforms TOOL_CALL_SCHEMA)
    (loads (qlit "[{'function': {'name': 'f', 'arguments': {'a': 1}}, 'id': 7}]"))
  = Some true.
Proof. vm_compute. reflexivity. Qed.

Example conforms_array_no_arguments :
  option_map (conforms TOOL_CALL_SCHEMA)
    (loads (qlit "[{'function': {'name': 'f'}}]")) = Some false.
Proof. vm_compute. reflexivity. Qed.

Example conforms_array_text_arguments :
  option_map (conforms TOOL_CALL_SCHEMA)
    (loads (qlit "[{'function': {'name': 'f', 'arguments': '{}'}}]")) = Some false.
Proof. vm_compute. reflexivity. Qed.

Example conforms_object :
  option_map (conforms TOOL_CALL_SCHEMA_QWEN)
    (loads (qlit "{'name': 'f', 'arguments': {}}")) = Some true.
Proof. vm_compute. reflexivity. Qed.

Ltac name_keys H :=
  change [110; 97; 109; 101]%N with (lit "name") in H;
  change [97; 114; 103; 117; 109; 101; 110; 116; 115]%N with (lit "arguments") in H;
  change [102; 117; 110; 99; 116; 105; 111; 110]%N with (lit "function") in H.

Lemma conforms_object_fields v :
  conforms TOOL_CALL_SCHEMA_QWEN v = true ->
  exists d n a,
    v = VDict d /\ dict_get (lit "name") d = Some (VStr n)
    /\ dict_get (lit "arguments") d = Some (VDict a).
Proof.
  intro H. destruct v as [ | | | | | |d]; try discriminate H.
  cbn in H. name_keys H. unfold dict_mem in H.
  destruct (dict_get (lit "name") d) as [[ | | | |n| | ]|] eqn:En;
    destruct (dict_get (lit "arguments") d) as [[ | | | | | |a]|] eqn:Ea;
    cbn in H; try discriminate H.
  now exists d, n, a.
Qed.






(** X9. JSON text that conforms to [TOOL_CALL_SCHEMA_QWEN] is always
    decoded by [from_json], into the one record that has the [name] string
    as name and the serialization of the [arguments] mapping, the JSON text
    of a mapping, as arguments. *)
Theorem schema_object_decoded (s : str) (parsed : value) :
  loads s = Some parsed -> conforms TOOL_CALL_SCHEMA_QWEN parsed = true ->
  exists n a,
    getitem parsed (lit "name") = Return (VStr n)
    /\ getitem parsed (lit "arguments") = Return (VDict a)
    /\ from_json s = Return [tool_call n (dumps (VDict a))]
    /\ has_mapping (tool_call n (dumps (VDict a))) = true.
Proof.
  intros El Hc. pose proof (loads_well_formed _ _ El) as W.
  apply conforms_object_fields in Hc as (d & n & a & -> & En & Ea).
  exists n, a. cbn [getitem]. rewrite En, Ea.
  split; [reflexivity|]. split; [reflexivity|]. split.
  - rewrite from_json_loads, El. unfold is_flat, dict_mem. rewrite En, Ea.
    reflexivity.
  - unfold has_mapping. cbn [tool_call function arguments].
    assert (well_formed (VDict a) = true) as Wa
        by now apply (well_formed_dict_get (lit "arguments") _ d).
    destruct (dumps_mapping a Wa) as [d' ->]. reflexivity.
Qed.

Lemma schema_object_decoded_witness :
  exists n a,
    getitem (VDict [(lit "name", VStr (lit "f"));
                    (lit "arguments", VDict [(lit "a", VList [VBool true])])])
      (lit "name") = Return (VStr n)
    /\ getitem (VDict [(lit "name", VStr (lit "f"));
                       (lit "arguments", VDict [(lit "a", VList [VBool true])])])
         (lit "arguments") = Return (VDict a)
    /\ from_json (qlit "{'name': 'f', 'arguments': {'a': [true]}}")
       = Return [tool_call n (dumps (VDict a))]
    /\ has_mapping (tool_call n (dumps (VDict a))) = true.
Proof.
  apply (schema_object_decoded (qlit "{'name': 'f', 'arguments': {'a': [true]}}"));
    vm_compute; reflexivity.
Defined.

(** ** A block of the embedded-JSON convention *)

Section Greedy_failure.

Variable R : Type.

Variable c : char -> bool.

Variable k : str -> option R.


End Greedy_failure.





(** ** Text around the blocks *)

(** [from_xml] reads a text through the matches of its three patterns
    alone. *)
Lemma from_xml_same_matches s s' :
  findall_from tool_call_pattern 0 s = findall_from tool_call_pattern 0 s' ->
  findall_from qwen_tool_call_pattern 0 s = findall_from qwen_tool_call_pattern 0 s' ->
  findall_from invoke_pattern 0 s = findall_from invoke_pattern 0 s' ->
  from_xml s = from_xml s'.
Proof.
  intros E1 E2 E3. unfold from_xml, from_xml_logged, findall1, findall2.
  now rewrite E1, E2, E3.
Qed.

Lemma findall_joined_tail {A} p (B : A -> str) (caps : A -> list str) R tail :
  (forall r after, In r R -> run p (B r ++ after) [] [] = Some (caps r, after)) ->
  (forall r, In r R -> B r <> []) ->
  never p [NL] ->
  findall_from p 0 (join [NL] (map B R) ++ tail)
  = map caps R ++ findall_from p 0 tail.
Proof.
  intros Hrun Hne Hnl. induction R as [|r R IH]; [reflexivity|].
  assert (findall_from p 0 (join [NL] (map B R) ++ tail)
          = map caps R ++ findall_from p 0 tail) as IH'.
  { apply IH; intros; [apply Hrun|apply Hne]; now right. }
  clear IH. cbn [map]. destruct R as [|r' R].
  - cbn [map join]. rewrite (findall_match p (B r) tail (caps r)).
    + reflexivity.
    + apply Hne. now left.
    + apply Hrun. now left.
  - change (join [NL] (B r :: map B (r' :: R)))
      with (B r ++ [NL] ++ join [NL] (map B (r' :: R))).
    rewrite <- !app_assoc.
    rewrite (findall_match p (B r) _ (caps r)).
    + rewrite findall_never by assumption. now rewrite IH'.
    + apply Hne. now left.
    + apply Hrun. now left.
Qed.

(** A pattern that matches in the blocks: the text around them adds no
    match. *)
Lemma findall_amid_prose {A} w p' (B : A -> str) (caps : A -> list str) R
    before after :
  (forall r tail, In r R ->
     run (Lit (LT :: w) :: p') (B r ++ tail) [] [] = Some (caps r, tail)) ->
  (forall r, In r R -> B r <> []) ->
  never (Lit (LT :: w) :: p') [NL] ->
  forallb (other_than LT) before = true -> forallb (other_than LT) after = true ->
  findall_from (Lit (LT :: w) :: p') 0 (before ++ join [NL] (map B R) ++ after)
  = findall_from (Lit (LT :: w) :: p') 0 (join [NL] (map B R)).
Proof.
  intros Hrun Hne Hnl Hb Ha.
  rewrite findall_never by now apply never_without.
  rewrite (findall_joined_tail _ B caps) by assumption.
  rewrite (findall_without w p' after Ha), app_nil_r.
  symmetry. now apply findall_joined.
Qed.

(** A pattern that matches nowhere in the blocks matches nowhere in the
    whole. *)
Lemma findall_nowhere_amid_prose w p' (block : str * dict -> str) calls
    before after :
  (forall c, In c calls -> never (Lit (LT :: w) :: p') (block c)) ->
  never (Lit (LT :: w) :: p') [NL] ->
  forallb (other_than LT) before = true -> forallb (other_than LT) after = true ->
  findall_from (Lit (LT :: w) :: p') 0 (before ++ join [NL] (map block calls) ++ after)
  = findall_from (Lit (LT :: w) :: p') 0 (join [NL] (map block calls)).
Proof.
  intros H Hnl Hb Ha.
  rewrite findall_never by now apply never_without.
  rewrite findall_never by now apply never_joined.
  rewrite (findall_without w p' after Ha).
  symmetry. now apply findall_nowhere.
Qed.

Lemma invoke_pattern_qwen : avoids invoke_pattern qwen_literals.
Proof.
  split; [intros a Ha; now apply (never_without LT (qlit "invoke name='"))|].
  never_in_literals.
Qed.

Lemma from_xml_claude_amid_prose calls before after :
  forallb safe_call calls = true ->
  forallb (other_than LT) before = true -> forallb (other_than LT) after = true ->
  from_xml (before ++ join [NL] (map claude_block calls) ++ after)
  = from_xml (join [NL] (map claude_block calls)).
Proof.
  intros H Hb Ha. pose proof H as H'. rewrite forallb_forall in H'.
  apply from_xml_same_matches.
  - apply (findall_nowhere_amid_prose (lit "tool_call>")); try assumption.
    + intros; apply never_claude_block; [apply tool_call_pattern_claude|auto].
    + vm_compute. now repeat split.
  - apply (findall_nowhere_amid_prose (lit "tool_call>")); try assumption.
    + intros; apply never_claude_block; [apply qwen_tool_call_pattern_claude|auto].
    + vm_compute. now repeat split.
  - apply (findall_amid_prose (qlit "invoke name='") _ claude_block
             (fun c => [fst c; block_body claude_parameter (snd c)]));
      try assumption.
    + intros c tail Hc. apply run_invoke_pattern. auto.
    + intros c _. apply claude_block_text.
    + vm_compute. now repeat split.
Qed.

Lemma from_xml_qwen_amid_prose calls before after :
  forallb safe_call calls = true ->
  forallb (other_than LT) before = true -> forallb (other_than LT) after = true ->
  from_xml (before ++ join [NL] (map qwen_block calls) ++ after)
  = from_xml (join [NL] (map qwen_block calls)).
Proof.
  intros H Hb Ha. pose proof H as H'. rewrite forallb_forall in H'.
  apply from_xml_same_matches.
  - apply (findall_nowhere_amid_prose (lit "tool_call>")); try assumption.
    + intros; apply never_qwen_block; [apply tool_call_pattern_qwen|auto].
    + vm_compute. now repeat split.
  - apply (findall_amid_prose (lit "tool_call>") _ qwen_block
             (fun c => [fst c; block_body qwen_parameter (snd c)]));
      try assumption.
    + intros c tail Hc. apply run_qwen_tool_call_pattern. auto.
    + intros c _. apply qwen_block_text.
    + vm_compute. now repeat split.
  - apply (findall_nowhere_amid_prose (qlit "invoke name='")); try assumption.
    + intros; apply never_qwen_block; [apply invoke_pattern_qwen|auto].
    + vm_compute. now repeat split.
Qed.

(** X11. Text without [<] before and after what [to_xml] writes for safe
    records changes nothing: [from_xml] reads the same records out of the
    whole as out of the written text alone. *)
Theorem from_xml_amid_prose (R : list ToolCall) (format before after : str) :
  forallb safe_record R = true ->
  forallb (other_than LT) before = true -> forallb (other_than LT) after = true ->
  exists text,
    to_xml R format = Return text
    /\ from_xml (before ++ text ++ after) = from_xml text.
Proof.
  intros H Hb Ha. rewrite to_xml_safe by assumption.
  eexists. split; [reflexivity|].
  pose proof (safe_records_calls R H) as Hc.
  destruct (str_eqb format (lit "qwen"));
    [now apply from_xml_qwen_amid_prose|now apply from_xml_claude_amid_prose].
Qed.

Lemma from_xml_amid_prose_witness :
  exists text,
    to_xml [tool_call (lit "f") (qlit "{'a': [1, true], 'b': 'hello'}")] (lit "qwen")
    = Return text
    /\ from_xml (lit "Let me check. " ++ text ++ lit " One moment.") = from_xml text.
Proof. apply from_xml_amid_prose; vm_compute; reflexivity. Defined.

(** ** [dump] and [to_json] *)

Lemma dump_loop_dumped tool_calls :
  forall acc log,
    dump_loop tool_calls acc log = Return (acc ++ map dumped tool_calls, log).
Proof.
  induction tool_calls as [|t tool_calls IH]; intros acc log; simpl.
  - now rewrite app_nil_r.
  - rewrite IH, <- app_assoc. reflexivity.
Qed.

Lemma dump_dumped tool_calls : dump tool_calls = Return (map dumped tool_calls).
Proof. unfold dump. now rewrite dump_loop_dumped. Qed.

Lemma dumped_text n a :
  dumps_indent 1 (dumped (tool_call n a)) = element_text n a.
Proof.
  unfold element_text, function_text, dumped, tool_call.
  cbn [dumps_indent function name arguments map join dumps].
  now normalize_app.
Qed.

(** ** Reading the text of [to_json] *)

Lemma parse_value_text n s rest :
  exists t,
    parse_value (S n) (encode_str s ++ rest) = Ok (VStr t) rest
    /\ (forallb is_scalar s = true -> t = s).
Proof.
  destruct (scanstring_encoded s rest) as [t Ht]. exists t. split.
  - rewrite parse_value_S. unfold encode_str. cbn [app].
    change (DQUOTE =? DQUOTE)%N with true. cbn iota.
    rewrite <- app_assoc. cbn [app]. now rewrite Ht.
  - intro Hs. rewrite scanstring_scalar in Ht by assumption.
    now injection Ht as <-.
Qed.

(** One member: a key written by [encode_str], then the text of a value. *)
Lemma parse_members_entry n acc (k : str) tx x' tail :
  forallb is_scalar k = true ->
  starts json_start tx = true ->
  parse_value n (tx ++ tail) = Ok x' tail ->
  parse_members (S n) acc (encode_str k ++ lit ": " ++ tx ++ tail)
  = match skip_ws tail with
    | c3 :: r4 =>
        if (c3 =? RBRACE)%N then Ok (VDict (dict_set k x' acc)) r4
        else if (c3 =? COMMA)%N
        then parse_members n (dict_set k x' acc) (skip_ws r4)
        else Bad
    | [] => Bad
    end.
Proof.
  intros Hk Hs E. rewrite parse_members_S. unfold encode_str.
  cbn [app]. change (DQUOTE =? DQUOTE)%N with true. cbn iota.
  rewrite <- !app_assoc. cbn [app]. rewrite scanstring_scalar by assumption.
  assert (skip_ws (lit ": " ++ tx ++ tail) = COLON :: 32%N :: tx ++ tail)
    as -> by reflexivity.
  change (COLON =? COLON)%N with true. cbn iota.
  assert (skip_ws (32%N :: tx ++ tail) = tx ++ tail) as ->.
  { simpl. apply skip_ws_start, starts_app. assumption. }
  now rewrite E.
Qed.

Lemma skip_ws_app ws s :
  forallb is_ws ws = true -> skip_ws (ws ++ s) = skip_ws s.
Proof.
  induction ws as [|c ws IH]; [reflexivity|]. simpl. intro H.
  apply andb_true_iff in H as [-> H]. auto.
Qed.

Lemma skip_ws_quote s : skip_ws (DQUOTE :: s) = DQUOTE :: s.
Proof. reflexivity. Qed.

Lemma newline_indent_ws level : forallb is_ws (newline_indent level) = true.
Proof.
  unfold newline_indent. simpl. induction (level + (level + 0)); simpl; auto.
Qed.

Lemma parse_value_object n ws s :
  forallb is_ws ws = true ->
  parse_value (S n) (LBRACE :: ws ++ DQUOTE :: s) = parse_members n [] (DQUOTE :: s).
Proof.
  intro H. rewrite parse_value_S.
  change (LBRACE =? DQUOTE)%N with false. change (LBRACE =? LBRACE)%N with true.
  cbn iota. rewrite skip_ws_app by assumption. reflexivity.
Qed.

Lemma parse_value_array n ws s :
  forallb is_ws ws = true ->
  parse_value (S n) (LBRACK :: ws ++ LBRACE :: s) = parse_elems n [] (LBRACE :: s).
Proof.
  intro H. rewrite parse_value_S.
  change (LBRACK =? DQUOTE)%N with false. change (LBRACK =? LBRACE)%N with false.
  change (LBRACK =? LBRACK)%N with true.
  cbn iota. rewrite skip_ws_app by assumption. reflexivity.
Qed.

Lemma parse_function_text f n a tail :
  exists n' a',
    parse_value (S (S (S (S f)))) (function_text n a ++ tail)
    = Ok (VDict [(lit "name", VStr n'); (lit "arguments", VStr a')]) tail
    /\ (forallb is_scalar n = true -> n' = n)
    /\ (forallb is_scalar a = true -> a' = a).
Proof.
  unfold function_text.
  destruct (parse_value_text (S f) n
              (lit "," ++ newline_indent 3 ++ encode_str (lit "arguments") ++ lit ": "
               ++ encode_str a ++ newline_indent 2 ++ lit "}" ++ tail))
    as (n' & En & Sn).
  destruct (parse_value_text f a (newline_indent 2 ++ lit "}" ++ tail))
    as (a' & Ea & Sa).
  exists n', a'. split; [|auto].
  rewrite <- !app_assoc.
  change (lit "{" ++ ?t) with (LBRACE :: t).
  change (encode_str (lit "name") ++ ?t)
    with (DQUOTE :: lit "name" ++ DQUOTE :: t).
  rewrite parse_value_object by apply newline_indent_ws.
  change (DQUOTE :: lit "name" ++ DQUOTE :: ?t)
    with (encode_str (lit "name") ++ t).
  rewrite (parse_members_entry _ _ (lit "name") (encode_str n) _ _ eq_refl eq_refl En).
  change (skip_ws (lit "," ++ ?t)) with (COMMA :: t).
  change (COMMA =? RBRACE)%N with false. change (COMMA =? COMMA)%N with true.
  cbn iota. rewrite skip_ws_app by apply newline_indent_ws.
  change (encode_str (lit "arguments") ++ ?t)
    with (DQUOTE :: lit "arguments" ++ DQUOTE :: t).
  rewrite skip_ws_quote.
  change (DQUOTE :: lit "arguments" ++ DQUOTE :: ?t)
    with (encode_str (lit "arguments") ++ t).
  rewrite (parse_members_entry _ _ (lit "arguments") (encode_str a) _ _
             eq_refl eq_refl Ea).
  rewrite skip_ws_app by apply newline_indent_ws.
  reflexivity.
Qed.

Lemma parse_element_text f n a tail :
  exists n' a',
    parse_value (S (S (S (S (S (S f)))))) (element_text n a ++ tail)
    = Ok (dumped (tool_call n' a')) tail
    /\ (forallb is_scalar n = true -> n' = n)
    /\ (forallb is_scalar a = true -> a' = a).
Proof.
  unfold element_text.
  destruct (parse_function_text f n a (newline_indent 1 ++ lit "}" ++ tail))
    as (n' & a' & E & Sn & Sa).
  exists n', a'. split; [|auto].
  rewrite <- !app_assoc.
  change (lit "{" ++ ?t) with (LBRACE :: t).
  change (encode_str (lit "function") ++ ?t)
    with (DQUOTE :: lit "function" ++ DQUOTE :: t).
  rewrite parse_value_object by apply newline_indent_ws.
  change (DQUOTE :: lit "function" ++ DQUOTE :: ?t)
    with (encode_str (lit "function") ++ t).
  rewrite (parse_members_entry _ _ (lit "function") (function_text n a) _ _
             eq_refl eq_refl E).
  rewrite skip_ws_app by apply newline_indent_ws.
  reflexivity.
Qed.

Lemma canonical_parts t :
  canonical t = true ->
  exists n a,
    t = tool_call n a /\ forallb is_scalar n = true /\ forallb is_scalar a = true.
Proof.
  destruct t as [[n a]]. unfold canonical. cbn [function name arguments].
  destruct n as [ | | | |n| | ]; try discriminate.
  destruct a as [ | | | |a| | ]; try discriminate.
  intro H. apply andb_true_iff in H as [Hn Ha]. now exists n, a.
Qed.

Lemma element_text_start n a tail :
  exists r, element_text n a ++ tail = LBRACE :: r.
Proof. unfold element_text. rewrite <- !app_assoc. now eexists. Qed.

(** The elements, one per line, up to the closing bracket. *)
Lemma parse_elements_text R :
  forallb canonical R = true -> R <> [] ->
  forall f acc,
    parse_elems (length R + 7 + f) acc
      (join (COMMA :: newline_indent 1) (map (dumps_indent 1) (map dumped R))
       ++ newline_indent 0 ++ [RBRACK])
    = Ok (VList (acc ++ map dumped R)) [].
Proof.
  induction R as [|t R IH]; [congruence|]. intros H _ f acc.
  simpl in H. apply andb_true_iff in H as [Ht H].
  apply canonical_parts in Ht as (n & a & -> & Hn & Ha).
  cbn [map length]. rewrite dumped_text.
  change (S (length R) + 7 + f) with (S (length R + 7 + f)).
  rewrite parse_elems_S.
  destruct R as [|t' R].
  - cbn [map join length].
    destruct (parse_element_text f n a (newline_indent 0 ++ [RBRACK]))
      as (n' & a' & E & Sn & Sa).
    rewrite (Sn Hn), (Sa Ha) in E.
    change (0 + 7 + f) with (S (S (S (S (S (S (S f))))))).
    rewrite (parse_value_more_fuel (S (S (S (S (S (S f))))))) by (lia || congruence).
    rewrite E. reflexivity.
  - change (join (COMMA :: newline_indent 1)
              (element_text n a :: map (dumps_indent 1) (map dumped (t' :: R))))
      with (element_text n a ++ (COMMA :: newline_indent 1)
            ++ join (COMMA :: newline_indent 1)
                 (map (dumps_indent 1) (map dumped (t' :: R)))).
    rewrite <- !app_assoc.
    set (rest := join (COMMA :: newline_indent 1)
                   (map (dumps_indent 1) (map dumped (t' :: R)))
                 ++ newline_indent 0 ++ [RBRACK]).
    destruct (parse_element_text f n a ((COMMA :: newline_indent 1) ++ rest))
      as (n' & a' & E & Sn & Sa).
    rewrite (Sn Hn), (Sa Ha) in E.
    rewrite (parse_value_more_fuel (S (S (S (S (S (S f))))))) by (lia || congruence).
    rewrite E.
    change (skip_ws ((COMMA :: newline_indent 1) ++ rest))
      with (COMMA :: newline_indent 1 ++ rest).
    change (COMMA =? RBRACK)%N with false. change (COMMA =? COMMA)%N with true.
    cbn iota. rewrite skip_ws_app by apply newline_indent_ws.
    assert (skip_ws rest = rest) as ->.
    { unfold rest. cbn [map]. pose proof H as H'. simpl in H'.
      apply andb_true_iff in H' as [Ht' _].
      apply canonical_parts in Ht' as (n2 & a2 & -> & _).
      rewrite dumped_text.
      destruct (map (dumps_indent 1) (map dumped R)); reflexivity. }
    unfold rest.
    rewrite (IH H ltac:(discriminate) f (acc ++ [dumped (tool_call n a)])).
    now rewrite <- app_assoc.
Qed.

Lemma loads_to_json_text R :
  forallb canonical R = true -> R <> [] ->
  loads (dumps_indent 0 (VList (map dumped R))) = Some (VList (map dumped R)).
Proof.
  intros H Hne.
  assert (parse_value (S (length R + 7 + 0)) (dumps_indent 0 (VList (map dumped R)))
          = Ok (VList (map dumped R)) []) as E.
  { pose proof (parse_elements_text R H Hne 0 []) as P.
    destruct R as [|t R]; [congruence|]. clear Hne.
    cbn [map dumps_indent]. cbn [map] in P.
    simpl in H. apply andb_true_iff in H as [Ht _].
    apply canonical_parts in Ht as (n & a & -> & _).
    rewrite dumped_text in *.
    assert (exists r,
               join (COMMA :: newline_indent 1)
                 (element_text n a :: map (dumps_indent 1) (map dumped R))
               ++ newline_indent 0 ++ [RBRACK] = LBRACE :: r) as [r Er].
    { destruct (map (dumps_indent 1) (map dumped R)); cbn [join];
        unfold element_text; rewrite <- !app_assoc; now eexists. }
    rewrite Er in *. rewrite parse_value_array by apply newline_indent_ws.
    exact P. }
  unfold loads.
  assert (skip_ws (dumps_indent 0 (VList (map dumped R)))
          = dumps_indent 0 (VList (map dumped R))) as ->.
  { destruct R as [|t R]; [congruence|]. reflexivity. }
  rewrite (parse_value_fuel_for _ _ _ _ E) by (unfold fuel_for; lia).
  reflexivity.
Qed.

Lemma nested_dumped R :
  (tool_calls <- for_each dump_arguments (map dumped R) ;;
   for_each construct tool_calls)
  = Return (map reencoded R).
Proof.
  induction R as [|t R IH]; [reflexivity|].
  destruct (for_each dump_arguments (map dumped R)) as [l|] eqn:E;
    [|discriminate IH].
  cbn [bind] in IH. cbn [map for_each]. rewrite E.
  assert (dump_arguments (dumped t)
          = Return (VDict [(lit "function",
                            VDict [(lit "name", name (function t));
                                   (lit "arguments",
                                    VStr (dumps (arguments (function t))))])])) as ->
      by reflexivity.
  cbn [bind for_each]. rewrite IH.
  assert (construct (VDict [(lit "function",
                             VDict [(lit "name", name (function t));
                                    (lit "arguments",
                                     VStr (dumps (arguments (function t))))])])
          = Return (reencoded t)) as -> by reflexivity.
  reflexivity.
Qed.

(** X12. [from_json] does not undo [to_json]: [to_json] writes the
    arguments of a record as a JSON string, and [from_json] serializes what
    it reads once more, so each record comes back with the same name and its
    arguments wrapped as the JSON string literal of the text they were.  The
    empty list gives the empty string, which [from_json] rejects. *)
Theorem to_json_then_from_json (R : list ToolCall) :
  forallb canonical R = true ->
  exists text,
    to_json R = Return text
    /\ from_json text = match R with
                        | [] => Raise JSONDecodeError
                        | _ :: _ => Return (map reencoded R)
                        end.
Proof.
  intro H. destruct R as [|t R].
  - exists []. split; reflexivity.
  - unfold to_json. rewrite dump_dumped. cbn [bind].
    eexists. split; [reflexivity|].
    rewrite from_json_loads, loads_to_json_text by (assumption || discriminate).
    cbn [is_flat elements]. apply nested_dumped.
Qed.

Lemma to_json_then_from_json_witness :
  exists text,
    to_json [tool_call (lit "f") (qlit "{'a': 1}"); tool_call (lit "g") (lit "{}")]
    = Return text
    /\ from_json text
       = Return (map reencoded
                   [tool_call (lit "f") (qlit "{'a': 1}");
                    tool_call (lit "g") (lit "{}")]).
Proof.
  apply (to_json_then_from_json
           [tool_call (lit "f") (qlit "{'a': 1}"); tool_call (lit "g") (lit "{}")]).
  reflexivity.
Defined.

Example reencoded_empty_mapping :
  reencoded (tool_call (lit "g") (lit "{}")) = tool_call (lit "g") (qlit "'{}'").
Proof. reflexivity. Qed.

Example to_json_one_record :
  to_json [tool_call (lit "g") (lit "{}")]
  = Return (qlit "[
  {
    'function': {
      'name': 'g',
      'arguments': '{}'
    }
  }
]").
Proof. vm_compute. reflexivity. Qed.

(** ** Serializing what was read back *)

Lemma from_xml_written R format :
  forallb safe_record R = true ->
  exists text,
    to_xml R format = Return text
    /\ from_xml text = Return (map read_back (map decoded R)).
Proof.
  intro H. rewrite to_xml_safe by assumption.
  pose proof (safe_records_calls R H) as Hc.
  assert (Forall (fun c => well_formed (VDict (snd c)) = true) (map decoded R)) as W.
  { apply Forall_forall. intros c Hin. apply in_map_iff in Hin as (t & <- & Ht).
    rewrite forallb_forall in H.
    destruct (safe_record_parts t (H t Ht)) as (n & a & d & _ & El & -> & _).
    now apply loads_well_formed in El. }
  eexists. split; [reflexivity|].
  destruct (str_eqb format (lit "qwen"));
    [now apply from_xml_qwen_text|now apply from_xml_claude_text].
Qed.

Lemma read_back_safe t :
  safe_record t = true ->
  safe_record (read_back (decoded t)) = true
  /\ decoded (read_back (decoded t)) = decoded t.
Proof.
  intro H. destruct (safe_record_parts t H) as (n & a & d & -> & El & -> & Hs).
  assert (loads (dumps (VDict d)) = Some (VDict d)) as E.
  { apply loads_dumps_scalar; [now apply loads_well_formed in El|].
    apply scalar_text_safe. unfold safe_call in Hs.
    now apply andb_true_iff in Hs as [_ Hs]. }
  unfold read_back, safe_record, decoded, tool_call.
  cbn [fst snd function name arguments]. rewrite E. split; [|reflexivity].
  exact Hs.
Qed.

Lemma read_back_records R :
  forallb safe_record R = true ->
  forallb safe_record (map read_back (map decoded R)) = true
  /\ map decoded (map read_back (map decoded R)) = map decoded R.
Proof.
  induction R as [|t R IH]; intro H; [split; reflexivity|].
  simpl in H. apply andb_true_iff in H as [Ht H].
  destruct (IH H) as [I1 I2]. destruct (read_back_safe t Ht) as [S1 S2].
  cbn [map forallb]. now rewrite S1, S2, I1, I2.
Qed.

(** X13. What [from_xml] reads out of the text of safe records serializes
    as the records themselves do, in either format: reading the [qwen] text
    and writing [claude], or the other way round, converts exactly. *)
Theorem to_xml_of_read_back (R : list ToolCall) (format format' : str) :
  forallb safe_record R = true ->
  exists text R',
    to_xml R format = Return text
    /\ from_xml text = Return R'
    /\ to_xml R' format' = to_xml R format'.
Proof.
  intro H. destruct (from_xml_written R format H) as (text & E1 & E2).
  exists text, (map read_back (map decoded R)).
  split; [assumption|]. split; [assumption|].
  destruct (read_back_records R H) as [Hs Hd].
  rewrite !to_xml_safe by assumption. now rewrite Hd.
Qed.

Lemma to_xml_of_read_back_witness :
  exists text R',
    to_xml [tool_call (lit "f") (qlit "{ 'a' : [1,2] , 'b':'hi' }")] (lit "qwen")
    = Return text
    /\ from_xml text = Return R'
    /\ to_xml R' (lit "claude")
       = to_xml [tool_call (lit "f") (qlit "{ 'a' : [1,2] , 'b':'hi' }")]
           (lit "claude").
Proof. apply to_xml_of_read_back. vm_compute. reflexivity. Defined.

(** X14. The two formats of [to_xml] carry the same records: [from_xml]
    reads the same list out of the [qwen] text of safe records as out of
    their [claude] text. *)
Theorem formats_read_alike (R : list ToolCall) :
  forallb safe_record R = true ->
  exists qwen_text claude_text,
    to_xml R (lit "qwen") = Return qwen_text
    /\ to_xml R (lit "claude") = Return claude_text
    /\ from_xml qwen_text = from_xml claude_text.
Proof.
  intro H.
  destruct (from_xml_written R (lit "qwen") H) as (qwen_text & Q1 & Q2).
  destruct (from_xml_written R (lit "claude") H) as (claude_text & C1 & C2).
  exists qwen_text, claude_text. repeat split; try assumption.
  now rewrite Q2, C2.
Qed.

Lemma formats_read_alike_witness :
  exists qwen_text claude_text,
    to_xml [tool_call (lit "f") (qlit "{'a': {'k': null}}");
            tool_call (lit "g") (lit "{}")] (lit "qwen") = Return qwen_text
    /\ to_xml [tool_call (lit "f") (qlit "{'a': {'k': null}}");
               tool_call (lit "g") (lit "{}")] (lit "claude") = Return claude_text
    /\ from_xml qwen_text = from_xml claude_text.
Proof. apply formats_read_alike. vm_compute. reflexivity. Defined.

(** ** The first incomplete element *)

Lemma dump_arguments_complete e :
  nested_element e = true -> exists e', dump_arguments e = Return e'.
Proof.
  unfold nested_element, field.
  destruct e as [ | | | | | |d]; try discriminate.
  destruct (dict_get (lit "function") d) as [[ | | | | | |f]|] eqn:Ef;
    try discriminate.
  destruct (dict_get (lit "name") f); [|discriminate].
  destruct (dict_get (lit "arguments") f) eqn:Ea; [|discriminate].
  intros _. unfold dump_arguments, getitem. rewrite Ef. cbn [bind].
  rewrite Ea. cbn [bind]. eexists. reflexivity.
Qed.

(** X15. In the nested dialect the first element without [function], or
    whose [function] mapping is without [arguments], after complete
    elements, makes [from_json] raise [KeyError]. *)
Theorem from_json_missing_key (s : str) (before after : list value) (d : dict) :
  loads s = Some (VList (before ++ VDict d :: after)) ->
  forallb nested_element before = true ->
  match dict_get (lit "function") d with
  | None => True
  | Some (VDict f) => dict_get (lit "arguments") f = None
  | Some _ => False
  end ->
  from_json s = Raise KeyError.
Proof.
  intros El Hb Hd. rewrite from_json_loads, El. cbn [is_flat elements].
  assert (for_each dump_arguments (before ++ VDict d :: after) = Raise KeyError)
    as ->; [|reflexivity].
  clear El. induction before as [|e before IH].
  - cbn [app for_each]. unfold dump_arguments, getitem.
    destruct (dict_get (lit "function") d) as [[ | | | | | |f]|];
      try contradiction; [|reflexivity].
    cbn [bind]. rewrite Hd. reflexivity.
  - simpl in Hb. apply andb_true_iff in Hb as [He Hb].
    cbn [app for_each]. destruct (dump_arguments_complete e He) as [e' ->].
    cbn [bind]. now rewrite (IH Hb).
Qed.

Lemma from_json_missing_key_witness :
  from_json (qlit "[{'function': {'name': 'f', 'arguments': {}}},
 {'function': {'name': 'g'}}, 7]") = Raise KeyError.
Proof.
  apply (from_json_missing_key _
           [VDict [(lit "function",
                    VDict [(lit "name", VStr (lit "f")); (lit "arguments", VDict [])])]]
           [VInt 7]
           [(lit "function", VDict [(lit "name", VStr (lit "g"))])]);
    vm_compute; reflexivity.
Defined.

(** ** The names of the parameters *)

Lemma collect_parameters_keys params :
  NoDup (map fst (collect_parameters params))
  /\ (forall k, In k (map fst (collect_parameters params)) <-> In k (map fst params)).
Proof.
  unfold collect_parameters.
  assert (forall d,
            NoDup (map fst d) ->
            NoDup (map fst (fold_left
                              (fun parameters p =>
                                 dict_set (fst p) (coerce_param (snd p)) parameters)
                              params d))
            /\ forall k,
                 In k (map fst (fold_left
                                  (fun parameters p =>
                                     dict_set (fst p) (coerce_param (snd p)) parameters)
                                  params d))
                 <-> In k (map fst d) \/ In k (map fst params)) as G.
  { induction params as [|p params IH]; intros d Hd.
    - split; [assumption|]. intro k. simpl. tauto.
    - cbn [fold_left map].
      destruct (IH (dict_set (fst p) (coerce_param (snd p)) d)
                  (dict_set_NoDup _ _ _ Hd)) as [I1 I2].
      split; [assumption|]. intro k. rewrite I2, dict_set_keys.
      unfold dict_mem. destruct (dict_get (fst p) d) eqn:E.
      + assert (In (fst p) (map fst d)) as Hin.
        { destruct (in_dec (list_eq_dec N.eq_dec) (fst p) (map fst d)) as [?|Hn];
            [assumption|]. apply dict_get_None_keys in Hn. congruence. }
        simpl. split; [tauto|]. intros [?|[<-|?]]; tauto.
      + rewrite in_app_iff. simpl. tauto. }
  destruct (G [] (NoDup_nil _)) as [G1 G2]. split; [assumption|].
  intro k. rewrite G2. simpl. tauto.
Qed.

Lemma collect_parameters_distinct params :
  NoDup (map fst params) ->
  map fst (collect_parameters params) = map fst params.
Proof.
  unfold collect_parameters. intro H.
  assert (forall d,
            NoDup (map fst d ++ map fst params) ->
            map fst (fold_left
                       (fun parameters p =>
                          dict_set (fst p) (coerce_param (snd p)) parameters)
                       params d)
            = map fst d ++ map fst params) as G.
  { induction params as [|p params IH]; intros d Hd; [now rewrite app_nil_r|].
    cbn [fold_left map] in *. rewrite IH.
    - rewrite dict_set_keys. unfold dict_mem.
      destruct (dict_get (fst p) d) eqn:E.
      + exfalso. apply NoDup_remove_2 in Hd. apply Hd, in_or_app. left.
        destruct (in_dec (list_eq_dec N.eq_dec) (fst p) (map fst d)) as [?|Hn];
          [assumption|]. apply dict_get_None_keys in Hn. congruence.
      + now rewrite <- app_assoc.
    - now inversion H.
    - rewrite dict_set_keys. unfold dict_mem.
      destruct (dict_get (fst p) d) eqn:E.
      + exfalso. apply NoDup_remove_2 in Hd. apply Hd, in_or_app. left.
        destruct (in_dec (list_eq_dec N.eq_dec) (fst p) (map fst d)) as [?|Hn];
          [assumption|]. apply dict_get_None_keys in Hn. congruence.
      + now rewrite <- app_assoc. }
  now apply (G []).
Qed.

(** X16. The mapping built from the parameters of a tagged block holds each
    parameter name once, and no other key; when no name is repeated the keys
    stand in the order of the parameters. *)
Theorem parameters_names (params : list (str * str)) :
  NoDup (map fst (collect_parameters params))
  /\ (forall k, In k (map fst (collect_parameters params)) <-> In k (map fst params))
  /\ (NoDup (map fst params) ->
      map fst (collect_parameters params) = map fst params).
Proof.
  destruct (collect_parameters_keys params) as [H1 H2].
  split; [assumption|]. split; [assumption|].
  apply collect_parameters_distinct.
Qed.

Example parameters_repeated_name :
  from_xml (qlit "<invoke name='g'><parameter name='x'>1</parameter><parameter name='y'>2</parameter><parameter name='x'>3</parameter></invoke>")
  = Return [tool_call (lit "g") (qlit "{'x': 3, 'y': 2}")].
Proof. vm_compute. reflexivity. Qed.
